(** * Android web mirror: relay, lock arbitration and command executor

    A shallow embedding of the signaling server
    (apps/signaling/src/index.ts) and of the agent's control path
    (apps/agent/src/index.ts), followed by the properties of the
    specification that were checked against them.

    Part I holds the definitions, Part II the theorems. *)

From stdpp Require Import gmap strings list fin_maps.

Local Open Scope string_scope.
Local Open Scope list_scope.
Local Open Scope Z_scope.

(* ===================================================================== *)
(** * Part I: definitions                                                 *)
(* ===================================================================== *)

(** ** JavaScript [Map] with string keys

    A [Map] iterates in insertion order, and the server relies on that
    order when it picks the next controller, so a map is kept as the list
    of its entries, oldest first. *)
Module JsMap.

Abbreviation t V := (list (string * V)) (only parsing).

Definition keys {V} (m : t V) : list string := m.*1.
Definition values {V} (m : t V) : list V := m.*2.

Fixpoint get {V} (m : t V) (k : string) : option V :=
  match m with
  | [] => None
  | (k', v) :: m' => if decide (k' = k) then Some v else get m' k
  end.

(** [Map.prototype.set]: an existing key keeps its position. *)
Fixpoint set {V} (m : t V) (k : string) (v : V) : t V :=
  match m with
  | [] => [(k, v)]
  | (k', v') :: m' =>
      if decide (k' = k) then (k, v) :: m' else (k', v') :: set m' k v
  end.

(** [Map.prototype.delete]. *)
Definition delete {V} (m : t V) (k : string) : t V :=
  filter (λ kv, kv.1 ≠ k) m.

Definition size {V} (m : t V) : nat := length m.

End JsMap.

(** ** The signaling server *)
Module Signaling.

Inductive Role := agent | controller | viewer.

#[global] Instance Role_eq_dec : EqDecision Role.
Proof. solve_decision. Defined.

Record TokenPayload := { tp_sessionId : string; tp_role : Role }.

(** [ws.readyState]. *)
Inductive ReadyState := CONNECTING | OPEN | CLOSING | CLOSED.

#[global] Instance ReadyState_eq_dec : EqDecision ReadyState.
Proof. solve_decision. Defined.

(** A socket object is named by a number. *)
Definition WebSocket := nat.

Record Peer := {
  peer_id : string;
  peer_role : Role;
  peer_ws : WebSocket;
}.

#[global] Instance Peer_eq_dec : EqDecision Peer.
Proof. solve_decision. Defined.

Record Session := {
  session_id : string;
  emulatorId : string;
  createdAt : Z;
  expiresAt : Z;
  lockOwnerPeerId : option string;
  peers : JsMap.t Peer;
}.

Definition with_lockOwner (o : option string) (s : Session) : Session :=
  {| session_id := session_id s; emulatorId := emulatorId s;
     createdAt := createdAt s; expiresAt := expiresAt s;
     lockOwnerPeerId := o; peers := peers s |}.

Definition with_peers (ps : JsMap.t Peer) (s : Session) : Session :=
  {| session_id := session_id s; emulatorId := emulatorId s;
     createdAt := createdAt s; expiresAt := expiresAt s;
     lockOwnerPeerId := lockOwnerPeerId s; peers := ps |}.

(** *** Messages *)

Inductive SignalKind := offer | answer | ice.
Inductive LockAction := request | release.

Record Frame := {
  mime : string;
  width : option Z;
  height : option Z;
  dataBase64 : string;
  ts : Z;
}.

(** What a client sent, after [JSON.parse]. The schemas of the server
    are told apart by the literal in field [t], so a parsed message
    matches at most one of them; [m_other] is valid JSON that has none of
    the known tags (or lacks a required field). *)
Inductive Message :=
| invalid_json
| m_hello (token : string)
| m_signal (t : SignalKind) (payload : string)
| m_frame (f : Frame)
| m_control (event : string)
| m_lock (action : LockAction)
| m_other.

(** [helloSchema]: the token is a string of length at least one. *)
Definition helloSchema (m : Message) : option string :=
  match m with
  | m_hello token => if decide (token = "") then None else Some token
  | _ => None
  end.

Definition positive_opt (o : option Z) : bool :=
  match o with Some n => bool_decide (0 < n) | None => true end.

(** [frameSchema]: width and height, when present, are positive. *)
Definition frameSchema (m : Message) : option Frame :=
  match m with
  | m_frame f => if positive_opt (width f) && positive_opt (height f) then Some f else None
  | _ => None
  end.

(** What the server sends. *)
Inductive Envelope :=
| e_error (message : string)
| e_hello_ack (peerId : string) (role : Role) (sessionId emulator : string)
| e_session_state (sessionId : string) (lockOwner : option string)
    (members : list (string * Role))
| e_lock_result (granted : bool) (ownerPeerId : string)
| e_signal (t : SignalKind) (payload : string)
| e_frame (f : Frame)
| e_control (event : string).

(** What the server does to a socket: [ws.send] and the close frame of
    [ws.close]. *)
Inductive Effect :=
| Send (ws : WebSocket) (payload : Envelope)
| Close (ws : WebSocket) (code : Z) (reason : string).

(** The lock results among what was sent: socket, granted, owner. *)
Definition lock_results (out : list Effect) : list (WebSocket * bool * string) :=
  omap (λ e, match e with
             | Send ws (e_lock_result granted owner) => Some (ws, granted, owner)
             | _ => None
             end) out.

(** The socket an effect is addressed to. *)
Definition target (e : Effect) : WebSocket :=
  match e with
  | Send ws _ => ws
  | Close ws _ _ => ws
  end.

(** An envelope that the router relays from one peer to others. *)
Definition relayed (e : Envelope) : bool :=
  match e with
  | e_signal _ _ | e_frame _ | e_control _ => true
  | _ => false
  end.

(** *** Server state *)

(** One connection: the closure variables [peer] and [sessionId] of the
    [wss.on("connection")] callback, and the socket's own state. *)
Record Conn := {
  conn_peer : option Peer;
  conn_sessionId : string;
  readyState : ReadyState;
  bufferedAmount : Z;
}.

Definition with_readyState (r : ReadyState) (c : Conn) : Conn :=
  {| conn_peer := conn_peer c; conn_sessionId := conn_sessionId c;
     readyState := r; bufferedAmount := bufferedAmount c |}.

Definition with_bufferedAmount (n : Z) (c : Conn) : Conn :=
  {| conn_peer := conn_peer c; conn_sessionId := conn_sessionId c;
     readyState := readyState c; bufferedAmount := n |}.

Definition bind_peer (p : Peer) (sid : string) (c : Conn) : Conn :=
  {| conn_peer := Some p; conn_sessionId := sid;
     readyState := readyState c; bufferedAmount := bufferedAmount c |}.

Definition new_conn : Conn :=
  {| conn_peer := None; conn_sessionId := "";
     readyState := OPEN; bufferedAmount := 0 |}.

Record Server := {
  sessions : gmap string Session;
  conns : gmap WebSocket Conn;
}.

Definition init : Server := {| sessions := ∅; conns := ∅ |}.

Definition readyState_of (cs : gmap WebSocket Conn) (ws : WebSocket) : ReadyState :=
  match cs !! ws with
  | Some c => readyState c
  | None => CLOSED
  end.

Definition sendJson (cs : gmap WebSocket Conn) (ws : WebSocket) (payload : Envelope)
    : list Effect :=
  if decide (readyState_of cs ws = OPEN) then [Send ws payload] else [].

(** [ws.close(code, reason)]: an open socket sends its close frame and
    becomes CLOSING; on any other socket the call does nothing. *)
Definition ws_close (cs : gmap WebSocket Conn) (ws : WebSocket) (code : Z) (reason : string)
    : gmap WebSocket Conn * list Effect :=
  match cs !! ws with
  | Some c =>
      if decide (readyState c = OPEN)
      then (<[ws := with_readyState CLOSING c]> cs, [Close ws code reason])
      else (cs, [])
  | None => (cs, [])
  end.

Definition members (s : Session) : list (string * Role) :=
  (λ p, (peer_id p, peer_role p)) <$> JsMap.values (peers s).

Definition broadcastSessionState (cs : gmap WebSocket Conn) (session : Session)
    : list Effect :=
  JsMap.values (peers session) ≫= λ peer,
    sendJson cs (peer_ws peer)
      (e_session_state (session_id session) (lockOwnerPeerId session) (members session)).

(** The loop of [findSession] over the peers of an expired session. *)
Definition expire_peer (acc : gmap WebSocket Conn * list Effect) (peer : Peer)
    : gmap WebSocket Conn * list Effect :=
  let e1 := sendJson acc.1 (peer_ws peer) (e_error "Session expired") in
  let r := ws_close acc.1 (peer_ws peer) 4001 "Session expired" in
  (r.1, acc.2 ++ e1 ++ r.2).

Definition findSession (sessionId : string) (now : Z) (st : Server)
    : option Session * Server * list Effect :=
  match sessions st !! sessionId with
  | None => (None, st, [])
  | Some session =>
      if decide (now > expiresAt session) then
        let r := foldl expire_peer (conns st, []) (JsMap.values (peers session)) in
        (None, {| sessions := delete sessionId (sessions st); conns := r.1 |}, r.2)
      else (Some session, st, [])
  end.

Definition relayByRole (cs : gmap WebSocket Conn) (session : Session) (role : Role)
    (payload : Envelope) : list Effect :=
  JsMap.values (peers session) ≫= λ peer,
    if decide (peer_role peer = role) then sendJson cs (peer_ws peer) payload else [].

(** JavaScript truthiness of [string | null]. *)
Definition truthy (o : option string) : bool :=
  match o with
  | Some s => bool_decide (s ≠ "")
  | None => false
  end.

(** *** Well-formed states *)

(** The peers map has one entry per key, an entry is filed under the id
    of its peer, ids are not empty, and the lock owner, when there is
    one, is a key of the map. *)
Definition session_wf (s : Session) : Prop :=
  NoDup (JsMap.keys (peers s)) ∧
  (∀ k p, (k, p) ∈ peers s → peer_id p = k ∧ k ≠ "") ∧
  (∀ o, lockOwnerPeerId s = Some o → o ∈ JsMap.keys (peers s)).

(** A connection that has a peer is bound to a named session, and while
    that session exists the peer is one of its members. *)
Definition conn_wf (ss : gmap string Session) (c : Conn) : Prop :=
  ∀ p, conn_peer c = Some p →
    conn_sessionId c ≠ "" ∧
    ∀ s, ss !! conn_sessionId c = Some s → JsMap.get (peers s) (peer_id p) = Some p.

Record server_wf (st : Server) : Prop := {
  wf_sessions : ∀ sid s, sessions st !! sid = Some s → sid ≠ "" ∧ session_wf s;
  wf_conns : ∀ ws c, conns st !! ws = Some c → conn_wf (sessions st) c;
  wf_ids : ∀ ws1 ws2 c1 c2 p1 p2,
    conns st !! ws1 = Some c1 → conns st !! ws2 = Some c2 →
    conn_peer c1 = Some p1 → conn_peer c2 = Some p2 →
    peer_id p1 = peer_id p2 → ws1 = ws2;
}.

(** Peer [p] of session [s] holds the lock. *)
Definition holds_lock (s : Session) (p : Peer) : Prop :=
  lockOwnerPeerId s = Some (peer_id p).

(** The lock owner of every session is a member that is not a source. *)
Definition owner_not_source (st : Server) : Prop :=
  ∀ sid s o, sessions st !! sid = Some s → lockOwnerPeerId s = Some o →
    ∃ p, JsMap.get (peers s) o = Some p ∧ peer_role p ≠ agent.

(** Every member of a session is the peer of a connection that is
    bound to that session. *)
Definition member_wf (st : Server) : Prop :=
  ∀ sid s k p, sessions st !! sid = Some s → (k, p) ∈ peers s →
    ∃ c, conns st !! peer_ws p = Some c ∧ conn_peer c = Some p ∧ conn_sessionId c = sid.

(** What a connection is bound to. *)
Definition binding (c : Conn) : option Peer * string := (conn_peer c, conn_sessionId c).

(** Two socket tables bind the same sockets to the same peers. *)
Definition same_bindings (cs cs' : gmap WebSocket Conn) : Prop :=
  ∀ ws, binding <$> cs' !! ws = binding <$> cs !! ws.

(** The sockets of [cs'] are sockets of [cs] with the same bindings. *)
Definition sub_bindings (cs cs' : gmap WebSocket Conn) : Prop :=
  ∀ ws c', cs' !! ws = Some c' →
    ∃ c, cs !! ws = Some c ∧ conn_peer c = conn_peer c' ∧ conn_sessionId c = conn_sessionId c'.

(** A message from a peer of role [role] that no branch of the router
    takes: a hello after the handshake, a frame that is not from the
    source or fails the frame schema, a control event from the source,
    and any other shape. *)
Definition unrecognised (role : Role) (m : Message) : Prop :=
  match m with
  | m_hello _ | m_other => True
  | m_frame _ => role ≠ agent ∨ frameSchema m = None
  | m_control _ => role = agent
  | _ => False
  end.

(** *** Handlers *)

Section Handlers.

(** [jwt.verify] with the server's key, issuer and audience, at a given
    time: the payload of a valid token, or nothing. *)
Variable jwt_verify : Z → string → option TokenPayload.
Variable SESSION_DEFAULT_TTL_SEC : Z.

(** [POST /api/dev/sessions]; [uuid] is what [randomUUID] returned. *)
Definition createSessionBodySchema (emulator : option string) (expiresInSec : option Z)
    : bool :=
  bool_decide (emulator ≠ Some "") &&
  match expiresInSec with
  | Some n => bool_decide (60 ≤ n) && bool_decide (n ≤ 24 * 3600)
  | None => true
  end.

Definition create_session (uuid : string) (emulator : option string)
    (expiresInSec : option Z) (now : Z) (st : Server) : Server :=
  if createSessionBodySchema emulator expiresInSec then
    let session :=
      {| session_id := uuid;
         emulatorId := default "emulator-5554" emulator;
         createdAt := now;
         expiresAt := now + default SESSION_DEFAULT_TTL_SEC expiresInSec * 1000;
         lockOwnerPeerId := None;
         peers := [] |} in
    {| sessions := <[uuid := session]> (sessions st); conns := conns st |}
  else st.

(** [wss.on("connection")]. *)
Definition on_connection (ws : WebSocket) (st : Server) : Server :=
  {| sessions := sessions st; conns := <[ws := new_conn]> (conns st) |}.

(** Send an error, when there is one to send, and close the socket. *)
Definition refuse (st : Server) (ws : WebSocket) (message : option string)
    (code : Z) (reason : string) : Server * list Effect :=
  let e1 := from_option (λ msg, sendJson (conns st) ws (e_error msg)) [] message in
  let r := ws_close (conns st) ws code reason in
  ({| sessions := sessions st; conns := r.1 |}, e1 ++ r.2).

(** The session after a successful hello: [session.peers.set], then the
    first controller takes a free lock. *)
Definition joined (peer : Peer) (session : Session) : Session :=
  let session1 := with_peers (JsMap.set (peers session) (peer_id peer) peer) session in
  if negb (truthy (lockOwnerPeerId session1)) && bool_decide (peer_role peer = controller)
  then with_lockOwner (Some (peer_id peer)) session1
  else session1.

(** The branch [if (!peer)] of the message handler. *)
Definition handshake (ws : WebSocket) (c : Conn) (m : Message) (now : Z) (uuid : string)
    (st : Server) : Server * list Effect :=
  match helloSchema m with
  | None => refuse st ws (Some "First message must be hello") 4000 "Auth required"
  | Some token =>
      match jwt_verify now token with
      | None => refuse st ws (Some "Invalid token") 4003 "Invalid token"
      | Some decoded =>
          match findSession (tp_sessionId decoded) now st with
          | (None, st1, e0) =>
              let r := refuse st1 ws (Some "Session not found") 4004 "Session not found" in
              (r.1, e0 ++ r.2)
          | (Some session, st1, e0) =>
              let peer := {| peer_id := uuid; peer_role := tp_role decoded; peer_ws := ws |} in
              let session2 := joined peer session in
              let cs := <[ws := bind_peer peer (tp_sessionId decoded) c]> (conns st1) in
              ({| sessions := <[tp_sessionId decoded := session2]> (sessions st1);
                  conns := cs |},
               e0 ++ sendJson cs ws
                       (e_hello_ack uuid (peer_role peer) (tp_sessionId decoded)
                          (emulatorId session2))
                  ++ broadcastSessionState cs session2)
          end
      end
  end.

Definition lock_request (cs : gmap WebSocket Conn) (ws : WebSocket) (peer : Peer)
    (session : Session) : Session * list Effect :=
  if negb (truthy (lockOwnerPeerId session))
     || bool_decide (lockOwnerPeerId session = Some (peer_id peer))
  then (with_lockOwner (Some (peer_id peer)) session,
        sendJson cs ws (e_lock_result true (peer_id peer)))
  else (session,
        sendJson cs ws (e_lock_result false (default "" (lockOwnerPeerId session)))).

Definition lock_release (peer : Peer) (session : Session) : Session :=
  if bool_decide (lockOwnerPeerId session = Some (peer_id peer))
  then with_lockOwner None session
  else session.

(** The branch [if (lock.success)]: both [if]s, then the broadcast. *)
Definition on_lock (cs : gmap WebSocket Conn) (ws : WebSocket) (peer : Peer)
    (action : LockAction) (session : Session) : Session * list Effect :=
  let r := match action with
           | request => lock_request cs ws peer session
           | release => (session, [])
           end in
  let session2 := match action with
                  | release => lock_release peer r.1
                  | request => r.1
                  end in
  (session2, r.2 ++ broadcastSessionState cs session2).

Definition unknown_message (cs : gmap WebSocket Conn) (ws : WebSocket) : list Effect :=
  sendJson cs ws (e_error "Unknown message").

(** The message handler once [peer] is set. The schemas are tried in the
    order of the source: signal, frame, control, lock. *)
Definition route (ws : WebSocket) (c : Conn) (peer : Peer) (m : Message) (now : Z)
    (st : Server) : Server * list Effect :=
  match findSession (conn_sessionId c) now st with
  | (None, st1, e0) =>
      let r := refuse st1 ws None 4004 "Session not found" in
      (r.1, e0 ++ r.2)
  | (Some session, st1, e0) =>
      let cs := conns st1 in
      match m with
      | m_signal t payload =>
          (st1,
           e0 ++ if decide (peer_role peer = agent)
                 then relayByRole cs session controller (e_signal t payload)
                      ++ relayByRole cs session viewer (e_signal t payload)
                 else relayByRole cs session agent (e_signal t payload))
      | m_frame f =>
          match frameSchema m with
          | Some data =>
              if decide (peer_role peer = agent)
              then (st1, e0 ++ relayByRole cs session controller (e_frame data)
                            ++ relayByRole cs session viewer (e_frame data))
              else (st1, e0 ++ unknown_message cs ws)
          | None => (st1, e0 ++ unknown_message cs ws)
          end
      | m_control event =>
          if decide (peer_role peer ≠ agent) then
            if decide (lockOwnerPeerId session ≠ Some (peer_id peer))
            then (st1, e0 ++ sendJson cs ws (e_error "Not lock owner"))
            else (st1, e0 ++ relayByRole cs session agent (e_control event))
          else (st1, e0 ++ unknown_message cs ws)
      | m_lock action =>
          let r := on_lock cs ws peer action session in
          ({| sessions := <[conn_sessionId c := r.1]> (sessions st1); conns := cs |},
           e0 ++ r.2)
      | _ => (st1, e0 ++ unknown_message cs ws)
      end
  end.

(** [ws.on("message")]. [now] is what [Date.now] returns during the
    call and [uuid] what [randomUUID] would return. *)
Definition on_message (ws : WebSocket) (m : Message) (now : Z) (uuid : string)
    (st : Server) : Server * list Effect :=
  match conns st !! ws with
  | None => (st, [])
  | Some c =>
      match m with
      | invalid_json => (st, sendJson (conns st) ws (e_error "Invalid JSON message"))
      | _ =>
          match conn_peer c with
          | None => handshake ws c m now uuid st
          | Some peer => route ws c peer m now st
          end
      end
  end.

(** The scan for the next controller after the owner left. *)
Definition nextController (ps : JsMap.t Peer) : option Peer :=
  List.find (λ p, bool_decide (peer_role p = controller)) (JsMap.values ps).

(** The session as [ws.on("close")] leaves it when [peer] goes. *)
Definition leave (peer : Peer) (session : Session) : Session :=
  let session1 := with_peers (JsMap.delete (peers session) (peer_id peer)) session in
  if decide (lockOwnerPeerId session1 = Some (peer_id peer))
  then with_lockOwner (peer_id <$> nextController (peers session1)) session1
  else session1.

(** [ws.on("close")]: the socket is closed and its callbacks are gone. *)
Definition on_close (ws : WebSocket) (st : Server) : Server * list Effect :=
  match conns st !! ws with
  | None => (st, [])
  | Some c =>
      let cs := delete ws (conns st) in
      match conn_peer c with
      | None => ({| sessions := sessions st; conns := cs |}, [])
      | Some peer =>
          if decide (conn_sessionId c = "")
          then ({| sessions := sessions st; conns := cs |}, [])
          else
            match sessions st !! conn_sessionId c with
            | None => ({| sessions := sessions st; conns := cs |}, [])
            | Some session =>
                let session' := leave peer session in
                if decide (JsMap.size (peers session') = 0%nat)
                then ({| sessions := delete (conn_sessionId c) (sessions st);
                         conns := cs |}, [])
                else ({| sessions := <[conn_sessionId c := session']> (sessions st);
                         conns := cs |},
                      broadcastSessionState cs session')
            end
      end
  end.

(** *** Events and reachable states *)

Inductive Event :=
| http_create_session (uuid : string) (emulator : option string)
    (expiresInSec : option Z) (now : Z)
| ws_connection (ws : WebSocket)
| ws_message (ws : WebSocket) (m : Message) (now : Z) (uuid : string)
| ws_closed (ws : WebSocket)
(** the other end started to close: the socket is CLOSING until
    the close event *)
| ws_closing (ws : WebSocket)
(** the amount of queued outbound data changed *)
| ws_buffered (ws : WebSocket) (n : Z).

Definition step (st : Server) (ev : Event) : Server * list Effect :=
  match ev with
  | http_create_session uuid emulator expiresInSec now =>
      (create_session uuid emulator expiresInSec now st, [])
  | ws_connection ws => (on_connection ws st, [])
  | ws_message ws m now uuid => on_message ws m now uuid st
  | ws_closed ws => on_close ws st
  | ws_closing ws =>
      ({| sessions := sessions st;
          conns := alter (with_readyState CLOSING) ws (conns st) |}, [])
  | ws_buffered ws n =>
      ({| sessions := sessions st;
          conns := alter (with_bufferedAmount n) ws (conns st) |}, [])
  end.

(** What the runtime guarantees about an event: a new socket is a new
    object, and [randomUUID] returns a non-empty identifier that names
    no session and no peer of the current state. *)
Definition admissible (st : Server) (ev : Event) : Prop :=
  match ev with
  | http_create_session uuid _ _ _ =>
      uuid ≠ "" ∧ sessions st !! uuid = None ∧
      map_Forall (λ _ c, conn_sessionId c ≠ uuid) (conns st)
  | ws_connection ws => conns st !! ws = None
  | ws_message _ _ _ uuid =>
      uuid ≠ "" ∧
      map_Forall (λ _ c, peer_id <$> conn_peer c ≠ Some uuid) (conns st) ∧
      map_Forall (λ _ s, uuid ∉ JsMap.keys (peers s)) (sessions st)
  | _ => True
  end.

#[global] Instance admissible_dec st ev : Decision (admissible st ev).
Proof. destruct ev; simpl; apply _. Defined.

(** States reachable from the empty server by admissible events that
    also satisfy [allowed]. *)
Inductive reachable_via (allowed : Server → Event → Prop) : Server → Prop :=
| reachable_init : reachable_via allowed init
| reachable_step st ev :
    reachable_via allowed st → admissible st ev → allowed st ev →
    reachable_via allowed (step st ev).1.

Definition reachable : Server → Prop := reachable_via (λ _ _, True).

(** The state after a list of events, and what was sent meanwhile. *)
Definition run (evs : list Event) (st : Server) : Server * list Effect :=
  foldl (λ acc ev, let r := step acc.1 ev in (r.1, acc.2 ++ r.2)) (st, []) evs.

(** Every event of the list is admissible and allowed where it occurs. *)
Fixpoint admissible_run (allowed : Server → Event → Prop) (evs : list Event)
    (st : Server) : Prop :=
  match evs with
  | [] => True
  | ev :: evs' =>
      admissible st ev ∧ allowed st ev ∧ admissible_run allowed evs' (step st ev).1
  end.

(** A lock request sent by a source-role peer while its session is
    unlocked. *)
Definition source_lock_request (st : Server) (ev : Event) : Prop :=
  match ev with
  | ws_message ws (m_lock request) _ _ =>
      ∃ c p s, conns st !! ws = Some c ∧ conn_peer c = Some p ∧ peer_role p = agent ∧
               sessions st !! conn_sessionId c = Some s ∧ lockOwnerPeerId s = None
  | _ => False
  end.

#[global] Instance admissible_run_dec allowed `{∀ st ev, Decision (allowed st ev)} evs st :
  Decision (admissible_run allowed evs st).
Proof. revert st. induction evs as [|ev evs IH]; intros st; simpl; apply _. Defined.

#[global] Instance source_lock_request_dec st ev : Decision (source_lock_request st ev).
Proof.
  destruct ev as [| |ws m now uuid| | |]; simpl; try apply _.
  destruct m as [| | | | |action|]; try apply _.
  destruct action; [|apply _].
  destruct (conns st !! ws) as [c|]; [|right; by intros (? & ? & ? & ? & _)].
  destruct (conn_peer c) as [p|] eqn:Hp;
    [|right; intros (? & ? & ? & ? & ? & _); congruence].
  destruct (decide (peer_role p = agent));
    [|right; intros (? & ? & ? & ? & ? & ? & _); congruence].
  destruct (sessions st !! conn_sessionId c) as [s|] eqn:Hs;
    [|right; intros (? & ? & ? & ? & ? & ? & ? & _); congruence].
  destruct (lockOwnerPeerId s) as [o|] eqn:Ho;
    [right; intros (? & ? & ? & ? & ? & ? & ? & ?); congruence|left; eauto 10].
Defined.

End Handlers.

End Signaling.

(** ** The agent: pointer throttle and command executor *)
Module Agent.

Record DisplaySize := { width : Z; height : Z }.

Inductive PointerAction := down | move | up.

#[global] Instance PointerAction_eq_dec : EqDecision PointerAction.
Proof. solve_decision. Defined.

Inductive KeyAction := key_down | key_up.
Inductive NavAction := home | back | recent | rotate | power.

(** The request of a unary gRPC call. *)
Inductive DeviceCall :=
| sendTouch (x y pressure : Z)
| sendKey_key (key : string)
| sendKey_code (keyCode : Z).

(** A queued closure [() => unaryWithMetadata(...)]: the call it makes,
    and a number for the identity of the function object, which
    [pendingMove === next] compares. *)
Record Command := { fn_id : nat; fn_call : DeviceCall }.

Record Executor := {
  commandQueue : list Command;
  pendingMove : option Command;
  workerRunning : bool;
  (** the call the worker is awaiting *)
  inFlight : option Command;
}.

Definition idle : Executor :=
  {| commandQueue := []; pendingMove := None; workerRunning := false; inFlight := None |}.

Inductive Effect :=
(** [next()] was called: the device call started *)
| Call (c : Command)
(** [console.error("control command failed", error)] *)
| LogError (c : Command).

Definition same_fn (a b : Command) : bool := bool_decide (fn_id a = fn_id b).

(** The worker from the test of its [while] to the next [await], or to
    its end. After the loop the source tests the queue once more and
    restarts the worker; nothing runs between the loop's last test and
    that one, so it finds the queue empty and the model stops there. *)
Definition worker_loop (ex : Executor) : Executor * list Effect :=
  match commandQueue ex with
  | next :: rest =>
      let pm :=
        match pendingMove ex with
        | Some p =>
            if bool_decide (length rest = 0%nat) && same_fn p next then None else Some p
        | None => None
        end in
      ({| commandQueue := rest; pendingMove := pm;
          workerRunning := true; inFlight := Some next |}, [Call next])
  | [] =>
      match pendingMove ex with
      | Some next =>
          ({| commandQueue := []; pendingMove := None;
              workerRunning := true; inFlight := Some next |}, [Call next])
      | None =>
          ({| commandQueue := []; pendingMove := None;
              workerRunning := false; inFlight := None |}, [])
      end
  end.

Definition processQueue (ex : Executor) : Executor * list Effect :=
  if workerRunning ex then (ex, [])
  else worker_loop {| commandQueue := commandQueue ex; pendingMove := pendingMove ex;
                      workerRunning := true; inFlight := inFlight ex |}.

Definition enqueue (fn : Command) (coalesceMove : bool) (ex : Executor)
    : Executor * list Effect :=
  processQueue
    (if coalesceMove
     then {| commandQueue := commandQueue ex; pendingMove := Some fn;
             workerRunning := workerRunning ex; inFlight := inFlight ex |}
     else {| commandQueue := commandQueue ex ++ [fn]; pendingMove := pendingMove ex;
             workerRunning := workerRunning ex; inFlight := inFlight ex |}).

(** The awaited call settles: [ok] when it resolved, otherwise it
    rejected and the [catch] logs it; then the loop goes on. *)
Definition settle (ok : bool) (ex : Executor) : Executor * list Effect :=
  match inFlight ex with
  | None => (ex, [])
  | Some cur =>
      let r := worker_loop {| commandQueue := commandQueue ex; pendingMove := pendingMove ex;
                              workerRunning := workerRunning ex; inFlight := None |} in
      (r.1, (if ok then [] else [LogError cur]) ++ r.2)
  end.

(** The calls settle one after the other with the given outcomes, and
    nothing is enqueued meanwhile. *)
Fixpoint drain (outcomes : list bool) (ex : Executor) : Executor * list Effect :=
  match outcomes with
  | [] => (ex, [])
  | ok :: rest =>
      let r := settle ok ex in
      let r' := drain rest r.1 in
      (r'.1, r.2 ++ r'.2)
  end.

Definition calls (out : list Effect) : list Command :=
  omap (λ e, match e with Call c => Some c | LogError _ => None end) out.

Definition errors (out : list Effect) : list Command :=
  omap (λ e, match e with LogError c => Some c | Call _ => None end) out.

(** What is waiting to run: the ordered entries, then the pending move. *)
Definition waiting (ex : Executor) : list Command :=
  commandQueue ex ++ option_list (pendingMove ex).

(** The commands whose outcome, at the same position, is a failure. *)
Fixpoint failed (outcomes : list bool) (cmds : list Command) : list Command :=
  match outcomes, cmds with
  | ok :: outcomes', c :: cmds' =>
      if ok then failed outcomes' cmds' else c :: failed outcomes' cmds'
  | _, _ => []
  end.

(** The pending move is not one of the queued function objects. *)
Definition distinct_fns (ex : Executor) : Prop :=
  ∀ p, pendingMove ex = Some p → fn_id p ∉ fn_id <$> commandQueue ex.

Inductive ExecEvent :=
| ev_enqueue (fn : Command) (coalesceMove : bool)
| ev_settle (ok : bool).

Definition exec_step (ex : Executor) (ev : ExecEvent) : Executor * list Effect :=
  match ev with
  | ev_enqueue fn coalesceMove => enqueue fn coalesceMove ex
  | ev_settle ok => settle ok ex
  end.

(** Every arrow function passed to [enqueue] is a new object. *)
Definition fresh_fn (ex : Executor) (ev : ExecEvent) : Prop :=
  match ev with
  | ev_enqueue fn _ =>
      (fn_id fn ∉ (fn_id <$> commandQueue ex)) ∧ (fn_id <$> pendingMove ex) ≠ Some (fn_id fn)
  | ev_settle _ => True
  end.

Inductive exec_reachable : Executor → Prop :=
| exec_reachable_idle : exec_reachable idle
| exec_reachable_step ex ev :
    exec_reachable ex → fresh_fn ex ev → exec_reachable (exec_step ex ev).1.

(** *** Pointer events *)

Record PointerState := {
  currentDisplay : option DisplaySize;
  touchActive : bool;
  lastMoveTs : Z;
  lastSentX : Z;
  lastSentY : Z;
}.

Definition pointer_init : PointerState :=
  {| currentDisplay := None; touchActive := false;
     lastMoveTs := 0; lastSentX := 0; lastSentY := 0 |}.

(** A call handed to [enqueue], with the [coalesceMove] flag. *)
Record Forwarded := {
  fw_action : PointerAction;
  fw_x : Z;
  fw_y : Z;
  (** [Date.now()] in the handler that forwarded it *)
  fw_at : Z;
}.

Definition fw_call (f : Forwarded) : DeviceCall :=
  sendTouch (fw_x f) (fw_y f) (match fw_action f with up => 0 | _ => 180 end).

Definition fw_coalesce (f : Forwarded) : bool :=
  match fw_action f with move => true | _ => false end.

(** [enqueue(() => unaryWithMetadata("sendTouch", ...), coalesce)] for
    a forwarded event; [fn] names the new function object. *)
Definition forward (fn : nat) (f : Forwarded) (ex : Executor) : Executor * list Effect :=
  enqueue {| fn_id := fn; fn_call := fw_call f |} (fw_coalesce f) ex.

(** *** Key and navigation events *)

Record KeyEvent := {
  key_action : KeyAction;
  keyCode : option Z;
  key : option string;
}.

(** Only a key down is sent on: by name when the event has a non-empty
    one, else by code when it has one. *)
Definition on_key (k : KeyEvent) : list DeviceCall :=
  match key_action k with
  | key_down =>
      match key k with
      | Some name =>
          if decide (name = "") then from_option (λ n, [sendKey_code n]) [] (keyCode k)
          else [sendKey_key name]
      | None => from_option (λ n, [sendKey_code n]) [] (keyCode k)
      end
  | key_up => []
  end.

Definition on_nav (a : NavAction) : list DeviceCall :=
  [sendKey_key match a with
               | home => "GoHome"
               | back => "GoBack"
               | recent => "AppSwitch"
               | power => "Power"
               | rotate => "RotateScreen"
               end].

Section Pointer.

(** The normalised coordinates are JavaScript numbers; their type and
    the rounded product [Math.round(c * size)] are kept abstract. *)
Variable Coord : Type.
Variable scale : Coord → Z → Z.
Variable POINTER_MOVE_MIN_INTERVAL_MS : Z.
Variable POINTER_MOVE_MIN_DELTA_PX : Z.

Record PointerEvent := {
  action : PointerAction;
  xNorm : Coord;
  yNorm : Coord;
  timestampMs : option Z;
}.

Definition resolvePoint (st : PointerState) (x y : Coord) : option (Z * Z) :=
  match currentDisplay st with
  | None => None
  | Some d => Some (scale x (width d), scale y (height d))
  end.

Definition on_down (x y now : Z) (st : PointerState) : PointerState * list Forwarded :=
  ({| currentDisplay := currentDisplay st; touchActive := true;
      lastMoveTs := now; lastSentX := x; lastSentY := y |},
   [{| fw_action := down; fw_x := x; fw_y := y; fw_at := now |}]).

Definition on_move (x y now : Z) (st : PointerState) : PointerState * list Forwarded :=
  let delta := Z.abs (x - lastSentX st) + Z.abs (y - lastSentY st) in
  if bool_decide (now - lastMoveTs st >= POINTER_MOVE_MIN_INTERVAL_MS)
     && bool_decide (delta >= POINTER_MOVE_MIN_DELTA_PX)
  then ({| currentDisplay := currentDisplay st; touchActive := touchActive st;
           lastMoveTs := now; lastSentX := x; lastSentY := y |},
        [{| fw_action := move; fw_x := x; fw_y := y; fw_at := now |}])
  else (st, []).

Definition on_up (x y now : Z) (st : PointerState) : PointerState * list Forwarded :=
  ({| currentDisplay := currentDisplay st; touchActive := false;
      lastMoveTs := lastMoveTs st; lastSentX := lastSentX st; lastSentY := lastSentY st |},
   [{| fw_action := up; fw_x := x; fw_y := y; fw_at := now |}]).

(** The branch [if (pointer.success)] of the agent's message handler:
    the three [if]s in turn. [now] is [Date.now()]. *)
Definition on_pointer (p : PointerEvent) (now : Z) (st : PointerState)
    : PointerState * list Forwarded :=
  match resolvePoint st (xNorm p) (yNorm p) with
  | None => (st, [])
  | Some (x, y) =>
      let r1 := if bool_decide (action p = down) then on_down x y now st else (st, []) in
      let r2 := if bool_decide (action p = move) && touchActive r1.1
                then on_move x y now r1.1 else (r1.1, []) in
      let r3 := if bool_decide (action p = up) && touchActive r2.1
                then on_up x y now r2.1 else (r2.1, []) in
      (r3.1, r1.2 ++ r2.2 ++ r3.2)
  end.

(** The event of a control envelope: the schemas are tried in the
    order pointer, key, nav, and an event that matches none is ignored. *)
Inductive ControlEvent :=
| ev_pointer (p : PointerEvent)
| ev_key (k : KeyEvent)
| ev_nav (a : NavAction)
| ev_other.

(** The agent's message handler on a control envelope: the new pointer
    state and the calls handed to [enqueue], each with its
    [coalesceMove] flag. *)
Definition on_control (ev : ControlEvent) (now : Z) (st : PointerState)
    : PointerState * list (DeviceCall * bool) :=
  match ev with
  | ev_pointer p =>
      let r := on_pointer p now st in
      (r.1, (λ f, (fw_call f, fw_coalesce f)) <$> r.2)
  | ev_key k => (st, (λ c, (c, false)) <$> on_key k)
  | ev_nav a => (st, (λ c, (c, false)) <$> on_nav a)
  | ev_other => (st, [])
  end.

(** A sequence of pointer events, each with the time of its handling. *)
Definition pointer_run (evs : list (PointerEvent * Z)) (st : PointerState)
    : PointerState * list Forwarded :=
  foldl (λ acc ev, let r := on_pointer ev.1 ev.2 acc.1 in (r.1, acc.2 ++ r.2)) (st, []) evs.

(** [b] keeps the distance required of a move from [a], the event
    forwarded just before it. *)
Definition spaced_pair (a b : Forwarded) : Prop :=
  fw_action a ≠ up ∧
  fw_at b - fw_at a >= POINTER_MOVE_MIN_INTERVAL_MS ∧
  Z.abs (fw_x b - fw_x a) + Z.abs (fw_y b - fw_y a) >= POINTER_MOVE_MIN_DELTA_PX.

(** Every forwarded move keeps its distance from the event forwarded
    just before it. *)
Definition spaced (fw : list Forwarded) : Prop :=
  ∀ i a b, fw !! i = Some a → fw !! S i = Some b → fw_action b = move → spaced_pair a b.

End Pointer.

Arguments action {Coord} _.
Arguments xNorm {Coord} _.
Arguments yNorm {Coord} _.
Arguments timestampMs {Coord} _.

(** The state remembers time and place of [f]. *)
Definition remembers (st : PointerState) (f : Forwarded) : Prop :=
  lastMoveTs st = fw_at f ∧ lastSentX st = fw_x f ∧ lastSentY st = fw_y f.

(** While a touch is active, the state remembers the last forwarded
    event, and that event is not an up. *)
Definition tracks (st : PointerState) (fw : list Forwarded) : Prop :=
  touchActive st = true → ∀ a, last fw = Some a → fw_action a ≠ up ∧ remembers st a.

(** *** Frames from the device *)

Section Frames.

Variable MAX_WS_BUFFERED_BYTES : Z.

(** [screenshotStream.on("data")]: the display size is recorded, and
    the image goes out unless it is empty, the socket is not open, or
    too much is buffered. The result is the new pointer state and
    whether [ws.send] was called. *)
Definition on_screenshot (image_length : nat) (w h : Z)
    (ws_open : bool) (bufferedAmount : Z) (st : PointerState) : PointerState * bool :=
  let st' :=
    if bool_decide (w > 0) && bool_decide (h > 0)
    then {| currentDisplay := Some {| width := w; height := h |};
            touchActive := touchActive st; lastMoveTs := lastMoveTs st;
            lastSentX := lastSentX st; lastSentY := lastSentY st |}
    else st in
  if bool_decide (image_length = 0%nat) then (st', false)
  else if negb ws_open then (st', false)
  else if bool_decide (bufferedAmount > MAX_WS_BUFFERED_BYTES) then (st', false)
  else (st', true).

End Frames.

(** *** The token of a running emulator *)

Section Ini.

(** A string is a list of UTF-16 code units. The code units and the
    white space that [trim] strips (white space and line terminators)
    are kept abstract. *)
Context {Char : Type} `{EqDecision Char}.
Variable is_space : Char → bool.
(** the code units of "\r", "\n", "=" and of the double quote *)
Variables cr lf eq_sign quote : Char.
(** the strings "__proto__", "grpc.port" and "grpc.token" *)
Variables proto_key port_key token_key : list Char.

(** [text.split(/\r?\n/)]: a line ends at every "\n", and the "\r"
    just before it belongs to the line break. *)
Fixpoint split_lines (text : list Char) : list (list Char) :=
  match text with
  | [] => [[]]
  | c :: rest =>
      match rest with
      | c' :: rest' =>
          if bool_decide (c = cr) && bool_decide (c' = lf) then [] :: split_lines rest'
          else if bool_decide (c = lf) then [] :: split_lines rest
          else match split_lines rest with
               | line :: lines => (c :: line) :: lines
               | [] => [[c]]
               end
      | [] => if bool_decide (c = lf) then [[]; []] else [[c]]
      end
  end.

(** [s.indexOf(c)], [None] for -1. *)
Fixpoint indexOf (c : Char) (s : list Char) : option nat :=
  match s with
  | [] => None
  | x :: s' => if bool_decide (x = c) then Some 0%nat else S <$> indexOf c s'
  end.

Fixpoint trimStart (s : list Char) : list Char :=
  match s with
  | c :: s' => if is_space c then trimStart s' else s
  | [] => []
  end.

Definition trimEnd (s : list Char) : list Char := reverse (trimStart (reverse s)).

Definition trim (s : list Char) : list Char := trimEnd (trimStart s).

(** A value between double quotes loses them: [value.slice(1, -1)]. *)
Definition unquote (value : list Char) : list Char :=
  if bool_decide (head value = Some quote) && bool_decide (last value = Some quote)
     && bool_decide (2 ≤ length value)%nat
  then take (length value - 2) (drop 1 value)
  else value.

(** The object [out] is only ever read by key, so it is the list of
    its assignments, the latest first. An assignment to "__proto__"
    reaches the setter of [Object.prototype], which ignores a string. *)
Definition assign (key value : list Char) (out : list (list Char * list Char))
    : list (list Char * list Char) :=
  if decide (key = proto_key) then out else (key, value) :: out.

(** [out[key]], [None] for [undefined]. *)
Fixpoint get (out : list (list Char * list Char)) (key : list Char) : option (list Char) :=
  match out with
  | [] => None
  | (k, v) :: rest => if decide (k = key) then Some v else get rest key
  end.

(** The body of the loop of [parseIni]. *)
Definition parse_line (out : list (list Char * list Char)) (line : list Char)
    : list (list Char * list Char) :=
  match indexOf eq_sign line with
  | None | Some O => out
  | Some idx =>
      let key := trim (take idx line) in
      let value := unquote (trim (drop (idx + 1) line)) in
      assign key value out
  end.

(** The loop of [parseIni] over the lines of [text], from the object [out]. *)
Definition parse_lines (out : list (list Char * list Char)) (text : list Char)
    : list (list Char * list Char) :=
  foldl parse_line out (split_lines text).

Definition parseIni (text : list Char) : list (list Char * list Char) :=
  parse_lines [] text.

(** The lines with [c] added at the end of the last one, and the lines
    without one "\r" at the end of the last one. *)
Fixpoint snoc_last (lines : list (list Char)) (c : Char) : list (list Char) :=
  match lines with
  | [] => []
  | [line] => [line ++ [c]]
  | line :: rest => line :: snoc_last rest c
  end.

Fixpoint chomp (lines : list (list Char)) : list (list Char) :=
  match lines with
  | [] => []
  | [line] =>
      match reverse line with
      | c :: rest => if bool_decide (c = cr) then [reverse rest] else [line]
      | [] => [line]
      end
  | line :: rest => line :: chomp rest
  end.

(** The modification times of files are JavaScript numbers; they and
    their order are kept abstract: [time_le a b] is [a <= b]. *)
Context {Time : Type}.
Variable time_le : Time → Time → bool.

Record IniFile := { mtimeMs : Time; values : list (list Char * list Char) }.

(** A string is truthy unless it is empty; [undefined] is not. *)
Definition nonempty (v : option (list Char)) : bool :=
  match v with Some (_ :: _) => true | _ => false end.

(** [parsed.sort((a, b) => b.stat.mtimeMs - a.stat.mtimeMs)]: the
    newest first, and files of the same time in the order they had. *)
Fixpoint insert_by_mtime (p : IniFile) (sorted : list IniFile) : list IniFile :=
  match sorted with
  | [] => [p]
  | q :: rest =>
      if time_le (mtimeMs q) (mtimeMs p) then p :: q :: rest
      else q :: insert_by_mtime p rest
  end.

Definition sort_by_mtime (parsed : list IniFile) : list IniFile :=
  foldr insert_by_mtime [] parsed.

Definition exact_match (desiredPort : list Char) (p : IniFile) : bool :=
  bool_decide (get (values p) port_key = Some desiredPort)
  && nonempty (get (values p) token_key).

Definition has_token (p : IniFile) : bool := nonempty (get (values p) token_key).

(** Every file is at least as new as those after it. *)
Fixpoint newest_first (ps : list IniFile) : Prop :=
  match ps with
  | [] => True
  | p :: rest =>
      (∀ q, q ∈ rest → time_le (mtimeMs q) (mtimeMs p) = true) ∧ newest_first rest
  end.

(** The code unit of ":" and the strings "://", "http://" and "8554". *)
Variable colon : Char.
Variables scheme_mark http_prefix defaultPort : list Char.

(** [new URL(s).port]: [None] when the constructor throws, and the
    empty string when the URL names no port; a URL drops the default
    port of its scheme. The parser of URLs is kept abstract. *)
Variable url_port : list Char → option (list Char).

Fixpoint startsWith (s needle : list Char) : bool :=
  match needle, s with
  | [], _ => true
  | x :: needle', y :: s' => bool_decide (x = y) && startsWith s' needle'
  | _ :: _, [] => false
  end.

(** [s.includes(needle)] *)
Fixpoint includes (s needle : list Char) : bool :=
  startsWith s needle
  || match s with
     | [] => false
     | _ :: s' => includes s' needle
     end.

(** [s.lastIndexOf(c)], [None] for -1. *)
Fixpoint lastIndexOf (c : Char) (s : list Char) : option nat :=
  match s with
  | [] => None
  | x :: s' =>
      match lastIndexOf c s' with
      | Some i => Some (S i)
      | None => if bool_decide (x = c) then Some 0%nat else None
      end
  end.

(** An empty port, which is falsy, gives the default. *)
Definition or_default (port : list Char) : list Char :=
  match port with
  | [] => defaultPort
  | _ :: _ => port
  end.

Definition getEndpointPort (endpoint : list Char) : list Char :=
  match url_port (if includes endpoint scheme_mark then endpoint
                  else http_prefix ++ endpoint) with
  | Some port => or_default port
  | None =>
      match lastIndexOf colon endpoint with
      | None => defaultPort
      | Some idx => or_default (drop (idx + 1) endpoint)
      end
  end.

(** [discoverGrpcToken] from the environment variable LOCALAPPDATA and
    from what the file system gives: [files] are the modification time
    and the content of the files of the running directory that are
    named like [pid_<digits>.ini], or [None] when reading the
    directory or one of the files fails. *)
Definition discoverGrpcToken (localAppData : option (list Char))
    (files : option (list (Time * list Char))) (endpoint : list Char) : list Char :=
  match localAppData with
  | None | Some [] => []
  | Some _ =>
      let desiredPort := getEndpointPort endpoint in
      match files with
      | None | Some [] => []
      | Some iniFiles =>
          let parsed :=
            sort_by_mtime ((λ f, {| mtimeMs := f.1; values := parseIni f.2 |}) <$> iniFiles) in
          match List.find (exact_match desiredPort) parsed with
          | Some exact => default [] (get (values exact) token_key)
          | None =>
              match List.find has_token parsed with
              | Some any => default [] (get (values any) token_key)
              | None => []
              end
          end
      end
  end.

End Ini.

(** *** Runs of the executor *)

Fixpoint exec_run (evs : list ExecEvent) (ex : Executor) : Executor * list Effect :=
  match evs with
  | [] => (ex, [])
  | ev :: rest =>
      let r := exec_step ex ev in
      let r' := exec_run rest r.1 in
      (r'.1, r.2 ++ r'.2)
  end.

(** The worker runs exactly while it awaits a call, and nothing waits
    while it does not run. *)
Definition consistent (ex : Executor) : Prop :=
  if workerRunning ex then is_Some (inFlight ex) else ex = idle.

(** *** The agent as a whole *)

Section Main.

Variable Coord : Type.
Variable scale : Coord → Z → Z.
Variable POINTER_MOVE_MIN_INTERVAL_MS : Z.
Variable POINTER_MOVE_MIN_DELTA_PX : Z.
Variable MAX_WS_BUFFERED_BYTES : Z.

(** The variables of [main] that its handlers share. [created] counts
    the arrow functions made for [enqueue] so far: each is a new
    object, and its number stands for its identity. *)
Record AgentState := {
  pointerState : PointerState;
  executor : Executor;
  created : nat;
}.

Definition agent_init : AgentState :=
  {| pointerState := pointer_init; executor := idle; created := 0 |}.

Inductive AgentEvent :=
(** a text message that parses as a control envelope; [now] is [Date.now()] *)
| ag_control (ev : ControlEvent Coord) (now : Z)
(** a binary message, or text that is no JSON or no control envelope *)
| ag_ignored
(** [screenshotStream.on("data")] *)
| ag_frame (image_length : nat) (w h : Z) (ws_open : bool) (bufferedAmount : Z)
(** the awaited device call resolves or rejects *)
| ag_settled (ok : bool).

(** What a run of the agent does, in order. *)
Inductive Output :=
(** [enqueue(fn, coalesceMove)] was called *)
| Enqueued (fn : Command) (coalesceMove : bool)
(** the executor called a command or logged its failure *)
| Exec (e : Effect)
(** [ws.send(Buffer.from(image), { binary: true })] *)
| FrameSent (image_length : nat).

(** The calls of [enqueue] that a handler makes, each with a new
    function object. *)
Definition enqueue_calls (cs : list (DeviceCall * bool)) (ex : Executor) (n : nat)
    : Executor * nat * list Output :=
  foldl (λ acc c,
           let fn := {| fn_id := acc.1.2; fn_call := c.1 |} in
           let r := enqueue fn c.2 acc.1.1 in
           (r.1, S acc.1.2, acc.2 ++ Enqueued fn c.2 :: (Exec <$> r.2)))
        (ex, n, []) cs.

Definition agent_step (st : AgentState) (ev : AgentEvent) : AgentState * list Output :=
  match ev with
  | ag_control ev now =>
      let r := on_control Coord scale POINTER_MOVE_MIN_INTERVAL_MS POINTER_MOVE_MIN_DELTA_PX
                 ev now (pointerState st) in
      let q := enqueue_calls r.2 (executor st) (created st) in
      ({| pointerState := r.1; executor := q.1.1; created := q.1.2 |}, q.2)
  | ag_ignored => (st, [])
  | ag_frame image_length w h ws_open bufferedAmount =>
      let r := on_screenshot MAX_WS_BUFFERED_BYTES image_length w h ws_open bufferedAmount
                 (pointerState st) in
      ({| pointerState := r.1; executor := executor st; created := created st |},
       if r.2 then [FrameSent image_length] else [])
  | ag_settled ok =>
      let r := settle ok (executor st) in
      ({| pointerState := pointerState st; executor := r.1; created := created st |},
       Exec <$> r.2)
  end.

Definition agent_run (evs : list AgentEvent) (st : AgentState) : AgentState * list Output :=
  foldl (λ acc ev, let r := agent_step acc.1 ev in (r.1, acc.2 ++ r.2)) (st, []) evs.

End Main.

Arguments ag_control {Coord} _ _.
Arguments ag_ignored {Coord}.
Arguments ag_frame {Coord} _ _ _ _ _.
Arguments ag_settled {Coord} _.

(** The functions handed to [enqueue] in a run, those handed over
    without [coalesceMove], and the functions the executor called. *)
Definition enqueued (tr : list Output) : list Command :=
  omap (λ o, match o with Enqueued fn _ => Some fn | _ => None end) tr.

Definition ordered (tr : list Output) : list Command :=
  omap (λ o, match o with Enqueued fn false => Some fn | _ => None end) tr.

Definition started (tr : list Output) : list Command :=
  omap (λ o, match o with Exec (Call c) => Some c | _ => None end) tr.

Definition frames_sent (tr : list Output) : list nat :=
  omap (λ o, match o with FrameSent n => Some n | _ => None end) tr.

(** What holds of the agent and of what it has done so far: every
    function handed to [enqueue] was made before, what was called or
    waits was handed to [enqueue], nothing is called or waits twice,
    the ordered functions were called or wait in the order of their
    arrival, and the pending move is not one of them. *)
Record agent_inv (st : AgentState) (tr : list Output) : Prop := {
  inv_consistent : consistent (executor st);
  inv_created : ∀ c, c ∈ enqueued tr → (fn_id c < created st)%nat;
  inv_started : ∀ c, c ∈ started tr → c ∈ enqueued tr;
  inv_waiting : ∀ c, c ∈ waiting (executor st) → c ∈ enqueued tr;
  inv_nodup : NoDup (fn_id <$> started tr ++ waiting (executor st));
  inv_fifo :
    filter (λ c, fn_id c ∈ fn_id <$> ordered tr) (started tr) ++ commandQueue (executor st)
      = ordered tr;
  inv_pending : ∀ p, pendingMove (executor st) = Some p → fn_id p ∉ fn_id <$> ordered tr;
  inv_enqueued : NoDup (fn_id <$> enqueued tr);
}.

End Agent.

(** ** Scenarios

    Concrete runs of the server and of the agent, after the scenarios of
    the specification: a session [S1] with a source [A] and controllers
    [B1] and [B2]. *)
Module Scenario.
Import Signaling.

(** A verifier that knows one token per role, all for session [S1]. *)
Definition verify (now : Z) (token : string) : option TokenPayload :=
  if decide (token = "agent-token")
  then Some {| tp_sessionId := "S1"; tp_role := agent |}
  else if decide (token = "controller-token")
  then Some {| tp_sessionId := "S1"; tp_role := controller |}
  else if decide (token = "viewer-token")
  then Some {| tp_sessionId := "S1"; tp_role := viewer |}
  else if decide (token = "stale-token")
  then Some {| tp_sessionId := "S0"; tp_role := viewer |}
  else None.

Definition ttl : Z := 3600.

(** Session [S1] is created at time 0 and socket 0 connects. *)
Definition opened : list Event :=
  [http_create_session "S1" None None 0; ws_connection 0%nat].

(** The source joins over socket 0 and asks for the lock. *)
Definition source_takes_lock : list Event :=
  opened ++ [ws_message 0%nat (m_hello "agent-token") 1 "A";
             ws_message 0%nat (m_lock request) 2 "u1"].

(** The source holds the lock when a controller joins over socket 1. *)
Definition locked_out : list Event :=
  source_takes_lock ++ [ws_connection 1%nat;
                        ws_message 1%nat (m_hello "controller-token") 3 "B1"].

(** The source and two controllers join, over sockets 0, 1 and 2. *)
Definition three_peers : list Event :=
  opened ++ [ws_message 0%nat (m_hello "agent-token") 1 "A";
             ws_connection 1%nat;
             ws_message 1%nat (m_hello "controller-token") 2 "B1";
             ws_connection 2%nat;
             ws_message 2%nat (m_hello "controller-token") 3 "B2"].

(** The three peers, then the source asks for the lock that [B1] holds. *)
Definition source_request_denied : list Event :=
  three_peers ++ [ws_message 0%nat (m_lock request) 4 "u1"].

Definition after (evs : list Event) : Server := (run verify ttl evs init).1.

Definition A : Peer := {| peer_id := "A"; peer_role := agent; peer_ws := 0%nat |}.
Definition B1 : Peer := {| peer_id := "B1"; peer_role := controller; peer_ws := 1%nat |}.
Definition B2 : Peer := {| peer_id := "B2"; peer_role := controller; peer_ws := 2%nat |}.

(** The connection of a member of [S1]. *)
Definition bound (p : Peer) : Conn := bind_peer p "S1" new_conn.

(** Session [S1] with the given lock owner and members. *)
Definition S1 (owner : option string) (ps : list Peer) : Session :=
  {| session_id := "S1"; emulatorId := "emulator-5554";
     createdAt := 0; expiresAt := 3600000;
     lockOwnerPeerId := owner; peers := (λ p, (peer_id p, p)) <$> ps |}.

Definition png : Frame :=
  {| mime := "image/png"; width := Some 1080; height := Some 1920;
     dataBase64 := "iVBORw0KGgo="; ts := 10 |}.

(** The three peers, then 3000000 bytes are queued on the socket of
    [B2], more than the 2000000 that the README gives as the default of
    MAX_WS_BUFFERED_BYTES for the signaling server. *)
Definition congested : list Event :=
  three_peers ++ [ws_buffered 2%nat 3000000].

(** Two controllers: the second asks for the lock, the first leaves,
    the second asks again. *)
Definition handover : list Event :=
  [http_create_session "S1" None None 0;
   ws_connection 1%nat;
   ws_message 1%nat (m_hello "controller-token") 1 "B1";
   ws_connection 2%nat;
   ws_message 2%nat (m_hello "controller-token") 2 "B2";
   ws_message 2%nat (m_lock request) 3 "u1";
   ws_closed 1%nat;
   ws_message 2%nat (m_lock request) 4 "u2"].

End Scenario.

(** More runs of the server: a viewer alone in [S1], and a second
    session [S2] beside the three peers of [S1]. *)
Module ScenarioTwo.
Import Signaling.

Definition verify (now : Z) (token : string) : option TokenPayload :=
  match Scenario.verify now token with
  | Some decoded => Some decoded
  | None =>
      if decide (token = "S2-viewer-token")
      then Some {| tp_sessionId := "S2"; tp_role := viewer |}
      else None
  end.

Definition V : Peer := {| peer_id := "V"; peer_role := viewer; peer_ws := 0%nat |}.
Definition W : Peer := {| peer_id := "W"; peer_role := viewer; peer_ws := 3%nat |}.

Definition viewer_only : list Event :=
  Scenario.opened ++ [ws_message 0%nat (m_hello "viewer-token") 1 "V"].

Definition two_sessions : list Event :=
  Scenario.three_peers ++
  [http_create_session "S2" (Some "pixel") (Some 120) 4;
   ws_connection 3%nat;
   ws_message 3%nat (m_hello "S2-viewer-token") 5 "W"].

Definition after (evs : list Event) : Server :=
  (run verify Scenario.ttl evs init).1.

Definition S2 : Session :=
  {| session_id := "S2"; emulatorId := "pixel"; createdAt := 4; expiresAt := 120004;
     lockOwnerPeerId := None; peers := [("W", W)] |}.

End ScenarioTwo.

(** Runs of the agent: a 1000 x 2000 display, coordinates in
    thousandths, and the default thresholds of 16 ms and 8 px. *)
Module AgentScenario.
Import Agent.

(** [Math.round(c / 1000 * size)], halves rounded up. *)
Definition scale (c size : Z) : Z := (2 * c * size + 1000) `div` 2000.

Definition ready : PointerState :=
  {| currentDisplay := Some {| width := 1000; height := 2000 |};
     touchActive := false; lastMoveTs := 0; lastSentX := 0; lastSentY := 0 |}.

Definition pointer (a : PointerAction) (x y : Z) : PointerEvent Z :=
  {| action := a; xNorm := x; yNorm := y; timestampMs := None |}.

Definition forwarded (evs : list (PointerEvent Z * Z)) (st : PointerState) : list Forwarded :=
  (pointer_run Z scale 16 8 evs st).2.

(** Two gestures: the second starts 7 px left of where the first ended
    and its first move goes back to 1 px from the last forwarded move. *)
Definition two_gestures : list (PointerEvent Z * Z) :=
  [(pointer down 50 50, 0); (pointer move 60 50, 20); (pointer up 60 50, 21);
   (pointer down 53 50, 22); (pointer move 61 50, 40)].

Definition touch (n : nat) (x y pressure : Z) : Command :=
  {| fn_id := n; fn_call := sendTouch x y pressure |}.

(** A down, an up and two moves are enqueued while the down is still
    in flight: the second move replaces the first. *)
Definition busy_events : list ExecEvent :=
  [ev_enqueue (touch 1 50 100 180) false;
   ev_enqueue (touch 2 60 100 0) false;
   ev_enqueue (touch 3 61 100 180) true;
   ev_enqueue (touch 4 70 100 180) true].

Definition exec_after (evs : list ExecEvent) : Executor :=
  foldl (λ ex ev, (exec_step ex ev).1) idle evs.

(** A down is in flight. *)
Definition down_sent : list ExecEvent :=
  [ev_enqueue (touch 1 50 100 180) false].

(** A down is in flight and a move is pending. *)
Definition swipe_begun : list ExecEvent :=
  [ev_enqueue (touch 1 50 100 180) false; ev_enqueue (touch 2 60 100 180) true].

End AgentScenario.

(** The files that running emulators leave, with bytes for code units;
    the modification times are whole milliseconds. *)
Module IniScenario.
Import Agent.

Definition cr : Ascii.ascii := Ascii.ascii_of_nat 13.
Definition lf : Ascii.ascii := Ascii.ascii_of_nat 10.
Definition eq_sign : Ascii.ascii := Ascii.ascii_of_nat 61.
Definition quote : Ascii.ascii := Ascii.ascii_of_nat 34.

(** Tab, line feed, vertical tab, form feed, carriage return, space. *)
Definition is_space (c : Ascii.ascii) : bool :=
  bool_decide (Ascii.nat_of_ascii c ∈ [9; 10; 11; 12; 13; 32]%nat).

Definition str (s : string) : list Ascii.ascii := String.list_ascii_of_string s.

Definition parse (text : list Ascii.ascii) : list (list Ascii.ascii * list Ascii.ascii) :=
  parseIni is_space cr lf eq_sign quote (str "__proto__") text.

(** The port of a URL [http://host:port] whose host has no ":": the
    digits after the last ":", and none for port 80, the default of
    the scheme. *)
Definition url_port (url : list Ascii.ascii) : option (list Ascii.ascii) :=
  let port := match lastIndexOf (Ascii.ascii_of_nat 58) url with
              | Some idx => drop (idx + 1) url
              | None => []
              end in
  Some (if forallb (λ c, bool_decide (48 ≤ Ascii.nat_of_ascii c ≤ 57)%nat) port
           && negb (bool_decide (port = str "80"))
        then port else []).


Definition discover (localAppData : option (list Ascii.ascii))
    (files : option (list (Z * list Ascii.ascii))) (endpoint : list Ascii.ascii)
    : list Ascii.ascii :=
  discoverGrpcToken is_space cr lf eq_sign quote
    (str "__proto__") (str "grpc.port") (str "grpc.token") Z.leb
    (Ascii.ascii_of_nat 58) (str "://") (str "http://") (str "8554") url_port
    localAppData files endpoint.

(** A file with Windows line ends and a quoted token. *)
Definition pid_ini (port token : string) : list Ascii.ascii :=
  str "grpc.port=" ++ str port ++ [cr; lf]
  ++ str "grpc.token = " ++ [quote] ++ str token ++ [quote] ++ [cr; lf].

(** Two emulators on port 8554, the second one started later, and a
    still newer one on port 8556. *)
Definition running : list (Z * list Ascii.ascii) :=
  [(100, pid_ini "8554" "old"); (300, pid_ini "8556" "other"); (200, pid_ini "8554" "new")].

Definition parsed_running : list IniFile :=
  (λ f, {| mtimeMs := f.1; values := parse f.2 |}) <$> running.

End IniScenario.

(* ===================================================================== *)
(** * Part II: theorems                                                   *)
(* ===================================================================== *)

(** ** Facts about [JsMap] *)
Module JsMapFacts.
Import JsMap.

Section Facts.
Context {V : Type}.
Implicit Types (m : t V) (k : string) (v : V).

Lemma elem_of_keys m k : k ∈ keys m ↔ ∃ v, (k, v) ∈ m.
Proof.
  unfold keys. rewrite list_elem_of_fmap. split.
  - intros [[k' v] [-> H]]. eauto.
  - intros [v H]. exists (k, v). done.
Qed.

Lemma get_Some_elem m k v : get m k = Some v → (k, v) ∈ m.
Proof.
  induction m as [|[k' v'] m IH]; simpl; [done|].
  case_decide; intros Hg.
  - simplify_eq. left.
  - right. auto.
Qed.

Lemma get_None_keys m k : get m k = None ↔ k ∉ keys m.
Proof.
  induction m as [|[k' v'] m IH]; simpl.
  - split; [intros _; apply not_elem_of_nil | done].
  - rewrite not_elem_of_cons. case_decide; simplify_eq.
    + split; [done | intros [? _]; done].
    + rewrite IH. split; [intros ?; split; [congruence | done] | by intros [_ ?]].
Qed.

Lemma elem_get m k v : NoDup (keys m) → (k, v) ∈ m → get m k = Some v.
Proof.
  induction m as [|[k' v'] m IH]; simpl; intros Hnd Hin.
  - by apply elem_of_nil in Hin.
  - apply NoDup_cons in Hnd as [Hk Hnd].
    apply elem_of_cons in Hin as [Heq | Hin].
    + simplify_eq. by rewrite decide_True.
    + rewrite decide_False; [auto|].
      intros ->. apply Hk, elem_of_keys. eauto.
Qed.

Lemma keys_get m k : k ∈ keys m → is_Some (get m k).
Proof.
  intros H. destruct (get m k) eqn:E; [eauto|].
  by apply get_None_keys in E.
Qed.

Lemma get_set_eq m k v : get (set m k v) k = Some v.
Proof.
  induction m as [|[k' v'] m IH]; simpl.
  - by rewrite decide_True.
  - case_decide; simpl; [by rewrite decide_True | by rewrite decide_False].
Qed.

Lemma get_set_ne m k k' v : k ≠ k' → get (set m k v) k' = get m k'.
Proof.
  intros Hne. induction m as [|[k0 v0] m IH]; simpl.
  - by rewrite decide_False.
  - case_decide; simpl.
    + simplify_eq. by rewrite !decide_False.
    + by rewrite IH.
Qed.

Lemma elem_of_set m k v k' v' :
  (k', v') ∈ set m k v → (k' = k ∧ v' = v) ∨ (k', v') ∈ m.
Proof.
  induction m as [|[k0 v0] m IH]; simpl.
  - intros H%list_elem_of_singleton. simplify_eq. by left.
  - case_decide; rewrite !elem_of_cons; intuition (simplify_eq; auto).
Qed.

Lemma elem_of_keys_set m k v k' : k' ∈ keys (set m k v) ↔ k' = k ∨ k' ∈ keys m.
Proof.
  induction m as [|[k0 v0] m IH]; simpl.
  - unfold keys. simpl. rewrite list_elem_of_singleton.
    split; [by left | intros [?|H]; [done | by apply elem_of_nil in H]].
  - unfold keys in *. case_decide; simpl; rewrite !elem_of_cons; intuition (simplify_eq; auto).
Qed.

Lemma NoDup_keys_set m k v : NoDup (keys m) → NoDup (keys (set m k v)).
Proof.
  induction m as [|[k0 v0] m IH]; simpl; intros Hnd.
  - unfold keys. simpl. apply NoDup_singleton.
  - unfold keys in *. simpl in Hnd. apply NoDup_cons in Hnd as [Hk Hnd].
    case_decide; simpl; apply NoDup_cons.
    + by simplify_eq.
    + split; [|auto]. intros [?|?]%elem_of_keys_set; [congruence | by apply Hk].
Qed.

Lemma elem_of_delete m k k' v' : (k', v') ∈ delete m k ↔ k' ≠ k ∧ (k', v') ∈ m.
Proof. unfold delete. by rewrite list_elem_of_filter. Qed.

Lemma elem_of_keys_delete m k k' : k' ∈ keys (delete m k) ↔ k' ≠ k ∧ k' ∈ keys m.
Proof.
  rewrite !elem_of_keys. setoid_rewrite elem_of_delete.
  split; [intros (v & ? & ?) | intros (? & v & ?)]; eauto.
Qed.

Lemma NoDup_keys_delete m k : NoDup (keys m) → NoDup (keys (delete m k)).
Proof.
  intros Hnd. eapply sublist_NoDup; [exact Hnd|].
  unfold keys, delete. apply fmap_sublist, sublist_filter.
Qed.

Lemma get_delete_ne m k k' : k ≠ k' → get (delete m k) k' = get m k'.
Proof.
  intros Hne. unfold delete. induction m as [|[k0 v0] m IH]; [done|].
  rewrite filter_cons. cbn [fst get]. case_decide; cbn [get].
  - by rewrite IH.
  - simplify_eq. by rewrite decide_False.
Qed.

Lemma elem_of_values m v : v ∈ values m ↔ ∃ k, (k, v) ∈ m.
Proof.
  unfold values. rewrite list_elem_of_fmap. split.
  - intros [[k v'] [-> H]]. eauto.
  - intros [k H]. by exists (k, v).
Qed.

End Facts.
End JsMapFacts.

(** ** The signaling server *)
Module SignalingProofs.
Import Signaling JsMapFacts.

Lemma same_bindings_refl cs : same_bindings cs cs.
Proof. done. Qed.

Lemma same_bindings_trans cs1 cs2 cs3 :
  same_bindings cs1 cs2 → same_bindings cs2 cs3 → same_bindings cs1 cs3.
Proof. intros H12 H23 ws. by rewrite H23, H12. Qed.

Lemma same_bindings_lookup cs cs' ws c' :
  same_bindings cs cs' → cs' !! ws = Some c' →
  ∃ c, cs !! ws = Some c ∧ conn_peer c = conn_peer c' ∧ conn_sessionId c = conn_sessionId c'.
Proof.
  intros Hb Hc'. specialize (Hb ws). rewrite Hc' in Hb.
  destruct (cs !! ws) as [c|]; simplify_eq/=.
  exists c. unfold binding in Hb. by simplify_eq.
Qed.

Lemma same_bindings_alter cs ws (f : Conn → Conn) :
  (∀ c, binding (f c) = binding c) → same_bindings cs (alter f ws cs).
Proof.
  intros Hf ws'. destruct (decide (ws = ws')) as [->|Hne].
  - rewrite lookup_alter_eq. destruct (cs !! ws'); simpl; [by rewrite Hf|done].
  - by rewrite lookup_alter_ne.
Qed.

Lemma ws_close_bindings cs ws code reason :
  same_bindings cs (ws_close cs ws code reason).1.
Proof.
  unfold ws_close. destruct (cs !! ws) as [c|] eqn:Hc; [|done].
  case_decide; [|done]. simpl. intros ws'.
  destruct (decide (ws = ws')) as [->|Hne].
  - by rewrite lookup_insert_eq, Hc.
  - by rewrite lookup_insert_ne.
Qed.

Lemma expire_bindings ps cs out :
  same_bindings cs (foldl expire_peer (cs, out) ps).1.
Proof.
  revert cs out. induction ps as [|p ps IH]; intros cs out; simpl; [done|].
  eapply same_bindings_trans; [|apply IH]. apply ws_close_bindings.
Qed.

Lemma refuse_sessions st ws msg code reason :
  sessions (refuse st ws msg code reason).1 = sessions st.
Proof. done. Qed.

Lemma refuse_bindings st ws msg code reason :
  same_bindings (conns st) (conns (refuse st ws msg code reason).1).
Proof. apply ws_close_bindings. Qed.

(** What [findSession] returns and leaves behind. *)
Lemma findSession_Some sid now st s st1 e :
  findSession sid now st = (Some s, st1, e) →
  st1 = st ∧ e = [] ∧ sessions st !! sid = Some s ∧ ¬ now > expiresAt s.
Proof.
  unfold findSession. destruct (sessions st !! sid) as [s0|]; [|done].
  case_decide; [done|]. intros. by simplify_eq.
Qed.

Lemma findSession_None sid now st st1 e :
  findSession sid now st = (None, st1, e) →
  same_bindings (conns st) (conns st1) ∧ sessions st1 ⊆ sessions st ∧
  (sessions st !! sid = None → st1 = st ∧ e = []) ∧
  (∀ s, sessions st !! sid = Some s →
     now > expiresAt s ∧ sessions st1 = delete sid (sessions st)).
Proof.
  unfold findSession. destruct (sessions st !! sid) as [s0|] eqn:Hs.
  - case_decide; [|done]. intros. simplify_eq. simpl. split_and!.
    + apply expire_bindings.
    + apply delete_subseteq.
    + done.
    + intros s ?. by simplify_eq.
  - intros. simplify_eq. split_and!; done.
Qed.

Lemma findSession_live sid now st s :
  sessions st !! sid = Some s → ¬ now > expiresAt s →
  findSession sid now st = (Some s, st, []).
Proof. intros Hs Hlive. unfold findSession. rewrite Hs. by rewrite decide_False. Qed.

Lemma same_sub_bindings cs cs' : same_bindings cs cs' → sub_bindings cs cs'.
Proof. intros Hb ws c'. by apply same_bindings_lookup. Qed.

Lemma sub_bindings_delete cs ws : sub_bindings cs (delete ws cs).
Proof.
  intros ws' c' Hl. apply lookup_delete_Some in Hl as [_ Hl]. eauto.
Qed.

(** Well-formedness survives the loss of sessions and of sockets, and
    any change of the sockets that keeps their bindings. *)
Lemma server_wf_shrink st st' :
  server_wf st → sub_bindings (conns st) (conns st') → sessions st' ⊆ sessions st →
  server_wf st'.
Proof.
  intros [Hs Hc Hi] Hb Hsub. split.
  - intros sid s Hl. eapply Hs, lookup_weaken; eauto.
  - intros ws c' Hc' p Hp.
    destruct (Hb _ _ Hc') as (c & Hl & Hpe & Hse).
    rewrite <- Hpe in Hp. destruct (Hc ws c Hl p Hp) as [Hne Hget].
    rewrite <- Hse. split; [done|]. intros s Hl'. apply Hget.
    eapply lookup_weaken; eauto.
  - intros ws1 ws2 c1 c2 p1 p2 H1 H2 Hp1 Hp2 Heq.
    destruct (Hb _ _ H1) as (d1 & Hd1 & Hpe1 & _).
    destruct (Hb _ _ H2) as (d2 & Hd2 & Hpe2 & _).
    eapply (Hi ws1 ws2 d1 d2 p1 p2); eauto; congruence.
Qed.

Lemma owner_not_source_shrink st st' :
  owner_not_source st → sessions st' ⊆ sessions st → owner_not_source st'.
Proof. intros H Hsub sid s o Hl. eapply H, lookup_weaken; eauto. Qed.

Section Preservation.

Variable jwt_verify : Z → string → option TokenPayload.
Variable ttl : Z.

Lemma create_session_wf uuid emulator expiresInSec now st :
  server_wf st → admissible st (http_create_session uuid emulator expiresInSec now) →
  server_wf (create_session ttl uuid emulator expiresInSec now st).
Proof.
  intros Hwf (Hne & Hfresh & Hconns). unfold create_session.
  destruct (createSessionBodySchema _ _); [|done].
  destruct Hwf as [Hs Hc Hi]. split; simpl.
  - intros sid s [[<- <-]|[Hsid Hl]]%lookup_insert_Some; [|eauto].
    split; [done|]. split_and!; simpl.
    + apply NoDup_nil_2.
    + intros k p Hin. by apply elem_of_nil in Hin.
    + done.
  - intros ws c Hl p Hp. destruct (Hc ws c Hl p Hp) as [Hn Hget].
    split; [done|]. intros s. rewrite lookup_insert_ne; [auto|].
    intros Heq. by apply (Hconns ws c Hl).
  - done.
Qed.

Lemma on_connection_wf ws st :
  server_wf st → admissible st (ws_connection ws) → server_wf (on_connection ws st).
Proof.
  intros [Hs Hc Hi] Hfresh. simpl in Hfresh. split; simpl.
  - done.
  - intros ws' c [[<- <-]|[Hne Hl]]%lookup_insert_Some; [done|eauto].
  - intros ws1 ws2 c1 c2 p1 p2
      [[<- <-]|[Hne1 H1]]%lookup_insert_Some [[<- <-]|[Hne2 H2]]%lookup_insert_Some;
      try done. eauto.
Qed.

Lemma joined_peers s p : peers (joined p s) = JsMap.set (peers s) (peer_id p) p.
Proof. unfold joined. by case_match. Qed.

Lemma joined_owner s p :
  lockOwnerPeerId (joined p s) = lockOwnerPeerId s ∨
  (lockOwnerPeerId (joined p s) = Some (peer_id p) ∧ peer_role p = controller).
Proof.
  unfold joined. case_match eqn:E; simpl; [|by left].
  right. apply andb_prop in E as [_ E%bool_decide_eq_true]. done.
Qed.

Lemma joined_wf s p :
  session_wf s → peer_id p ≠ "" → session_wf (joined p s).
Proof.
  intros (Hnd & Hent & Hown) Hne. split_and!; rewrite ?joined_peers.
  - by apply NoDup_keys_set.
  - intros k q [[-> ->]|Hin]%elem_of_set; [done|by apply Hent].
  - intros o Ho. apply elem_of_keys_set.
    destruct (joined_owner s p) as [Heq|[Heq _]]; rewrite Heq in Ho.
    + right. by apply Hown.
    + left. by simplify_eq.
Qed.

(** A member joins session [sid] over socket [ws]. *)
Lemma join_wf st sid s ws c p :
  server_wf st → sessions st !! sid = Some s → conns st !! ws = Some c →
  conn_peer c = None → peer_id p ≠ "" →
  map_Forall (λ _ c, peer_id <$> conn_peer c ≠ Some (peer_id p)) (conns st) →
  server_wf {| sessions := <[sid := joined p s]> (sessions st);
               conns := <[ws := bind_peer p sid c]> (conns st) |}.
Proof.
  intros [Hs Hc Hi] Hsid Hws Hnone Hne Hfresh.
  destruct (Hs sid s Hsid) as [Hsne Hswf]. split; simpl.
  - intros sid' s' [[<- <-]|[Hn Hl]]%lookup_insert_Some; [|eauto].
    split; [done|]. by apply joined_wf.
  - intros ws' c' [[<- <-]|[Hn Hl]]%lookup_insert_Some q Hq; simpl in *.
    + simplify_eq. split; [done|]. intros s'. rewrite lookup_insert_eq.
      intros ?. simplify_eq. rewrite joined_peers. apply get_set_eq.
    + destruct (Hc ws' c' Hl q Hq) as [Hn' Hget]. split; [done|].
      intros s' [[Hsid' <-]|[Hn2 Hl2]]%lookup_insert_Some; [|eauto].
      rewrite joined_peers, get_set_ne.
      { apply Hget. by rewrite <- Hsid'. }
      intros Heq. apply (Hfresh ws' c' Hl). rewrite Hq. simpl. congruence.
  - intros ws1 ws2 c1 c2 p1 p2
      [[<- <-]|[Hne1 H1]]%lookup_insert_Some [[<- <-]|[Hne2 H2]]%lookup_insert_Some
      Hp1 Hp2 Heq; simpl in *; simplify_eq; try done.
    + exfalso. apply (Hfresh ws2 c2 H2). rewrite Hp2. simpl. congruence.
    + exfalso. apply (Hfresh ws1 c1 H1). rewrite Hp1. simpl. congruence.
    + eauto.
Qed.

(** A hello either fails, and then no session gains a member and no
    socket gains a peer, or it makes the sender a member. *)
Lemma handshake_cases ws c m now uuid st :
  let r := handshake jwt_verify ws c m now uuid st in
  (same_bindings (conns st) (conns r.1) ∧ sessions r.1 ⊆ sessions st) ∨
  (∃ token decoded s,
     helloSchema m = Some token ∧ jwt_verify now token = Some decoded ∧
     sessions st !! tp_sessionId decoded = Some s ∧ ¬ now > expiresAt s ∧
     let p := {| peer_id := uuid; peer_role := tp_role decoded; peer_ws := ws |} in
     r.1 = {| sessions := <[tp_sessionId decoded := joined p s]> (sessions st);
              conns := <[ws := bind_peer p (tp_sessionId decoded) c]> (conns st) |}).
Proof.
  unfold handshake. destruct (helloSchema m) as [token|] eqn:Hm.
  2: { left. split; [apply refuse_bindings | done]. }
  destruct (jwt_verify now token) as [decoded|] eqn:Hv.
  2: { left. split; [apply refuse_bindings | done]. }
  destruct (findSession _ _ _) as [[[s|] st1] e0] eqn:Hf.
  - apply findSession_Some in Hf as (-> & -> & Hs & Hlive).
    right. exists token, decoded, s. done.
  - apply findSession_None in Hf as (Hb & Hsub & _).
    left. simpl. split; [|done].
    eapply same_bindings_trans; [exact Hb | apply ws_close_bindings].
Qed.

Lemma on_lock_peers cs ws p action s : peers (on_lock cs ws p action s).1 = peers s.
Proof.
  unfold on_lock, lock_request, lock_release.
  destruct action; simpl; repeat case_match; done.
Qed.

Lemma on_lock_owner cs ws p action s :
  let o := lockOwnerPeerId (on_lock cs ws p action s).1 in
  o = lockOwnerPeerId s ∨ (o = Some (peer_id p) ∧ action = request) ∨ o = None.
Proof.
  unfold on_lock, lock_request, lock_release.
  destruct action; simpl; repeat case_match; simpl; auto.
Qed.

(** A routed message changes the state only by losing sessions, or it
    is a lock message and updates the lock of the sender's session. *)
Lemma route_cases ws c p m now st :
  let r := route ws c p m now st in
  (same_bindings (conns st) (conns r.1) ∧ sessions r.1 ⊆ sessions st) ∨
  (∃ action s,
     m = m_lock action ∧ sessions st !! conn_sessionId c = Some s ∧ ¬ now > expiresAt s ∧
     r.1 = {| sessions := <[conn_sessionId c := (on_lock (conns st) ws p action s).1]>
                            (sessions st);
              conns := conns st |}).
Proof.
  unfold route. destruct (findSession _ _ _) as [[[s|] st1] e0] eqn:Hf.
  - apply findSession_Some in Hf as (-> & -> & Hs & Hlive).
    destruct m as [| | | | |action|]; try (left; simpl; repeat case_match; done).
    right. by exists action, s.
  - apply findSession_None in Hf as (Hb & Hsub & _).
    left. simpl. split; [|done].
    eapply same_bindings_trans; [exact Hb | apply ws_close_bindings].
Qed.

(** The session of a socket gets a new lock owner among its members. *)
Lemma relock_wf st sid s s' :
  server_wf st → sessions st !! sid = Some s → peers s' = peers s →
  (∀ o, lockOwnerPeerId s' = Some o → o ∈ JsMap.keys (peers s)) →
  server_wf {| sessions := <[sid := s']> (sessions st); conns := conns st |}.
Proof.
  intros [Hs Hc Hi] Hsid Hpeers Hown.
  destruct (Hs sid s Hsid) as (Hne & Hnd & Hent & _). split; simpl.
  - intros sid' s'' [[<- <-]|[Hn Hl]]%lookup_insert_Some; [|eauto].
    split; [done|]. unfold session_wf. rewrite Hpeers. done.
  - intros ws c Hl q Hq. destruct (Hc ws c Hl q Hq) as [Hn' Hget]. split; [done|].
    intros s'' [[Hsid' <-]|[Hn2 Hl2]]%lookup_insert_Some; [|eauto].
    rewrite Hpeers. apply Hget. by rewrite <- Hsid'.
  - done.
Qed.

Lemma nextController_Some ps q :
  nextController ps = Some q → q ∈ JsMap.values ps ∧ peer_role q = controller.
Proof.
  unfold nextController. intros [Hin Hrole]%find_some.
  split; [by apply list_elem_of_In | by apply bool_decide_eq_true in Hrole].
Qed.

Lemma leave_peers p s : peers (leave p s) = JsMap.delete (peers s) (peer_id p).
Proof. unfold leave. by case_decide. Qed.

Lemma leave_owner p s :
  lockOwnerPeerId (leave p s) =
    if decide (lockOwnerPeerId s = Some (peer_id p))
    then peer_id <$> nextController (JsMap.delete (peers s) (peer_id p))
    else lockOwnerPeerId s.
Proof. unfold leave. simpl. by case_decide. Qed.

Lemma leave_wf p s : session_wf s → session_wf (leave p s).
Proof.
  intros (Hnd & Hent & Hown). split_and!; rewrite ?leave_peers.
  - by apply NoDup_keys_delete.
  - intros k q [_ Hin]%elem_of_delete. by apply Hent.
  - intros o. rewrite leave_owner. case_decide as Ho.
    + destruct (nextController _) as [q|] eqn:Hq; [|done].
      apply nextController_Some in Hq as [[k Hin]%elem_of_values _].
      intros ?. simplify_eq/=. apply elem_of_keys. exists q.
      pose proof Hin as [_ Hin']%elem_of_delete.
      destruct (Hent k q Hin') as [-> _]. done.
    + intros Ho'. apply elem_of_keys_delete. split; [congruence|auto].
Qed.

Lemma on_close_cases ws st :
  let r := on_close ws st in
  (sub_bindings (conns st) (conns r.1) ∧ sessions r.1 ⊆ sessions st) ∨
  (∃ c p s,
     conns st !! ws = Some c ∧ conn_peer c = Some p ∧
     sessions st !! conn_sessionId c = Some s ∧
     r.1 = {| sessions := <[conn_sessionId c := leave p s]> (sessions st);
              conns := delete ws (conns st) |}).
Proof.
  unfold on_close. destruct (conns st !! ws) as [c|] eqn:Hc.
  2: { left. split; [by apply same_sub_bindings | done]. }
  destruct (conn_peer c) as [p|] eqn:Hp.
  2: { left. split; [apply sub_bindings_delete | done]. }
  case_decide.
  { left. split; [apply sub_bindings_delete | done]. }
  destruct (sessions st !! conn_sessionId c) as [s|] eqn:Hs.
  2: { left. split; [apply sub_bindings_delete | done]. }
  case_decide.
  - left. split; [apply sub_bindings_delete | apply delete_subseteq].
  - right. eauto 8.
Qed.

Lemma leave_server_wf st ws c p s :
  server_wf st → conns st !! ws = Some c → conn_peer c = Some p →
  sessions st !! conn_sessionId c = Some s →
  server_wf {| sessions := <[conn_sessionId c := leave p s]> (sessions st);
               conns := delete ws (conns st) |}.
Proof.
  intros [Hs Hc Hi] Hws Hp Hsid.
  destruct (Hs _ s Hsid) as [Hne Hswf]. split; simpl.
  - intros sid' s' [[<- <-]|[Hn Hl]]%lookup_insert_Some; [|eauto].
    split; [done|]. by apply leave_wf.
  - intros ws' c' [Hn Hl]%lookup_delete_Some q Hq.
    destruct (Hc ws' c' Hl q Hq) as [Hn' Hget]. split; [done|].
    intros s' [[Hsid' <-]|[Hn2 Hl2]]%lookup_insert_Some; [|eauto].
    rewrite leave_peers, get_delete_ne.
    { apply Hget. by rewrite <- Hsid'. }
    intros Heq. apply Hn. eapply (Hi ws ws' c c' p q); eauto.
  - intros ws1 ws2 c1 c2 p1 p2 [_ H1]%lookup_delete_Some [_ H2]%lookup_delete_Some.
    eauto.
Qed.

(** Every admissible event keeps the server well formed. *)
Lemma step_wf st ev :
  server_wf st → admissible st ev → server_wf (step jwt_verify ttl st ev).1.
Proof.
  intros Hwf Hadm. destruct ev as [uuid em ex now|ws|ws m now uuid|ws|ws|ws n]; simpl.
  - by apply create_session_wf.
  - by apply on_connection_wf.
  - unfold on_message. destruct (conns st !! ws) as [c|] eqn:Hc; [|done].
    destruct Hadm as (Hne & Hfresh & _).
    assert (server_wf
      (match conn_peer c with
       | Some peer => route ws c peer m now st
       | None => handshake jwt_verify ws c m now uuid st
       end).1) as Hmain.
    { destruct (conn_peer c) as [p|] eqn:Hp.
      - destruct (route_cases ws c p m now st) as [[Hb Hsub]|(action & s & -> & Hs & _ & ->)].
        + eapply server_wf_shrink; eauto using same_sub_bindings.
        + eapply relock_wf; eauto using on_lock_peers.
          intros o Ho.
          destruct (on_lock_owner (conns st) ws p action s) as [Heq|[[Heq _]|Heq]];
            rewrite Heq in Ho.
          * destruct (wf_sessions _ Hwf _ _ Hs) as (_ & _ & _ & Hown). auto.
          * simplify_eq. destruct (wf_conns _ Hwf _ _ Hc _ Hp) as [_ Hget].
            apply elem_of_keys. exists p. by apply get_Some_elem, Hget.
          * done.
      - destruct (handshake_cases ws c m now uuid st)
          as [[Hb Hsub]|(token & decoded & s & _ & _ & Hs & _ & ->)].
        + eapply server_wf_shrink; eauto using same_sub_bindings.
        + by eapply join_wf. }
    by destruct m.
  - destruct (on_close_cases ws st) as [[Hb Hsub]|(c & p & s & Hc & Hp & Hs & ->)].
    + by eapply server_wf_shrink.
    + by eapply leave_server_wf.
  - apply (server_wf_shrink st); [done | | done].
    by apply same_sub_bindings, same_bindings_alter.
  - apply (server_wf_shrink st); [done | | done].
    by apply same_sub_bindings, same_bindings_alter.
Qed.

Lemma init_wf : server_wf init.
Proof. split; simpl; intros *; by rewrite lookup_empty. Qed.

Lemma reachable_via_wf allowed st :
  reachable_via jwt_verify ttl allowed st → server_wf st.
Proof. induction 1; [apply init_wf | by apply step_wf]. Qed.

Lemma reachable_via_weaken allowed st :
  reachable_via jwt_verify ttl allowed st → reachable jwt_verify ttl st.
Proof. induction 1; [constructor | by constructor]. Qed.

Lemma member_wf_shrink st st' :
  member_wf st → same_bindings (conns st) (conns st') → sessions st' ⊆ sessions st →
  member_wf st'.
Proof.
  intros Hm Hb Hsub sid s k p Hs Hin.
  destruct (Hm sid s k p) as (c & Hc & Hp & Hsid); [by eapply lookup_weaken|done|].
  specialize (Hb (peer_ws p)). rewrite Hc in Hb.
  destruct (conns st' !! peer_ws p) as [c'|] eqn:Hc'; [|done].
  simpl in Hb. unfold binding in Hb. injection Hb as Hb1 Hb2.
  exists c'. split; [done|]. split; congruence.
Qed.

(** A socket leaves the table: the members keep their connections as
    long as none of them is on that socket. *)
Lemma member_wf_delete st ss' ws :
  (∀ sid s k p, ss' !! sid = Some s → (k, p) ∈ peers s →
     peer_ws p ≠ ws ∧
     ∃ c, conns st !! peer_ws p = Some c ∧ conn_peer c = Some p ∧ conn_sessionId c = sid) →
  member_wf {| sessions := ss'; conns := delete ws (conns st) |}.
Proof.
  intros H sid s k p Hs Hin. destruct (H sid s k p Hs Hin) as (Hne & c & Hc & Hp & Hsid).
  exists c. simpl. by rewrite lookup_delete_ne.
Qed.

Lemma on_close_members ws st :
  server_wf st → member_wf st → member_wf (on_close ws st).1.
Proof.
  intros Hwf Hm. unfold on_close. destruct (conns st !! ws) as [c|] eqn:Hc; [|done].
  destruct (conn_peer c) as [p|] eqn:Hp.
  2: { apply member_wf_delete. intros sid s k q Hs Hin.
       destruct (Hm sid s k q Hs Hin) as (cq & Hcq & Hq & Hsid).
       split; [|eauto]. intros Heq. rewrite Heq in Hcq. simplify_eq; congruence. }
  destruct (wf_conns _ Hwf _ _ Hc _ Hp) as [Hne _]. rewrite decide_False by done.
  destruct (sessions st !! conn_sessionId c) as [s0|] eqn:Hs0.
  2: { apply member_wf_delete. intros sid s k q Hs Hin.
       destruct (Hm sid s k q Hs Hin) as (cq & Hcq & Hq & Hsid).
       split; [|eauto]. intros Heq. rewrite Heq in Hcq. simplify_eq; congruence. }
  case_decide.
  - apply member_wf_delete. intros sid s k q [Hn Hs]%lookup_delete_Some Hin.
    destruct (Hm sid s k q Hs Hin) as (cq & Hcq & Hq & Hsid).
    split; [|eauto]. intros Heq. rewrite Heq in Hcq. simplify_eq; congruence.
  - apply member_wf_delete. intros sid s k q [[<- <-]|[Hn Hs]]%lookup_insert_Some Hin.
    + rewrite leave_peers in Hin. apply elem_of_delete in Hin as [Hk Hin].
      destruct (Hm _ s0 k q Hs0 Hin) as (cq & Hcq & Hq & Hsid).
      split; [|eauto]. intros Heq. rewrite Heq in Hcq. simplify_eq.
      destruct (wf_sessions _ Hwf _ _ Hs0) as (_ & _ & Hent & _).
      by destruct (Hent _ _ Hin).
    + destruct (Hm sid s k q Hs Hin) as (cq & Hcq & Hq & Hsid).
      split; [|eauto]. intros Heq. rewrite Heq in Hcq. simplify_eq; congruence.
Qed.

Lemma step_members st ev :
  server_wf st → member_wf st → admissible st ev →
  member_wf (step jwt_verify ttl st ev).1.
Proof.
  intros Hwf Hm Hadm.
  destruct ev as [uuid em ex now|ws|ws m now uuid|ws|ws|ws n]; simpl.
  - unfold create_session. case_match; [|done].
    intros sid s k p. simpl. intros [[<- <-]|[Hn Hs]]%lookup_insert_Some Hin.
    + by apply elem_of_nil in Hin.
    + by eapply Hm.
  - intros sid s k p. simpl. intros Hs Hin.
    destruct (Hm sid s k p Hs Hin) as (c & Hc & Hp & Hsid).
    exists c. rewrite lookup_insert_ne; [done|]. simpl in Hadm. congruence.
  - unfold on_message. destruct (conns st !! ws) as [c|] eqn:Hc; [|done].
    assert (member_wf
      (match conn_peer c with
       | Some peer => route ws c peer m now st
       | None => handshake jwt_verify ws c m now uuid st
       end).1) as Hmain; [|by destruct m].
    destruct (conn_peer c) as [p|] eqn:Hp.
    + destruct (route_cases ws c p m now st) as [[Hb Hsub]|(action & s & -> & Hs & _ & ->)].
      { by eapply member_wf_shrink. }
      intros sid s' k q. cbn [sessions conns].
      intros [[<- <-]|[Hn Hs']]%lookup_insert_Some Hin.
      * rewrite on_lock_peers in Hin. by eapply Hm.
      * by eapply Hm.
    + destruct (handshake_cases ws c m now uuid st)
        as [[Hb Hsub]|(token & decoded & s & _ & _ & Hs & _ & ->)].
      { by eapply member_wf_shrink. }
      assert (∀ sid s k q, sessions st !! sid = Some s → (k, q) ∈ peers s →
                ∃ cq, <[ws := bind_peer
                               {| peer_id := uuid; peer_role := tp_role decoded; peer_ws := ws |}
                               (tp_sessionId decoded) c]> (conns st) !! peer_ws q = Some cq
                      ∧ conn_peer cq = Some q ∧ conn_sessionId cq = sid) as Hold.
      { intros sid s' k q Hs' Hin.
        destruct (Hm sid s' k q Hs' Hin) as (cq & Hcq & Hq & Hsid).
        exists cq. rewrite lookup_insert_ne; [done|]. intros Heq.
        rewrite <- Heq in Hcq. congruence. }
      intros sid s' k q. cbn [sessions conns].
      intros [[<- <-]|[Hn Hs']]%lookup_insert_Some Hin.
      * rewrite joined_peers in Hin. apply elem_of_set in Hin as [[-> ->]|Hin]; [|by eapply Hold].
        simpl. rewrite lookup_insert_eq. by eexists.
      * by eapply Hold.
  - by apply on_close_members.
  - apply (member_wf_shrink st); [done | | done]. by apply same_bindings_alter.
  - apply (member_wf_shrink st); [done | | done]. by apply same_bindings_alter.
Qed.

Lemma reachable_via_members allowed st :
  reachable_via jwt_verify ttl allowed st → member_wf st.
Proof.
  induction 1 as [|st ev Hr IH Hadm _].
  - intros sid s k p. simpl. by rewrite lookup_empty.
  - apply step_members; eauto using reachable_via_wf.
Qed.

Lemma reachable_via_run allowed evs st :
  reachable_via jwt_verify ttl allowed st →
  admissible_run jwt_verify ttl allowed evs st →
  reachable_via jwt_verify ttl allowed (foldl (λ s ev, (step jwt_verify ttl s ev).1) st evs).
Proof.
  revert st. induction evs as [|ev evs IH]; intros st Hr Hadm; simpl; [done|].
  destruct Hadm as (Ha & Hal & Hrest). apply IH; [by constructor | done].
Qed.

Lemma run_state evs st out :
  (foldl (λ acc ev, let r := step jwt_verify ttl acc.1 ev in (r.1, acc.2 ++ r.2))
     (st, out) evs).1
  = foldl (λ s ev, (step jwt_verify ttl s ev).1) st evs.
Proof. revert st out. induction evs as [|ev evs IH]; intros st out; simpl; [done|apply IH]. Qed.

(** The state after an admissible list of events is reachable. *)
Lemma run_reachable allowed evs :
  admissible_run jwt_verify ttl allowed evs init →
  reachable_via jwt_verify ttl allowed (run jwt_verify ttl evs init).1.
Proof.
  intros Hadm. unfold run. rewrite run_state.
  apply reachable_via_run; [constructor | done].
Qed.

(** C1. In every reachable state and every session of the registry, at
    most one member holds the lock, and the lock owner, when there is
    one, is a key of the session's peers map. *)
Theorem lock_owner_is_member st :
  reachable jwt_verify ttl st →
  ∀ sid s, sessions st !! sid = Some s →
    (∀ p q, p ∈ JsMap.values (peers s) → q ∈ JsMap.values (peers s) →
            holds_lock s p → holds_lock s q → p = q) ∧
    (∀ o, lockOwnerPeerId s = Some o → o ∈ JsMap.keys (peers s)).
Proof.
  intros Hr sid s Hs.
  destruct (wf_sessions _ (reachable_via_wf _ _ Hr) _ _ Hs) as (_ & Hnd & Hent & Hown).
  split; [|done].
  intros p q [kp Hp]%elem_of_values [kq Hq]%elem_of_values Hlp Hlq.
  destruct (Hent _ _ Hp) as [<- _]. destruct (Hent _ _ Hq) as [<- _].
  unfold holds_lock in *. assert (peer_id p = peer_id q) as Heq by congruence.
  rewrite Heq in Hp. apply (elem_get _ _ _ Hnd) in Hp, Hq. congruence.
Qed.

(** The owner of an updated session is a member that is not a source. *)
Lemma owner_not_source_update st sid s' cs :
  owner_not_source st →
  (∀ o, lockOwnerPeerId s' = Some o →
        ∃ p, JsMap.get (peers s') o = Some p ∧ peer_role p ≠ agent) →
  owner_not_source {| sessions := <[sid := s']> (sessions st); conns := cs |}.
Proof.
  intros Hst Hnew sid' s'' o. simpl.
  intros [[<- <-]|[Hn Hl]]%lookup_insert_Some; [auto | by eapply Hst].
Qed.

Lemma step_owner_not_source st ev :
  server_wf st → owner_not_source st → admissible st ev → ¬ source_lock_request st ev →
  owner_not_source (step jwt_verify ttl st ev).1.
Proof.
  intros Hwf Hst Hadm Hallowed.
  destruct ev as [uuid em ex now|ws|ws m now uuid|ws|ws|ws n]; simpl; try done.
  - unfold create_session. case_match; [|done].
    apply owner_not_source_update; done.
  - unfold on_message. destruct (conns st !! ws) as [c|] eqn:Hc; [|done].
    destruct Hadm as (Hne & Hfresh & Hfresh').
    assert (owner_not_source
      (match conn_peer c with
       | Some peer => route ws c peer m now st
       | None => handshake jwt_verify ws c m now uuid st
       end).1) as Hmain; [|by destruct m].
    destruct (conn_peer c) as [p|] eqn:Hp.
    + destruct (route_cases ws c p m now st) as [[Hb Hsub]|(action & s & -> & Hs & _ & ->)].
      { by eapply owner_not_source_shrink. }
      apply owner_not_source_update; [done|]. intros o Ho.
      rewrite on_lock_peers.
      destruct (on_lock_owner (conns st) ws p action s) as [Heq|[[Heq ->]|Heq]];
        rewrite Heq in Ho; [by eapply Hst| |done].
      simplify_eq. exists p.
      pose proof (proj2 (wf_conns _ Hwf _ _ Hc _ Hp) _ Hs) as Hmember.
      split; [done|]. intros Hrole.
      destruct (lockOwnerPeerId s) as [o|] eqn:Hown; [|apply Hallowed; simpl; eauto 10].
      destruct (Hst _ _ _ Hs Hown) as (q & Hq & Hrq).
      destruct (decide (o = peer_id p)) as [->|Hother]; [congruence|].
      destruct (wf_sessions _ Hwf _ _ Hs) as (_ & _ & Hent & _).
      apply get_Some_elem in Hq. destruct (Hent _ _ Hq) as [_ Hnonempty].
      revert Heq. unfold on_lock, lock_request. rewrite Hown. simpl.
      rewrite (bool_decide_eq_true_2 (o ≠ "")) by done.
      rewrite (bool_decide_eq_false_2 (Some o = Some (peer_id p))) by congruence.
      simpl. rewrite Hown. congruence.
    + destruct (handshake_cases ws c m now uuid st)
        as [[Hb Hsub]|(token & decoded & s & _ & _ & Hs & _ & ->)].
      { by eapply owner_not_source_shrink. }
      apply owner_not_source_update; [done|]. intros o Ho.
      rewrite joined_peers. simpl.
      destruct (joined_owner s {| peer_id := uuid; peer_role := tp_role decoded; peer_ws := ws |})
        as [Heq|[Heq Hrole]]; rewrite Heq in Ho.
      * destruct (wf_sessions _ Hwf _ _ Hs) as (_ & _ & _ & Hown).
        rewrite get_set_ne; [by eapply Hst|].
        intros ->. by apply (Hfresh' _ _ Hs), Hown.
      * simplify_eq/=. rewrite get_set_eq. eexists. split; [done|]. simpl. by rewrite Hrole.
  - destruct (on_close_cases ws st) as [[Hb Hsub]|(c & p & s & Hc & Hp & Hs & ->)].
    { by eapply owner_not_source_shrink. }
    apply owner_not_source_update; [done|]. intros o.
    rewrite leave_peers, leave_owner.
    destruct (wf_sessions _ Hwf _ _ Hs) as (_ & Hnd & Hent & _).
    case_decide as Ho.
    + destruct (nextController _) as [q|] eqn:Hq; [|done].
      apply nextController_Some in Hq as [[k Hin]%elem_of_values Hrole].
      intros ?. simplify_eq/=. exists q. split; [|by rewrite Hrole].
      pose proof Hin as [_ Hin']%elem_of_delete.
      destruct (Hent k q Hin') as [-> _].
      by apply elem_get; [apply NoDup_keys_delete|].
    + intros Ho'. rewrite get_delete_ne; [by eapply Hst | congruence].
Qed.

(** Only a lock request on an unlocked session gives the lock to a
    source. As long as no source-role peer sends a lock request while
    its session is unlocked, the lock owner of every session is a member
    whose role is not source: neither a hello, nor a disconnect, nor a
    lock request that is denied gives the lock to a source. *)
Theorem source_owner_only_by_request st :
  reachable_via jwt_verify ttl (λ st ev, ¬ source_lock_request st ev) st →
  owner_not_source st.
Proof.
  induction 1 as [|st ev Hr IH Hadm Hallowed].
  - intros sid s o. simpl. by rewrite lookup_empty.
  - apply step_owner_not_source; eauto using reachable_via_wf.
Qed.

End Preservation.

Section Messages.

Variable jwt_verify : Z → string → option TokenPayload.
Variable ttl : Z.

Lemma sendJson_open cs ws c e :
  cs !! ws = Some c → readyState c = OPEN → sendJson cs ws e = [Send ws e].
Proof.
  intros Hc Ho. unfold sendJson, readyState_of. rewrite Hc. by rewrite decide_True.
Qed.

Lemma ws_close_open cs ws c code reason :
  cs !! ws = Some c → readyState c = OPEN →
  ws_close cs ws code reason = (<[ws := with_readyState CLOSING c]> cs, [Close ws code reason]).
Proof. intros Hc Ho. unfold ws_close. rewrite Hc. by rewrite decide_True. Qed.

Lemma refuse_open st ws c msg code reason :
  conns st !! ws = Some c → readyState c = OPEN →
  refuse st ws (Some msg) code reason =
    ({| sessions := sessions st; conns := <[ws := with_readyState CLOSING c]> (conns st) |},
     [Send ws (e_error msg); Close ws code reason]).
Proof.
  intros Hc Ho. unfold refuse. simpl.
  rewrite (sendJson_open _ _ c) by done. by rewrite (ws_close_open _ _ c).
Qed.

Lemma server_eta st : {| sessions := sessions st; conns := conns st |} = st.
Proof. by destruct st. Qed.

Lemma session_eta s : with_lockOwner (lockOwnerPeerId s) s = s.
Proof. by destruct s. Qed.

Lemma on_message_route ws c P m now uuid st :
  conns st !! ws = Some c → conn_peer c = Some P → m ≠ invalid_json →
  on_message jwt_verify ws m now uuid st = route ws c P m now st.
Proof. intros Hc HP Hm. unfold on_message. rewrite Hc, HP. by destruct m. Qed.

(** A session's owner in a well-formed state is a non-empty string. *)
Lemma owner_truthy st sid s o :
  server_wf st → sessions st !! sid = Some s → lockOwnerPeerId s = Some o →
  truthy (lockOwnerPeerId s) = true.
Proof.
  intros Hwf Hs Ho. destruct (wf_sessions _ Hwf _ _ Hs) as (_ & _ & Hent & Hown).
  pose proof (Hown _ Ho) as [p Hin]%elem_of_keys.
  destruct (Hent _ _ Hin) as [_ Hne]. rewrite Ho. simpl. by apply bool_decide_eq_true.
Qed.

(** Who receives a relayed envelope. *)
Lemma elem_of_relayByRole cs s role e eff :
  eff ∈ relayByRole cs s role e ↔
  ∃ q, q ∈ JsMap.values (peers s) ∧ peer_role q = role ∧
       readyState_of cs (peer_ws q) = OPEN ∧ eff = Send (peer_ws q) e.
Proof.
  unfold relayByRole. rewrite list_elem_of_bind. split.
  - intros (q & Hin & Hq). exists q. unfold sendJson in Hin.
    repeat case_decide; try by apply elem_of_nil in Hin.
    apply list_elem_of_singleton in Hin. done.
  - intros (q & Hq & Hrole & Hopen & ->). exists q. split; [|done].
    unfold sendJson. rewrite !decide_True by done. by apply list_elem_of_singleton.
Qed.

Lemma elem_of_broadcastSessionState cs s eff :
  eff ∈ broadcastSessionState cs s ↔
  ∃ q, q ∈ JsMap.values (peers s) ∧ readyState_of cs (peer_ws q) = OPEN ∧
       eff = Send (peer_ws q)
               (e_session_state (session_id s) (lockOwnerPeerId s) (members s)).
Proof.
  unfold broadcastSessionState. rewrite list_elem_of_bind. split.
  - intros (q & Hin & Hq). exists q. unfold sendJson in Hin.
    case_decide; [|by apply elem_of_nil in Hin].
    apply list_elem_of_singleton in Hin. done.
  - intros (q & Hq & Hopen & ->). exists q. split; [|done].
    unfold sendJson. rewrite decide_True by done. by apply list_elem_of_singleton.
Qed.

Lemma ws_close_lookup_ne cs ws ws' code reason :
  ws ≠ ws' → (ws_close cs ws' code reason).1 !! ws = cs !! ws.
Proof.
  intros Hne. unfold ws_close. destruct (cs !! ws'); [|done].
  case_decide; [|done]. simpl. by rewrite lookup_insert_ne.
Qed.

(** The expiry loop leaves every socket that belongs to no member of
    the session as it is. *)
Lemma expire_lookup ps : ∀ acc ws,
  ws ∉ peer_ws <$> ps → (foldl expire_peer acc ps).1 !! ws = acc.1 !! ws.
Proof.
  induction ps as [|p ps IH]; intros acc ws Hws; [done|].
  rewrite fmap_cons in Hws. apply not_elem_of_cons in Hws as [Hne Hws].
  cbn [foldl]. rewrite IH by done. by apply ws_close_lookup_ne.
Qed.

(** C5, as amended. On a connection that has no peer yet and whose
    socket is open: a first message that is not valid JSON is answered
    with an error and the connection stays as it is; valid JSON that is
    no hello closes it with 4000 "Auth required"; a hello whose token
    fails verification closes it with 4003 "Invalid token"; a hello for
    a session that is not in the registry, or that has expired and is
    removed on this lookup, closes it with 4004 "Session not found". In
    every case no session gains a member and the connection still has
    no peer. *)
Theorem handshake_refusals st ws c m now uuid :
  conns st !! ws = Some c → conn_peer c = None → readyState c = OPEN →
  let r := on_message jwt_verify ws m now uuid st in
  let closing := {| sessions := sessions st;
                    conns := <[ws := with_readyState CLOSING c]> (conns st) |} in
  (m = invalid_json → r = (st, [Send ws (e_error "Invalid JSON message")])) ∧
  (m ≠ invalid_json → helloSchema m = None →
     r = (closing, [Send ws (e_error "First message must be hello");
                    Close ws 4000 "Auth required"])) ∧
  (∀ token, helloSchema m = Some token → jwt_verify now token = None →
     r = (closing, [Send ws (e_error "Invalid token"); Close ws 4003 "Invalid token"])) ∧
  (∀ token decoded, helloSchema m = Some token → jwt_verify now token = Some decoded →
     sessions st !! tp_sessionId decoded = None →
     r = (closing, [Send ws (e_error "Session not found");
                    Close ws 4004 "Session not found"])) ∧
  (reachable jwt_verify ttl st →
   ∀ token decoded s, helloSchema m = Some token → jwt_verify now token = Some decoded →
     sessions st !! tp_sessionId decoded = Some s → now > expiresAt s →
     sessions r.1 = delete (tp_sessionId decoded) (sessions st) ∧
     conns r.1 !! ws = Some (with_readyState CLOSING c) ∧
     ∃ notices, r.2 = notices ++ [Send ws (e_error "Session not found");
                                  Close ws 4004 "Session not found"]).
Proof.
  intros Hc Hp Ho. simpl. unfold on_message. rewrite Hc, Hp. split_and!.
  - intros ->. by rewrite (sendJson_open _ _ c).
  - intros Hm Hh. destruct m; try done; unfold handshake; rewrite Hh;
      by rewrite (refuse_open _ _ c).
  - intros token Hh Hv. destruct m; try done. unfold handshake. rewrite Hh, Hv.
    by rewrite (refuse_open _ _ c).
  - intros token decoded Hh Hv Hs. destruct m; try done.
    unfold handshake, findSession. rewrite Hh, Hv, Hs.
    by rewrite (refuse_open _ _ c).
  - intros Hr token decoded s Hh Hv Hs Hexp. destruct m; try done.
    unfold handshake, findSession. rewrite Hh, Hv, Hs. rewrite decide_True by done.
    set (expired := foldl expire_peer (conns st, []) (JsMap.values (peers s))).
    assert (expired.1 !! ws = Some c) as Hc'.
    { unfold expired. rewrite expire_lookup; [done|].
      intros (q & -> & [k Hq]%elem_of_values)%list_elem_of_fmap.
      destruct (reachable_via_members _ _ _ _ Hr _ _ _ _ Hs Hq) as (cq & Hcq & Hpq & _).
      congruence. }
    rewrite (refuse_open _ _ c) by done. simpl. split_and!; [done| |by eexists].
    by rewrite lookup_insert_eq.
Qed.

(** C6. A lock request from peer [P] of a live session: when the
    session is unlocked or locked by [P], the owner becomes [P] and [P]
    is sent lock_result with granted true and owner [P]; when another
    peer [o] owns the lock, [P] is sent lock_result with granted false
    and owner [o], and the state does not change. Either way the
    session state is broadcast afterwards. *)
Theorem lock_request_outcome st ws c P s now uuid :
  reachable jwt_verify ttl st →
  conns st !! ws = Some c → conn_peer c = Some P → readyState c = OPEN →
  sessions st !! conn_sessionId c = Some s → ¬ now > expiresAt s →
  let r := on_message jwt_verify ws (m_lock request) now uuid st in
  let granted := with_lockOwner (Some (peer_id P)) s in
  (lockOwnerPeerId s = None ∨ lockOwnerPeerId s = Some (peer_id P) →
     r = ({| sessions := <[conn_sessionId c := granted]> (sessions st); conns := conns st |},
          Send ws (e_lock_result true (peer_id P))
            :: broadcastSessionState (conns st) granted)) ∧
  (∀ o, lockOwnerPeerId s = Some o → o ≠ peer_id P →
     r = (st, Send ws (e_lock_result false o) :: broadcastSessionState (conns st) s)).
Proof.
  intros Hr Hc HP Ho Hs Hlive. simpl.
  rewrite (on_message_route ws c P) by done.
  unfold route. rewrite (findSession_live _ _ _ s) by done.
  unfold on_lock, lock_request. simpl. split.
  - intros [Hnone|Hmine].
    + rewrite Hnone. simpl. by rewrite (sendJson_open _ _ c).
    + rewrite Hmine. rewrite bool_decide_eq_true_2, orb_true_r by done.
      simpl. by rewrite (sendJson_open _ _ c).
  - intros o Hown Hne.
    rewrite (owner_truthy st _ s o) by eauto using reachable_via_wf.
    rewrite Hown. rewrite bool_decide_eq_false_2 by congruence. simpl.
    rewrite (sendJson_open _ _ c) by done. simpl.
    by rewrite insert_id, server_eta.
Qed.

(** C8. A control envelope from a controller or viewer of a live
    session never changes the state. When the sender does not own the
    lock it is sent the error "Not lock owner" and nothing else is
    sent; when it owns the lock the envelope goes to the source-role
    members of the session, and to each of them whose socket is open. *)
Theorem control_requires_lock st ws c P s now uuid event :
  conns st !! ws = Some c → conn_peer c = Some P → peer_role P ≠ agent →
  readyState c = OPEN →
  sessions st !! conn_sessionId c = Some s → ¬ now > expiresAt s →
  let r := on_message jwt_verify ws (m_control event) now uuid st in
  r.1 = st ∧
  (lockOwnerPeerId s ≠ Some (peer_id P) → r.2 = [Send ws (e_error "Not lock owner")]) ∧
  (lockOwnerPeerId s = Some (peer_id P) →
     r.2 = relayByRole (conns st) s agent (e_control event) ∧
     (∀ q, q ∈ JsMap.values (peers s) → peer_role q = agent →
           readyState_of (conns st) (peer_ws q) = OPEN →
           Send (peer_ws q) (e_control event) ∈ r.2) ∧
     (∀ eff, eff ∈ r.2 →
           ∃ q, q ∈ JsMap.values (peers s) ∧ peer_role q = agent ∧
                eff = Send (peer_ws q) (e_control event))).
Proof.
  intros Hc HP Hrole Ho Hs Hlive. simpl.
  rewrite (on_message_route ws c P) by done.
  unfold route. rewrite (findSession_live _ _ _ s) by done.
  rewrite decide_True by done. split_and!.
  - by case_decide.
  - intros Hown. rewrite decide_True by done. simpl. by rewrite (sendJson_open _ _ c).
  - intros Hown. rewrite decide_False by (intros H; by apply H). simpl. split_and!.
    + done.
    + intros q Hq Hqr Hqo. apply elem_of_relayByRole. eauto 6.
    + intros eff (q & Hq & Hqr & _ & ->)%elem_of_relayByRole. eauto.
Qed.

(** C10. Every lock envelope from a peer of a live session, whatever
    the action and whoever owns the lock, ends with the session state,
    as the message left it, sent to every member whose socket is open;
    a request that is denied and a release by a peer that is not the
    owner leave the session as it was and are broadcast all the same. *)
Theorem lock_message_broadcasts st ws c P s now uuid action :
  conns st !! ws = Some c → conn_peer c = Some P →
  sessions st !! conn_sessionId c = Some s → ¬ now > expiresAt s →
  let r := on_message jwt_verify ws (m_lock action) now uuid st in
  let s' := (on_lock (conns st) ws P action s).1 in
  sessions r.1 !! conn_sessionId c = Some s' ∧ conns r.1 = conns st ∧
  (∃ reply, r.2 = reply ++ broadcastSessionState (conns st) s') ∧
  (∀ q, q ∈ JsMap.values (peers s) → readyState_of (conns st) (peer_ws q) = OPEN →
        Send (peer_ws q)
          (e_session_state (session_id s') (lockOwnerPeerId s') (members s')) ∈ r.2) ∧
  (action = release → lockOwnerPeerId s ≠ Some (peer_id P) → s' = s) ∧
  (action = request → truthy (lockOwnerPeerId s) = true →
     lockOwnerPeerId s ≠ Some (peer_id P) → s' = s).
Proof.
  intros Hc HP Hs Hlive. cbv zeta.
  rewrite (on_message_route ws c P) by done.
  unfold route. rewrite (findSession_live _ _ _ s) by done.
  cbn -[on_lock].
  assert (peers (on_lock (conns st) ws P action s).1 = peers s) as Hpeers
    by apply on_lock_peers.
  set (s' := (on_lock (conns st) ws P action s).1) in *. split_and!.
  - by rewrite lookup_insert_eq.
  - done.
  - by eexists.
  - intros q Hq Hqo. apply elem_of_app. right.
    apply (proj2 (elem_of_broadcastSessionState (conns st) s' _)).
    exists q. by rewrite Hpeers.
  - intros -> Hown. subst s'. unfold on_lock, lock_release. simpl.
    by rewrite bool_decide_eq_false_2.
  - intros -> Ht Hown. subst s'. unfold on_lock, lock_request. simpl.
    by rewrite Ht, bool_decide_eq_false_2.
Qed.

Lemma leave_eq p s :
  leave p s =
    with_lockOwner
      (if decide (lockOwnerPeerId s = Some (peer_id p))
       then peer_id <$> List.find (λ q, bool_decide (peer_role q = controller))
                          (JsMap.values (JsMap.delete (peers s) (peer_id p)))
       else lockOwnerPeerId s)
      (with_peers (JsMap.delete (peers s) (peer_id p)) s).
Proof. unfold leave. simpl. case_decide; [done|]. by destruct s. Qed.

(** C7. When the connection of peer [p] of session [s] closes, [p] is
    removed from the peers map. If no peer remains, the session is
    deleted and nothing is sent. Otherwise, if [p] held the lock, the
    owner becomes the first remaining controller in the order of the
    map, or nobody when there is none, and the session state that is
    then broadcast already carries that owner. *)
Theorem disconnect_cleanup st ws c p s :
  reachable jwt_verify ttl st →
  conns st !! ws = Some c → conn_peer c = Some p →
  sessions st !! conn_sessionId c = Some s →
  let r := on_close ws st in
  let remaining := JsMap.delete (peers s) (peer_id p) in
  let owner' :=
    if decide (lockOwnerPeerId s = Some (peer_id p))
    then peer_id <$> List.find (λ q, bool_decide (peer_role q = controller))
                       (JsMap.values remaining)
    else lockOwnerPeerId s in
  let s' := with_lockOwner owner' (with_peers remaining s) in
  conns r.1 = delete ws (conns st) ∧
  (peer_id p ∉ JsMap.keys remaining) ∧
  (remaining = [] →
     sessions r.1 = delete (conn_sessionId c) (sessions st) ∧ r.2 = []) ∧
  (remaining ≠ [] →
     sessions r.1 = <[conn_sessionId c := s']> (sessions st) ∧
     r.2 = broadcastSessionState (conns r.1) s').
Proof.
  intros Hr Hc Hp Hs. cbv zeta.
  destruct (wf_conns _ (reachable_via_wf _ _ _ _ Hr) _ _ Hc _ Hp) as [Hsid _].
  unfold on_close. rewrite Hc, Hp, Hs. rewrite decide_False by done.
  rewrite <- leave_eq.
  assert (JsMap.size (peers (leave p s)) = 0%nat ↔ JsMap.delete (peers s) (peer_id p) = [])
    as Hsize.
  { rewrite leave_peers. unfold JsMap.size. apply length_zero_iff_nil. }
  split_and!.
  - by repeat case_match.
  - rewrite elem_of_keys_delete. by intros [? _].
  - intros Hempty. by rewrite decide_True by (by apply Hsize).
  - intros Hleft. by rewrite decide_False by (by rewrite Hsize).
Qed.

(** The relay never looks at the amount of data buffered on a socket. *)
Lemma relayByRole_ignores_buffered cs ws n s role e :
  relayByRole (alter (with_bufferedAmount n) ws cs) s role e = relayByRole cs s role e.
Proof.
  unfold relayByRole. apply list_bind_ext; [|done]. intros q.
  case_decide; [|done]. unfold sendJson, readyState_of.
  destruct (decide (ws = peer_ws q)) as [->|Hne].
  - rewrite lookup_alter_eq. by destruct (cs !! peer_ws q).
  - by rewrite lookup_alter_ne.
Qed.

(** In every reachable state each member of a session is the peer of
    a connection that has not closed and is bound to that session. *)
Theorem members_are_connected st :
  reachable jwt_verify ttl st → member_wf st.
Proof. apply reachable_via_members. Qed.

End Messages.

Import Scenario.

(** *** The scenarios *)

Lemma three_peers_reachable : reachable verify Scenario.ttl (after three_peers).
Proof.
  apply run_reachable.
  apply (bool_decide_unpack _). vm_compute. exact I.
Qed.

Lemma three_peers_sessions :
  sessions (after three_peers) !! "S1" = Some (S1 (Some "B1") [A; B1; B2]).
Proof. vm_compute. reflexivity. Qed.

Lemma lock_owner_is_member_witness :
  (∀ p q, p ∈ JsMap.values (peers (S1 (Some "B1") [A; B1; B2])) →
          q ∈ JsMap.values (peers (S1 (Some "B1") [A; B1; B2])) →
          holds_lock (S1 (Some "B1") [A; B1; B2]) p →
          holds_lock (S1 (Some "B1") [A; B1; B2]) q → p = q) ∧
  (∀ o, lockOwnerPeerId (S1 (Some "B1") [A; B1; B2]) = Some o →
        o ∈ JsMap.keys (peers (S1 (Some "B1") [A; B1; B2]))).
Proof.
  exact (lock_owner_is_member verify Scenario.ttl (after three_peers)
           three_peers_reachable "S1" (S1 (Some "B1") [A; B1; B2]) three_peers_sessions).
Defined.

(** C2, at the failing input: the source [A] joins session [S1], sends
    a lock request while the session is unlocked, and holds the lock.
    A controller [B1] that joins afterwards does not get the lock: its
    control message is refused with "Not lock owner", and the control
    message of the owner [A] is refused as unknown, so nobody controls
    the device. *)
Lemma source_takes_lock_by_request :
  reachable verify Scenario.ttl (after source_takes_lock) ∧
  sessions (after source_takes_lock) !! "S1" = Some (S1 (Some "A") [A]) ∧
  A ∈ JsMap.values (peers (S1 (Some "A") [A])) ∧
  peer_role A = agent ∧
  holds_lock (S1 (Some "A") [A]) A ∧
  reachable verify Scenario.ttl (after locked_out) ∧
  sessions (after locked_out) !! "S1" = Some (S1 (Some "A") [A; B1]) ∧
  on_message verify 1%nat (m_control "tap") 4 "u2" (after locked_out)
    = (after locked_out, [Send 1%nat (e_error "Not lock owner")]) ∧
  on_message verify 0%nat (m_control "tap") 4 "u2" (after locked_out)
    = (after locked_out, [Send 0%nat (e_error "Unknown message")]).
Proof.
  split_and!.
  - apply run_reachable. apply (bool_decide_unpack _). vm_compute. exact I.
  - vm_compute. reflexivity.
  - apply list_elem_of_singleton. reflexivity.
  - reflexivity.
  - reflexivity.
  - apply run_reachable. apply (bool_decide_unpack _). vm_compute. exact I.
  - vm_compute. reflexivity.
  - vm_compute. reflexivity.
  - vm_compute. reflexivity.
Qed.

Lemma source_request_denied_reachable :
  reachable_via verify Scenario.ttl (λ st ev, ¬ source_lock_request st ev)
    (after source_request_denied).
Proof. apply run_reachable. apply (bool_decide_unpack _). vm_compute. exact I. Qed.

Lemma source_request_denied_sessions :
  sessions (after source_request_denied) !! "S1" = Some (S1 (Some "B1") [A; B1; B2]).
Proof. vm_compute. reflexivity. Qed.

Lemma source_owner_only_by_request_witness :
  ∃ p, JsMap.get (peers (S1 (Some "B1") [A; B1; B2])) "B1" = Some p ∧ peer_role p ≠ agent.
Proof.
  exact (source_owner_only_by_request verify Scenario.ttl (after source_request_denied)
           source_request_denied_reachable
           "S1" (S1 (Some "B1") [A; B1; B2]) "B1" source_request_denied_sessions eq_refl).
Defined.

Lemma opened_conn : conns (after opened) !! 0%nat = Some new_conn.
Proof. vm_compute. reflexivity. Qed.

(** C5, the counterexample: socket 0 has just connected and its first
    message is not valid JSON, hence no hello envelope; the server
    answers with an error, sends no close frame and leaves the socket
    open. *)
Lemma invalid_json_keeps_connection_open :
  conns (after opened) !! 0%nat = Some new_conn ∧
  conn_peer new_conn = None ∧ readyState new_conn = OPEN ∧
  helloSchema invalid_json = None ∧
  on_message verify 0%nat invalid_json 1 "u1" (after opened)
    = (after opened, [Send 0%nat (e_error "Invalid JSON message")]).
Proof. split_and!; vm_compute; reflexivity. Qed.

Lemma handshake_refusals_witness :
  (on_message verify 0%nat (m_signal offer "sdp") 1 "u1" (after opened)).2
    = [Send 0%nat (e_error "First message must be hello"); Close 0%nat 4000 "Auth required"] ∧
  (on_message verify 0%nat (m_hello "forged") 1 "u1" (after opened)).2
    = [Send 0%nat (e_error "Invalid token"); Close 0%nat 4003 "Invalid token"] ∧
  on_message verify 0%nat (m_hello "stale-token") 1 "u1" (after opened)
    = ({| sessions := sessions (after opened);
          conns := <[0%nat := with_readyState CLOSING new_conn]> (conns (after opened)) |},
       [Send 0%nat (e_error "Session not found"); Close 0%nat 4004 "Session not found"]).
Proof.
  pose proof (λ m, handshake_refusals verify Scenario.ttl (after opened) 0%nat new_conn m
                     1 "u1" opened_conn eq_refl eq_refl) as Hrefuse.
  split_and!.
  - destruct (Hrefuse (m_signal offer "sdp")) as (_ & Hauth & _).
    by rewrite Hauth.
  - destruct (Hrefuse (m_hello "forged")) as (_ & _ & Hinvalid & _).
    by rewrite (Hinvalid "forged").
  - destruct (Hrefuse (m_hello "stale-token")) as (_ & _ & _ & Hmissing & _).
    exact (Hmissing "stale-token" {| tp_sessionId := "S0"; tp_role := viewer |}
             eq_refl eq_refl eq_refl).
Defined.

Lemma three_peers_conn_B2 : conns (after three_peers) !! 2%nat = Some (bound B2).
Proof. vm_compute. reflexivity. Qed.

Lemma three_peers_conn_B1 : conns (after three_peers) !! 1%nat = Some (bound B1).
Proof. vm_compute. reflexivity. Qed.

Lemma S1_live owner ps now : now ≤ 3600000 → ¬ now > expiresAt (S1 owner ps).
Proof. simpl. lia. Qed.

Lemma lock_request_outcome_witness :
  on_message verify 2%nat (m_lock request) 5 "u1" (after three_peers)
    = (after three_peers,
       Send 2%nat (e_lock_result false "B1")
         :: broadcastSessionState (conns (after three_peers)) (S1 (Some "B1") [A; B1; B2])) ∧
  on_message verify 1%nat (m_lock request) 5 "u1" (after three_peers)
    = ({| sessions := <["S1" := S1 (Some "B1") [A; B1; B2]]> (sessions (after three_peers));
          conns := conns (after three_peers) |},
       Send 1%nat (e_lock_result true "B1")
         :: broadcastSessionState (conns (after three_peers)) (S1 (Some "B1") [A; B1; B2])).
Proof.
  split.
  - pose proof (lock_request_outcome verify Scenario.ttl (after three_peers) 2%nat (bound B2)
                  B2 (S1 (Some "B1") [A; B1; B2]) 5 "u1"
                  three_peers_reachable three_peers_conn_B2 eq_refl eq_refl
                  three_peers_sessions (S1_live _ _ 5 ltac:(lia))) as [_ Hdenied].
    apply (Hdenied "B1"); [reflexivity | discriminate].
  - pose proof (lock_request_outcome verify Scenario.ttl (after three_peers) 1%nat (bound B1)
                  B1 (S1 (Some "B1") [A; B1; B2]) 5 "u1"
                  three_peers_reachable three_peers_conn_B1 eq_refl eq_refl
                  three_peers_sessions (S1_live _ _ 5 ltac:(lia))) as [Hgranted _].
    apply Hgranted. by right.
Defined.

Lemma disconnect_cleanup_witness :
  sessions (on_close 1%nat (after three_peers)).1
    = <["S1" := S1 (Some "B2") [A; B2]]> (sessions (after three_peers)) ∧
  (on_close 1%nat (after three_peers)).2
    = broadcastSessionState (conns (on_close 1%nat (after three_peers)).1)
        (S1 (Some "B2") [A; B2]).
Proof.
  pose proof (disconnect_cleanup verify Scenario.ttl (after three_peers) 1%nat (bound B1) B1
                (S1 (Some "B1") [A; B1; B2])
                three_peers_reachable three_peers_conn_B1 eq_refl three_peers_sessions)
    as (_ & _ & _ & Hleft).
  apply Hleft. discriminate.
Defined.

Lemma control_requires_lock_witness :
  (on_message verify 2%nat (m_control "tap") 5 "u1" (after three_peers)).1
    = after three_peers ∧
  (on_message verify 2%nat (m_control "tap") 5 "u1" (after three_peers)).2
    = [Send 2%nat (e_error "Not lock owner")].
Proof.
  pose proof (control_requires_lock verify (after three_peers) 2%nat (bound B2) B2
                (S1 (Some "B1") [A; B1; B2]) 5 "u1" "tap"
                three_peers_conn_B2 eq_refl ltac:(discriminate) eq_refl
                three_peers_sessions (S1_live _ _ 5 ltac:(lia))) as (Hst & Hdeny & _).
  split; [exact Hst | apply Hdeny; discriminate].
Defined.

Lemma lock_message_broadcasts_witness :
  Send 0%nat
    (e_session_state "S1" (Some "B1") [("A", agent); ("B1", controller); ("B2", controller)])
  ∈ (on_message verify 2%nat (m_lock release) 5 "u1" (after three_peers)).2.
Proof.
  pose proof (lock_message_broadcasts verify (after three_peers) 2%nat (bound B2) B2
                (S1 (Some "B1") [A; B1; B2]) 5 "u1" release
                three_peers_conn_B2 eq_refl
                three_peers_sessions (S1_live _ _ 5 ltac:(lia))) as (_ & _ & _ & Hall & _).
  apply (Hall A).
  - apply list_elem_of_here.
  - vm_compute. reflexivity.
Defined.

(** C3, at the failing input: 3000000 bytes are buffered on the socket
    of controller [B2] when the source sends a frame, and the frame is
    sent to [B2] all the same. *)
Lemma frame_sent_to_congested_peer :
  bufferedAmount <$> conns (after congested) !! 2%nat = Some 3000000 ∧
  (on_message verify 0%nat (m_frame png) 10 "u1" (after congested)).2
    = [Send 1%nat (e_frame png); Send 2%nat (e_frame png)].
Proof. split; vm_compute; reflexivity. Qed.

Lemma members_are_connected_witness :
  ∃ c, conns (after three_peers) !! peer_ws B2 = Some c ∧
       conn_peer c = Some B2 ∧ conn_sessionId c = "S1".
Proof.
  apply (members_are_connected verify Scenario.ttl (after three_peers) three_peers_reachable
           "S1" (S1 (Some "B1") [A; B1; B2]) "B2" B2 three_peers_sessions).
  vm_compute. set_solver.
Defined.

(** The first controller takes the lock on joining, the request of the
    second is denied with owner [B1], and once [B1] has left the second
    owns the lock and its next request is granted. *)
Lemma second_controller_takes_over :
  lock_results (run verify Scenario.ttl handover init).2
    = [(2%nat, false, "B1"); (2%nat, true, "B2")] ∧
  sessions (after handover) !! "S1" = Some (S1 (Some "B2") [B2]).
Proof. split; vm_compute; reflexivity. Qed.

End SignalingProofs.

(** ** The agent *)
Module AgentProofs.
Import Agent.

Lemma calls_app out1 out2 : calls (out1 ++ out2) = calls out1 ++ calls out2.
Proof. apply omap_app. Qed.

Lemma errors_app out1 out2 : errors (out1 ++ out2) = errors out1 ++ errors out2.
Proof. apply omap_app. Qed.

(** *** The executor *)

Lemma worker_loop_distinct ex : distinct_fns ex → distinct_fns (worker_loop ex).1.
Proof.
  intros Hd. unfold worker_loop.
  destruct (commandQueue ex) as [|next rest] eqn:Hq.
  - destruct (pendingMove ex); intros p; simpl; done.
  - intros p. simpl. intros Hp.
    assert (pendingMove ex = Some p) as Hpm.
    { destruct (pendingMove ex) as [p0|]; [|done]. by case_match; simplify_eq. }
    specialize (Hd p Hpm). rewrite Hq, fmap_cons in Hd.
    by apply not_elem_of_cons in Hd as [_ ?].
Qed.

Lemma processQueue_distinct ex : distinct_fns ex → distinct_fns (processQueue ex).1.
Proof.
  intros Hd. unfold processQueue. case_match; [done|].
  by apply worker_loop_distinct.
Qed.

Lemma exec_step_distinct ex ev :
  distinct_fns ex → fresh_fn ex ev → distinct_fns (exec_step ex ev).1.
Proof.
  intros Hd Hf. destruct ev as [fn [|]|ok]; simpl in *.
  - apply processQueue_distinct. intros p. simpl. intros ?. simplify_eq. by destruct Hf.
  - apply processQueue_distinct. intros p. simpl. intros Hp.
    rewrite fmap_app. apply not_elem_of_app. split; [by apply Hd|].
    simpl. rewrite list_elem_of_singleton. intros Heq.
    destruct Hf as [_ Hf]. apply Hf. by rewrite Hp, <- Heq.
  - unfold settle. destruct (inFlight ex); [|done]. simpl.
    by apply worker_loop_distinct.
Qed.

Lemma exec_reachable_distinct ex : exec_reachable ex → distinct_fns ex.
Proof.
  induction 1 as [|ex ev Hr IH Hf]; [done|]. by apply exec_step_distinct.
Qed.

(** The awaited call settles while something waits: the first waiting
    command is called next and the others keep waiting. *)
Lemma settle_next ex ok cur w ws :
  distinct_fns ex → inFlight ex = Some cur → waiting ex = w :: ws →
  (settle ok ex).2 = (if ok then [] else [LogError cur]) ++ [Call w] ∧
  inFlight (settle ok ex).1 = Some w ∧
  waiting (settle ok ex).1 = ws ∧
  distinct_fns (settle ok ex).1.
Proof.
  intros Hd Hcur Hw. unfold settle. rewrite Hcur.
  split_and!; [| | |by apply worker_loop_distinct]; revert Hw;
    unfold waiting, worker_loop; simpl;
    destruct (commandQueue ex) as [|next rest] eqn:Hq; simpl.
  1,3,5: destruct (pendingMove ex) as [p|]; simpl; intros ?; by simplify_eq.
  1,2: intros ?; by simplify_eq.
  intros ?. simplify_eq. destruct (pendingMove ex) as [p|] eqn:Hp; [|done].
  specialize (Hd p Hp). rewrite Hq, fmap_cons in Hd.
  apply not_elem_of_cons in Hd as [Hne _].
  unfold same_fn. rewrite (bool_decide_eq_false_2 (fn_id p = fn_id w)) by done.
  by rewrite andb_false_r.
Qed.

Lemma settle_last ex ok cur :
  inFlight ex = Some cur → waiting ex = [] →
  settle ok ex = (idle, if ok then [] else [LogError cur]).
Proof.
  intros Hcur Hw. unfold settle. rewrite Hcur.
  unfold waiting in Hw. apply app_eq_nil in Hw as [Hq Hp].
  unfold worker_loop. simpl. rewrite Hq.
  destruct (pendingMove ex); [done|]. simpl. by rewrite app_nil_r.
Qed.

Lemma drain_all ws : ∀ ex ok outcomes cur,
  distinct_fns ex → inFlight ex = Some cur → waiting ex = ws →
  length outcomes = length ws →
  (drain (ok :: outcomes) ex).1 = idle ∧
  calls (drain (ok :: outcomes) ex).2 = ws ∧
  errors (drain (ok :: outcomes) ex).2 = failed (ok :: outcomes) (cur :: ws).
Proof.
  induction ws as [|w ws IH]; intros ex ok outcomes cur Hd Hcur Hw Hlen.
  - destruct outcomes; [|done]. simpl. rewrite (settle_last ex ok cur) by done.
    simpl. rewrite app_nil_r. by destruct ok.
  - destruct outcomes as [|ok' outcomes]; [done|]. simpl in Hlen.
    destruct (settle_next ex ok cur w ws Hd Hcur Hw) as (Hout & Hin & Hw' & Hd').
    destruct (IH _ ok' outcomes w Hd' Hin Hw' ltac:(lia)) as (Hidle & Hcalls & Herrs).
    change (drain (ok :: ok' :: outcomes) ex)
      with (let r := settle ok ex in
            let r' := drain (ok' :: outcomes) r.1 in (r'.1, r.2 ++ r'.2)).
    cbv zeta. cbn [fst snd]. rewrite calls_app, errors_app, Hcalls, Herrs, Hout.
    split_and!; [done| |]; by destruct ok.
Qed.

(** C9. The executor is awaiting a call and that call fails: the
    failure is logged, and as the following calls settle, whatever
    their outcomes, every command that was waiting is called, the
    ordered entries first and in order, then the pending move; after
    the last of them the executor is idle with an empty queue. *)
Theorem failed_call_does_not_stall ex cur outcomes :
  exec_reachable ex → inFlight ex = Some cur →
  length outcomes = length (waiting ex) →
  let r := drain (false :: outcomes) ex in
  LogError cur ∈ r.2 ∧
  calls r.2 = commandQueue ex ++ option_list (pendingMove ex) ∧
  errors r.2 = cur :: failed outcomes (waiting ex) ∧
  r.1 = idle.
Proof.
  intros Hr Hcur Hlen. cbv zeta.
  destruct (drain_all (waiting ex) ex false outcomes cur) as (Hidle & Hcalls & Herrs);
    [by apply exec_reachable_distinct|done..|].
  split_and!; [|done..].
  simpl. unfold settle. rewrite Hcur. simpl. apply list_elem_of_here.
Qed.

Lemma exec_run_reachable evs ex :
  exec_reachable ex →
  foldr (λ ev k ex, fresh_fn ex ev ∧ k (exec_step ex ev).1) (λ _, True) evs ex →
  exec_reachable (foldl (λ ex ev, (exec_step ex ev).1) ex evs).
Proof.
  revert ex. induction evs as [|ev evs IH]; intros ex Hr Hf; simpl in *; [done|].
  destruct Hf as [Hf Hrest]. apply IH; [by constructor | done].
Qed.

(** *** The pointer throttle *)

Section PointerProofs.

Variable Coord : Type.
Variable scale : Coord → Z → Z.
Variable min_interval min_delta : Z.

Local Abbreviation on_pointer := (on_pointer Coord scale min_interval min_delta).
Local Abbreviation pointer_run := (pointer_run Coord scale min_interval min_delta).
Local Abbreviation spaced_pair := (spaced_pair min_interval min_delta).
Local Abbreviation spaced := (spaced min_interval min_delta).

(** What one pointer event does: nothing at all, or it forwards one
    call and the state remembers it. *)
Lemma on_pointer_cases p now st :
  on_pointer p now st = (st, []) ∨
  ∃ f, (on_pointer p now st).2 = [f] ∧ fw_action f = action p ∧
    match action p with
    | down => touchActive (on_pointer p now st).1 = true
              ∧ remembers (on_pointer p now st).1 f
    | move => touchActive st = true ∧ touchActive (on_pointer p now st).1 = true
              ∧ remembers (on_pointer p now st).1 f
              ∧ fw_at f - lastMoveTs st >= min_interval
              ∧ Z.abs (fw_x f - lastSentX st) + Z.abs (fw_y f - lastSentY st) >= min_delta
    | up => touchActive st = true ∧ touchActive (on_pointer p now st).1 = false
    end.
Proof.
  unfold Agent.on_pointer. destruct (resolvePoint _ _ _ _ _) as [[x y]|]; [|by left].
  destruct (action p) eqn:Ha; simpl.
  - right. eexists. split; [done|]. done.
  - destruct (touchActive st) eqn:Ht; simpl; [|by left].
    unfold on_move.
    destruct (bool_decide (now - lastMoveTs st >= min_interval)) eqn:Hi; simpl; [|by left].
    destruct (bool_decide (_ >= min_delta)) eqn:Hd; simpl; [|by left].
    apply bool_decide_eq_true in Hi, Hd.
    right. eexists. split; [done|]. unfold remembers. simpl. done.
  - destruct (touchActive st) eqn:Ht; simpl; [|by left].
    right. eexists. split; [done|]. done.
Qed.

Lemma spaced_snoc fw f :
  spaced fw →
  (fw_action f = move → ∀ a, last fw = Some a → spaced_pair a f) →
  spaced (fw ++ [f]).
Proof.
  intros Hfw Hlast i a b Ha Hb Hmove.
  apply lookup_app_Some in Hb as [Hb|[Hlen Hb]].
  - apply lookup_app_Some in Ha as [Ha|[Hlen _]]; [by eapply Hfw|].
    apply lookup_lt_Some in Hb. lia.
  - apply list_lookup_singleton_Some in Hb as [Hi <-].
    apply lookup_app_Some in Ha as [Ha|[Hlen' _]]; [|lia].
    apply Hlast; [done|]. rewrite last_lookup.
    replace (Init.Nat.pred (length fw)) with i by lia. done.
Qed.

Lemma on_pointer_invariant p now st fw :
  spaced fw → tracks st fw →
  spaced (fw ++ (on_pointer p now st).2) ∧
  tracks (on_pointer p now st).1 (fw ++ (on_pointer p now st).2).
Proof.
  intros Hsp Htr.
  destruct (on_pointer_cases p now st) as [->|(f & Hf & Hact & Hcase)].
  { simpl. by rewrite app_nil_r. }
  rewrite Hf. destruct (action p) eqn:Ha.
  - destruct Hcase as [Hactive Hrem]. split.
    + apply spaced_snoc; [done|]. congruence.
    + intros _ a. rewrite last_snoc. intros ?. simplify_eq. split; [congruence|done].
  - destruct Hcase as (Ht & Hactive & Hrem & Hi & Hd). split.
    + apply spaced_snoc; [done|]. intros _ a Ha'.
      destruct (Htr Ht a Ha') as (Hup & Hts & Hx & Hy).
      unfold Agent.spaced_pair. by rewrite <- Hts, <- Hx, <- Hy.
    + intros _ a. rewrite last_snoc. intros ?. simplify_eq. split; [congruence|done].
  - destruct Hcase as [Ht Hinactive]. split.
    + apply spaced_snoc; [done|]. congruence.
    + intros Hactive. congruence.
Qed.

Lemma pointer_run_invariant evs : ∀ st fw,
  spaced fw → tracks st fw →
  spaced (foldl (λ acc ev, let r := on_pointer ev.1 ev.2 acc.1 in (r.1, acc.2 ++ r.2))
            (st, fw) evs).2.
Proof.
  induction evs as [|ev evs IH]; intros st fw Hsp Htr; simpl; [done|].
  destruct (on_pointer_invariant ev.1 ev.2 st fw Hsp Htr) as [Hsp' Htr'].
  by apply IH.
Qed.

(** A run that starts without an active touch forwards no move first. *)
Lemma pointer_run_head evs : ∀ st fw,
  (fw = [] → touchActive st = false) →
  (∀ b, head fw = Some b → fw_action b ≠ move) →
  ∀ b, head (foldl (λ acc ev, let r := on_pointer ev.1 ev.2 acc.1 in (r.1, acc.2 ++ r.2))
               (st, fw) evs).2 = Some b → fw_action b ≠ move.
Proof.
  induction evs as [|ev evs IH]; intros st fw Hnil Hhead; simpl; [done|].
  apply IH.
  - intros Happ. apply app_eq_nil in Happ as [-> Hout].
    destruct (on_pointer_cases ev.1 ev.2 st) as [->|(f & Hf & _)]; [auto|].
    by rewrite Hf in Hout.
  - intros b. destruct fw as [|b0 fw]; [|simpl; apply Hhead].
    simpl. destruct (on_pointer_cases ev.1 ev.2 st) as [->|(f & Hf & Hact & Hcase)]; [done|].
    rewrite Hf. simpl. intros ?. simplify_eq. rewrite Hact.
    destruct (action ev.1); [done| |done].
    destruct Hcase as [Ht _]. rewrite Hnil in Ht; done.
Qed.

(** C4, as amended. In what a sequence of pointer events forwards,
    every move comes right after a down or another forwarded move, and
    is at least the minimum interval later and at least the minimum
    displacement away (the sum of the absolute differences of x and y);
    a run that starts without an active touch forwards no move first.
    Once the display size is known a down is always forwarded, and an
    up is forwarded exactly when a touch is active; while the display
    size is unknown nothing is forwarded. *)
Theorem pointer_throttle :
  (∀ evs st l1 a b l2,
     (pointer_run evs st).2 = l1 ++ a :: b :: l2 → fw_action b = move →
     fw_action a ≠ up ∧
     fw_at b - fw_at a >= min_interval ∧
     Z.abs (fw_x b - fw_x a) + Z.abs (fw_y b - fw_y a) >= min_delta) ∧
  (∀ evs st b l,
     touchActive st = false → (pointer_run evs st).2 = b :: l → fw_action b ≠ move) ∧
  (∀ p now st d,
     currentDisplay st = Some d →
     let x := scale (xNorm p) (width d) in
     let y := scale (yNorm p) (height d) in
     (action p = down →
        (on_pointer p now st).2 = [{| fw_action := down; fw_x := x; fw_y := y; fw_at := now |}]) ∧
     (action p = up →
        (on_pointer p now st).2 =
          if touchActive st
          then [{| fw_action := up; fw_x := x; fw_y := y; fw_at := now |}]
          else [])) ∧
  (∀ p now st, currentDisplay st = None → on_pointer p now st = (st, [])).
Proof.
  split_and!.
  - intros evs st l1 a b l2 Hfw Hmove.
    assert (spaced (pointer_run evs st).2) as Hsp.
    { apply pointer_run_invariant; [by intros i ? ? ?|]. by intros _ a'. }
    apply (Hsp (length l1) a b); [| |done]; rewrite Hfw.
    + by rewrite lookup_app_r, Nat.sub_diag by lia.
    + rewrite lookup_app_r by lia. by replace (S (length l1) - length l1)%nat with 1%nat by lia.
  - intros evs st b l Hst Hfw.
    apply (pointer_run_head evs st [] (λ _, Hst)); [by intros ?|].
    unfold Agent.pointer_run in Hfw. cbv zeta. by rewrite Hfw.
  - intros p now st d Hd. cbv zeta. unfold Agent.on_pointer, resolvePoint. rewrite Hd.
    split; intros ->; simpl; [done|]. by destruct (touchActive st).
  - intros p now st Hd. unfold Agent.on_pointer, resolvePoint. by rewrite Hd.
Qed.

End PointerProofs.

(** *** Frames *)

(** The agent sends no frame over a socket that has more than
    MAX_WS_BUFFERED_BYTES buffered. *)
Lemma on_screenshot_backpressure max len w h ws_open buffered st :
  buffered > max → (on_screenshot max len w h ws_open buffered st).2 = false.
Proof.
  intros Hb. unfold on_screenshot.
  rewrite (bool_decide_eq_true_2 (buffered > max)) by done.
  by repeat case_match.
Qed.

(** *** The scenarios *)

Import AgentScenario.

Lemma busy_reachable : exec_reachable (exec_after busy_events).
Proof.
  apply exec_run_reachable; [constructor|]. simpl.
  repeat split; try discriminate; rewrite ?elem_of_cons; try apply not_elem_of_nil;
    intros [?|?%elem_of_nil]; done.
Qed.

Lemma failed_call_does_not_stall_witness :
  calls (drain [false; true; false] (exec_after busy_events)).2
    = [touch 2 60 100 0; touch 4 70 100 180] ∧
  errors (drain [false; true; false] (exec_after busy_events)).2
    = [touch 1 50 100 180; touch 4 70 100 180] ∧
  (drain [false; true; false] (exec_after busy_events)).1 = idle.
Proof.
  pose proof (failed_call_does_not_stall (exec_after busy_events) (touch 1 50 100 180)
                [true; false] busy_reachable eq_refl eq_refl) as (_ & Hcalls & Herrors & Hidle).
  split_and!; [exact Hcalls | exact Herrors | exact Hidle].
Defined.

(** C4, the counterexample. An up that follows no down is not
    forwarded; a down that arrives before the first frame is not
    forwarded; and after two gestures the two forwarded moves, at
    (60,100) and (61,100), are one pixel apart although the minimum
    displacement is 8. *)
Lemma pointer_events_dropped_or_close :
  forwarded [(pointer up 100 100, 5)] ready = [] ∧
  forwarded [(pointer down 100 100, 5)] pointer_init = [] ∧
  forwarded two_gestures ready =
    [{| fw_action := down; fw_x := 50; fw_y := 100; fw_at := 0 |};
     {| fw_action := move; fw_x := 60; fw_y := 100; fw_at := 20 |};
     {| fw_action := up; fw_x := 60; fw_y := 100; fw_at := 21 |};
     {| fw_action := down; fw_x := 53; fw_y := 100; fw_at := 22 |};
     {| fw_action := move; fw_x := 61; fw_y := 100; fw_at := 40 |}] ∧
  Z.abs (61 - 60) + Z.abs (100 - 100) < 8.
Proof. split_and!; vm_compute; reflexivity. Qed.

Lemma on_screenshot_backpressure_witness :
  (on_screenshot 1500000 4096 1080 1920 true 1500001 ready).2 = false.
Proof. apply on_screenshot_backpressure. lia. Defined.

End AgentProofs.

(** ** The signaling server: the rest of the router *)
Module SignalingCoverage.
Import Signaling JsMapFacts SignalingProofs.

Section Router.

Variable jwt_verify : Z → string → option TokenPayload.
Variable ttl : Z.


(** After the handshake a message that no branch of the router takes
    is answered with the error "Unknown message": nothing else is
    sent, the state does not change and the connection stays open. *)
Theorem unrecognised_message_rejected st ws c P s now uuid m :
  conns st !! ws = Some c → conn_peer c = Some P → readyState c = OPEN →
  sessions st !! conn_sessionId c = Some s → ¬ now > expiresAt s →
  unrecognised (peer_role P) m →
  on_message jwt_verify ws m now uuid st = (st, [Send ws (e_error "Unknown message")]).
Proof.
  intros Hc HP Ho Hs Hlive Hm.
  rewrite (on_message_route _ ws c P) by (done || by destruct m).
  unfold route. rewrite (findSession_live _ _ _ s) by done.
  unfold unknown_message. rewrite (sendJson_open _ _ c) by done.
  destruct m as [|tok|k pl|f|ev|a|]; simpl in *; try done.
  - destruct Hm as [Hrole|Hschema].
    + case_match; [|done]. by rewrite decide_False.
    + simpl in Hschema. by rewrite Hschema.
  - by rewrite decide_False by (intros H; by apply H).
Qed.

Lemma on_close_conns ws st :
  conns (on_close ws st).1 = delete ws (conns st).
Proof.
  unfold on_close. destruct (conns st !! ws) as [c|] eqn:Hc.
  - by repeat case_match.
  - simpl. by rewrite delete_id.
Qed.

(** Once a connection has a peer, it keeps that peer, role and session
    through every event but its own close. *)
Theorem peer_binding_is_stable st ev ws c p :
  admissible st ev → conns st !! ws = Some c → conn_peer c = Some p →
  ev ≠ ws_closed ws →
  ∃ c', conns (step jwt_verify ttl st ev).1 !! ws = Some c' ∧
        conn_peer c' = Some p ∧ conn_sessionId c' = conn_sessionId c.
Proof.
  intros Hadm Hc Hp Hev.
  assert (∀ cs', same_bindings (conns st) cs' →
            ∃ c', cs' !! ws = Some c' ∧ conn_peer c' = Some p
                  ∧ conn_sessionId c' = conn_sessionId c) as Hsame.
  { intros cs' Hb. specialize (Hb ws). rewrite Hc in Hb.
    destruct (cs' !! ws) as [c'|]; [|done]. simpl in Hb. unfold binding in Hb.
    injection Hb as Hb1 Hb2. exists c'. split; [done|]. split; congruence. }
  destruct ev as [uuid em ex now|ws'|ws' m now uuid|ws'|ws'|ws' n]; simpl.
  - apply Hsame. unfold create_session. by case_match.
  - exists c. rewrite lookup_insert_ne; [done|]. simpl in Hadm. congruence.
  - unfold on_message. destruct (conns st !! ws') as [c0|] eqn:Hc0; [|by apply Hsame].
    assert (∃ c', conns
      (match conn_peer c0 with
       | Some peer => route ws' c0 peer m now st
       | None => handshake jwt_verify ws' c0 m now uuid st
       end).1 !! ws = Some c' ∧ conn_peer c' = Some p
       ∧ conn_sessionId c' = conn_sessionId c) as Hmain.
    { destruct (conn_peer c0) as [p0|] eqn:Hp0.
      - destruct (route_cases ws' c0 p0 m now st) as [[Hb _]|(a & s & _ & _ & _ & ->)];
          [by apply Hsame | by apply Hsame].
      - destruct (handshake_cases jwt_verify ws' c0 m now uuid st)
          as [[Hb _]|(tok & d & s & _ & _ & _ & _ & ->)]; [by apply Hsame|].
        exists c. simpl. rewrite lookup_insert_ne; [done|]. congruence. }
    destruct m; try exact Hmain. by apply Hsame.
  - rewrite on_close_conns. exists c. rewrite lookup_delete_ne; [done|]. congruence.
  - apply Hsame. by apply same_bindings_alter.
  - apply Hsame. by apply same_bindings_alter.
Qed.

(** *** Who a message reaches *)

Lemma elem_of_sendJson cs ws e eff : eff ∈ sendJson cs ws e → eff = Send ws e.
Proof.
  unfold sendJson. case_decide; [by intros ?%list_elem_of_singleton|].
  by intros ?%elem_of_nil.
Qed.

(** In a reachable state the socket of a connection belongs to no
    member but the connection's own peer. *)
Lemma socket_owner st ws c P sid s q :
  member_wf st → conns st !! ws = Some c → conn_peer c = Some P →
  sessions st !! sid = Some s → q ∈ JsMap.values (peers s) → peer_ws q = ws →
  q = P ∧ sid = conn_sessionId c.
Proof.
  intros Hm Hc HP Hs [k Hq]%elem_of_values Hws.
  destruct (Hm _ _ _ _ Hs Hq) as (cq & Hcq & Hpq & Hsid).
  rewrite Hws in Hcq. simplify_eq. split; congruence.
Qed.

(** A signal from the source goes to the controllers and viewers of
    its session whose sockets are open, a signal from a controller or
    viewer to the sources; it is never sent back to its sender and it
    changes nothing. *)
Theorem signal_fanout st ws c P s now uuid t payload :
  reachable jwt_verify ttl st →
  conns st !! ws = Some c → conn_peer c = Some P →
  sessions st !! conn_sessionId c = Some s → ¬ now > expiresAt s →
  let r := on_message jwt_verify ws (m_signal t payload) now uuid st in
  r.1 = st ∧
  (∀ eff, eff ∈ r.2 ↔
     ∃ q, q ∈ JsMap.values (peers s) ∧ (peer_role q = agent ↔ peer_role P ≠ agent) ∧
          readyState_of (conns st) (peer_ws q) = OPEN ∧
          eff = Send (peer_ws q) (e_signal t payload)) ∧
  (∀ eff, eff ∈ r.2 → target eff ≠ ws).
Proof.
  intros Hr Hc HP Hs Hlive. cbv zeta.
  rewrite (on_message_route _ ws c P) by done.
  unfold route. rewrite (findSession_live _ _ _ s) by done. cbn [fst snd app].
  assert (∀ eff,
    eff ∈ (if decide (peer_role P = agent)
           then relayByRole (conns st) s controller (e_signal t payload)
                ++ relayByRole (conns st) s viewer (e_signal t payload)
           else relayByRole (conns st) s agent (e_signal t payload)) ↔
    ∃ q, q ∈ JsMap.values (peers s) ∧ (peer_role q = agent ↔ peer_role P ≠ agent) ∧
         readyState_of (conns st) (peer_ws q) = OPEN ∧
         eff = Send (peer_ws q) (e_signal t payload)) as Hto.
  { intros eff. case_decide as Hrole.
    - rewrite elem_of_app, !elem_of_relayByRole. split.
      + intros [(q & ? & Hq & ? & ?)|(q & ? & Hq & ? & ?)]; exists q;
          (split_and!; [done| |done..]); rewrite Hq; split; done.
      + intros (q & ? & Hq & ? & ?).
        destruct (peer_role q) eqn:Hq'; [by destruct Hq as [Hq _]; destruct Hq| |];
          [left|right]; exists q; done.
    - rewrite elem_of_relayByRole. split.
      + intros (q & ? & Hq & ? & ?). exists q. by rewrite Hq.
      + intros (q & ? & Hq & ? & ?). exists q. split_and!; try done. by apply Hq. }
  split_and!; [done|exact Hto|].
  intros eff (q & Hq & Hrole & _ & ->)%Hto. simpl. intros Hws.
  destruct (socket_owner st ws c P _ s q (reachable_via_members _ _ _ _ Hr) Hc HP Hs Hq Hws)
    as [-> _].
  tauto.
Qed.

(** A valid frame from the source goes to every controller and viewer
    of its session whose socket is open and to nobody else: never to a
    source, never back to the sender; it changes nothing. *)
Theorem frame_fanout st ws c P s now uuid f :
  reachable jwt_verify ttl st →
  conns st !! ws = Some c → conn_peer c = Some P → peer_role P = agent →
  sessions st !! conn_sessionId c = Some s → ¬ now > expiresAt s →
  frameSchema (m_frame f) = Some f →
  let r := on_message jwt_verify ws (m_frame f) now uuid st in
  r.1 = st ∧
  (∀ eff, eff ∈ r.2 ↔
     ∃ q, q ∈ JsMap.values (peers s) ∧ peer_role q ≠ agent ∧
          readyState_of (conns st) (peer_ws q) = OPEN ∧
          eff = Send (peer_ws q) (e_frame f)) ∧
  (∀ eff, eff ∈ r.2 → target eff ≠ ws).
Proof.
  intros Hr Hc HP Hrole Hs Hlive Hf. cbv zeta.
  rewrite (on_message_route _ ws c P) by done.
  unfold route. rewrite (findSession_live _ _ _ s) by done.
  rewrite Hf. rewrite decide_True by done. cbn [fst snd app].
  assert (∀ eff,
    eff ∈ relayByRole (conns st) s controller (e_frame f)
          ++ relayByRole (conns st) s viewer (e_frame f) ↔
    ∃ q, q ∈ JsMap.values (peers s) ∧ peer_role q ≠ agent ∧
         readyState_of (conns st) (peer_ws q) = OPEN ∧
         eff = Send (peer_ws q) (e_frame f)) as Hto.
  { intros eff. rewrite elem_of_app, !elem_of_relayByRole. split.
    - intros [(q & ? & Hq & ? & ?)|(q & ? & Hq & ? & ?)]; exists q; by rewrite Hq.
    - intros (q & ? & Hq & ? & ?).
      destruct (peer_role q) eqn:Hq'; [done| |]; [left|right]; exists q; done. }
  split_and!; [done|exact Hto|].
  intros eff (q & Hq & Hq' & _ & ->)%Hto. simpl. intros Hws.
  destruct (socket_owner st ws c P _ s q (reachable_via_members _ _ _ _ Hr) Hc HP Hs Hq Hws)
    as [-> _].
  done.
Qed.

(** *** Sessions do not touch each other *)

Lemma ws_close_target cs ws code reason eff :
  eff ∈ (ws_close cs ws code reason).2 → target eff = ws.
Proof.
  unfold ws_close. destruct (cs !! ws); [|by intros ?%elem_of_nil].
  case_decide; [|by intros ?%elem_of_nil].
  by intros ->%list_elem_of_singleton.
Qed.

Lemma expire_targets ps : ∀ acc eff,
  eff ∈ (foldl expire_peer acc ps).2 →
  eff ∈ acc.2 ∨ ∃ q, q ∈ ps ∧ target eff = peer_ws q.
Proof.
  induction ps as [|p ps IH]; intros acc eff; cbn [foldl]; [by left|].
  intros [Hacc|(q & Hq & Ht)]%IH.
  - cbn [expire_peer snd] in Hacc.
    apply elem_of_app in Hacc as [?|[Hs%elem_of_sendJson|Hc%ws_close_target]%elem_of_app];
      [by left|right; exists p..].
    + split; [apply list_elem_of_here | by rewrite Hs].
    + split; [apply list_elem_of_here | done].
  - right. exists q. split; [by apply list_elem_of_further | done].
Qed.

Lemma on_lock_snd cs ws P a s :
  (on_lock cs ws P a s).2 =
    match a with
    | request => (lock_request cs ws P s).2
    | release => []
    end ++ broadcastSessionState cs (on_lock cs ws P a s).1.
Proof. unfold on_lock. by destruct a. Qed.

(** What a routed message sends goes to the sender's socket or to a
    member of the sender's session. *)
Lemma route_targets ws c P m now st eff :
  eff ∈ (route ws c P m now st).2 →
  target eff = ws ∨
  ∃ s q, sessions st !! conn_sessionId c = Some s ∧ q ∈ JsMap.values (peers s)
         ∧ target eff = peer_ws q.
Proof.
  unfold route, findSession.
  destruct (sessions st !! conn_sessionId c) as [s|] eqn:Hs.
  2: { simpl. by intros ?%ws_close_target; left. }
  assert (∀ role e, eff ∈ relayByRole (conns st) s role e →
            target eff = ws ∨ ∃ s0 q, Some s = Some s0 ∧ q ∈ JsMap.values (peers s0)
                                      ∧ target eff = peer_ws q) as Hrelay.
  { intros role e (q & Hq & _ & _ & ->)%elem_of_relayByRole. right. by exists s, q. }
  assert (∀ e, eff ∈ sendJson (conns st) ws e →
            target eff = ws ∨ ∃ s0 q, Some s = Some s0 ∧ q ∈ JsMap.values (peers s0)
                                      ∧ target eff = peer_ws q) as Hsend.
  { intros e ->%elem_of_sendJson. by left. }
  case_decide.
  - cbn [fst snd]. intros [Hexp|Hclose%ws_close_target]%elem_of_app; [|by left].
    apply expire_targets in Hexp as [?%elem_of_nil|(q & Hq & Ht)]; [done|].
    right. by exists s, q.
  - cbn [app]. destruct m as [|tok|k pl|f|ev|a|].
    6: { cbn [snd]. rewrite on_lock_snd. intros [Hin|Hin]%elem_of_app.
         - unfold lock_request in Hin. destruct a; [|by apply elem_of_nil in Hin].
           case_match; eauto.
         - apply (proj1 (elem_of_broadcastSessionState _ _ _)) in Hin as (q & Hq & _ & ->).
           rewrite on_lock_peers in Hq. right. by exists s, q. }
    all: cbn [snd]; unfold unknown_message; repeat case_match; cbn [snd app];
      rewrite ?elem_of_app; intros Hin; try (by destruct Hin; eauto); eauto.
Qed.

(** A message from a peer of one session changes no other session and
    sends nothing to a member of another session. *)
Theorem other_sessions_untouched st ws c P m now uuid :
  reachable jwt_verify ttl st →
  conns st !! ws = Some c → conn_peer c = Some P →
  let r := on_message jwt_verify ws m now uuid st in
  (∀ sid', sid' ≠ conn_sessionId c → sessions r.1 !! sid' = sessions st !! sid') ∧
  (∀ eff sid' s' q,
     eff ∈ r.2 → sid' ≠ conn_sessionId c →
     sessions st !! sid' = Some s' → q ∈ JsMap.values (peers s') →
     target eff ≠ peer_ws q).
Proof.
  intros Hr Hc HP. cbv zeta.
  pose proof (reachable_via_members _ _ _ _ Hr) as Hm.
  assert (∀ eff sid' s' q,
     (target eff = ws ∨
      ∃ s q0, sessions st !! conn_sessionId c = Some s ∧ q0 ∈ JsMap.values (peers s)
              ∧ target eff = peer_ws q0) →
     sid' ≠ conn_sessionId c →
     sessions st !! sid' = Some s' → q ∈ JsMap.values (peers s') →
     target eff ≠ peer_ws q) as Hfar.
  { intros eff sid' s' q Ht Hne Hs' Hq Heq.
    destruct Ht as [Ht|(s & q0 & Hs & [k0 Hq0]%elem_of_values & Ht)].
    - destruct (socket_owner st ws c P _ s' q Hm Hc HP Hs' Hq) as [_ ?]; congruence.
    - destruct (Hm _ _ _ _ Hs Hq0) as (c0 & Hc0 & Hp0 & Hsid0).
      destruct (socket_owner st _ c0 q0 _ s' q Hm Hc0 Hp0 Hs' Hq) as [_ ?]; congruence. }
  assert (m = invalid_json ∨ m ≠ invalid_json) as [->|Hm'] by (destruct m; auto).
  { unfold on_message. rewrite Hc. simpl. split; [done|].
    intros eff sid' s' q ->%elem_of_sendJson. apply Hfar. by left. }
  rewrite (on_message_route _ ws c P) by done. split.
  - intros sid' Hne.
    destruct (route_cases ws c P m now st) as [[_ Hsub]|(a & s & _ & _ & _ & ->)].
    + unfold route, findSession in *.
      destruct (sessions st !! conn_sessionId c) as [s|] eqn:Hs; [|done].
      case_decide.
      * cbn [fst sessions refuse]. by rewrite lookup_delete_ne.
      * destruct m; cbn [fst]; repeat case_match; try done.
        cbn [sessions]. by rewrite lookup_insert_ne.
    + cbn [fst sessions]. by rewrite lookup_insert_ne.
  - intros eff sid' s' q Hin. apply Hfar. by apply route_targets in Hin.
Qed.

(** *** Expiry *)

Lemma member_sockets_NoDup st sid s :
  server_wf st → member_wf st → sessions st !! sid = Some s →
  NoDup (peer_ws <$> JsMap.values (peers s)).
Proof.
  intros Hwf Hm Hs. destruct (wf_sessions _ Hwf _ _ Hs) as (_ & Hnd & Hent & _).
  unfold JsMap.values. rewrite <- list_fmap_compose.
  apply NoDup_fmap_2_strong; [|by eapply NoDup_fmap_1].
  intros [k1 p1] [k2 p2] H1 H2 Heq. simpl in Heq.
  destruct (Hm _ _ _ _ Hs H1) as (c1 & Hc1 & Hp1 & _).
  destruct (Hm _ _ _ _ Hs H2) as (c2 & Hc2 & Hp2 & _).
  rewrite Heq in Hc1. simplify_eq.
  destruct (Hent _ _ H1) as [<- _]. by destruct (Hent _ _ H2) as [<- _].
Qed.

Lemma expire_keeps ps : ∀ acc eff, eff ∈ acc.2 → eff ∈ (foldl expire_peer acc ps).2.
Proof.
  induction ps as [|p ps IH]; intros acc eff Hin; cbn [foldl]; [done|].
  apply IH. cbn [expire_peer snd]. apply elem_of_app. by left.
Qed.

Lemma expire_member ps : ∀ acc q,
  NoDup (peer_ws <$> ps) → q ∈ ps → readyState_of acc.1 (peer_ws q) = OPEN →
  Send (peer_ws q) (e_error "Session expired") ∈ (foldl expire_peer acc ps).2 ∧
  Close (peer_ws q) 4001 "Session expired" ∈ (foldl expire_peer acc ps).2 ∧
  readyState_of (foldl expire_peer acc ps).1 (peer_ws q) = CLOSING.
Proof.
  induction ps as [|p ps IH]; intros acc q Hnd Hq Hopen; [by apply elem_of_nil in Hq|].
  rewrite fmap_cons in Hnd. apply NoDup_cons in Hnd as [Hp Hnd].
  cbn [foldl]. apply elem_of_cons in Hq as [->|Hq].
  - unfold readyState_of in Hopen.
    destruct (acc.1 !! peer_ws p) as [cp|] eqn:Hcp; [|done].
    assert (expire_peer acc p =
      (<[peer_ws p := with_readyState CLOSING cp]> acc.1,
       acc.2 ++ [Send (peer_ws p) (e_error "Session expired")]
             ++ [Close (peer_ws p) 4001 "Session expired"])) as ->.
    { unfold expire_peer. rewrite (sendJson_open _ _ cp), (ws_close_open _ _ cp) by done.
      done. }
    split_and!.
    + apply expire_keeps. cbn [snd]. rewrite !elem_of_app, list_elem_of_singleton. auto.
    + apply expire_keeps. cbn [snd]. rewrite !elem_of_app, !list_elem_of_singleton. auto.
    + unfold readyState_of. rewrite expire_lookup by done. cbn [fst].
      by rewrite lookup_insert_eq.
  - apply IH; [done..|]. unfold readyState_of in *. cbn [expire_peer fst].
    rewrite ws_close_lookup_ne; [done|]. intros Heq. apply Hp.
    rewrite <- Heq. by apply list_elem_of_fmap_2.
Qed.

(** A lookup of a session whose expiry time has passed removes the
    session from the registry, and every member whose socket is open
    is sent the error "Session expired" and a close frame with code
    4001; its socket is closing afterwards. *)
Theorem expired_session_is_closed st sid s now :
  reachable jwt_verify ttl st →
  sessions st !! sid = Some s → now > expiresAt s →
  let r := findSession sid now st in
  r.1.1 = None ∧
  sessions r.1.2 = delete sid (sessions st) ∧
  (∀ q, q ∈ JsMap.values (peers s) → readyState_of (conns st) (peer_ws q) = OPEN →
     Send (peer_ws q) (e_error "Session expired") ∈ r.2 ∧
     Close (peer_ws q) 4001 "Session expired" ∈ r.2 ∧
     readyState_of (conns r.1.2) (peer_ws q) = CLOSING).
Proof.
  intros Hr Hs Hexp. cbv zeta. unfold findSession. rewrite Hs.
  rewrite decide_True by done. cbn [fst snd sessions conns].
  split_and!; [done..|]. intros q Hq Hopen.
  apply expire_member; [|done..].
  eapply member_sockets_NoDup; eauto using reachable_via_wf, reachable_via_members.
Qed.

(** *** Releasing the lock, creating a session *)

(** A release from the owner unlocks the session; a release from any
    other peer changes nothing. Neither is answered with a
    lock_result: only the session state is broadcast. *)
Theorem lock_release_outcome st ws c P s now uuid :
  conns st !! ws = Some c → conn_peer c = Some P →
  sessions st !! conn_sessionId c = Some s → ¬ now > expiresAt s →
  let r := on_message jwt_verify ws (m_lock release) now uuid st in
  (lockOwnerPeerId s = Some (peer_id P) →
     r = ({| sessions := <[conn_sessionId c := with_lockOwner None s]> (sessions st);
             conns := conns st |},
          broadcastSessionState (conns st) (with_lockOwner None s))) ∧
  (lockOwnerPeerId s ≠ Some (peer_id P) →
     r = (st, broadcastSessionState (conns st) s)).
Proof.
  intros Hc HP Hs Hlive. cbv zeta.
  rewrite (on_message_route _ ws c P) by done.
  unfold route. rewrite (findSession_live _ _ _ s) by done.
  unfold on_lock, lock_release. cbn [fst snd app]. split; intros Hown.
  - by rewrite bool_decide_eq_true_2.
  - rewrite bool_decide_eq_false_2 by done. by rewrite insert_id, server_eta.
Qed.

(** On an unlocked session, a request followed by a release from the
    same peer leaves the server exactly as it was. *)
Theorem request_then_release_restores st ws c P s now1 now2 uuid1 uuid2 :
  conns st !! ws = Some c → conn_peer c = Some P →
  sessions st !! conn_sessionId c = Some s →
  ¬ now1 > expiresAt s → ¬ now2 > expiresAt s →
  lockOwnerPeerId s = None →
  (on_message jwt_verify ws (m_lock release) now2 uuid2
     (on_message jwt_verify ws (m_lock request) now1 uuid1 st).1).1 = st.
Proof.
  intros Hc HP Hs Hlive1 Hlive2 Hfree.
  assert ((on_message jwt_verify ws (m_lock request) now1 uuid1 st).1 =
          {| sessions := <[conn_sessionId c := with_lockOwner (Some (peer_id P)) s]>
                           (sessions st);
             conns := conns st |}) as ->.
  { rewrite (on_message_route _ ws c P) by done.
    unfold route. rewrite (findSession_live _ _ _ s) by done.
    unfold on_lock, lock_request. by rewrite Hfree. }
  rewrite (on_message_route _ ws c P) by done.
  unfold route.
  rewrite (findSession_live _ _ _ (with_lockOwner (Some (peer_id P)) s));
    [|by cbn [sessions]; rewrite lookup_insert_eq|done].
  unfold on_lock, lock_release. cbn [fst snd lockOwnerPeerId with_lockOwner sessions conns].
  rewrite bool_decide_eq_true_2 by done. cbn [with_lockOwner].
  rewrite insert_insert_eq.
  replace (with_lockOwner None (with_lockOwner (Some (peer_id P)) s)) with s
    by (destruct s; simpl in *; by subst).
  by rewrite insert_id, server_eta.
Qed.

(** [POST /api/dev/sessions]: a body that fails the schema changes
    nothing. Otherwise the registry gets, under the new id, an unlocked
    session without peers; a lifetime given in the body lies between
    one minute and one day; the session is found until its expiry
    time; and no other session changes. *)
Theorem created_session st uuid emulator expiresInSec now :
  let st' := create_session ttl uuid emulator expiresInSec now st in
  (createSessionBodySchema emulator expiresInSec = false → st' = st) ∧
  (createSessionBodySchema emulator expiresInSec = true →
     ∃ session,
       sessions st' !! uuid = Some session ∧
       lockOwnerPeerId session = None ∧ peers session = [] ∧
       createdAt session = now ∧
       expiresAt session = now + default ttl expiresInSec * 1000 ∧
       (∀ n, expiresInSec = Some n → 60000 ≤ expiresAt session - now ≤ 86400000) ∧
       (∀ now', now' ≤ expiresAt session →
                findSession uuid now' st' = (Some session, st', [])) ∧
       (∀ sid, sid ≠ uuid → sessions st' !! sid = sessions st !! sid)).
Proof.
  cbv zeta. unfold create_session. split; intros Hbody; rewrite Hbody; [done|].
  eexists. cbn [sessions]. rewrite lookup_insert_eq. split_and!; try done.
  - intros n ->. unfold createSessionBodySchema in Hbody. simpl.
    apply andb_prop in Hbody as [_ [H1%bool_decide_eq_true H2%bool_decide_eq_true]%andb_prop].
    lia.
  - intros now' Hnow. apply findSession_live; [apply lookup_insert_eq | lia].
  - intros sid Hne. by rewrite lookup_insert_ne.
Qed.

End Router.

(** *** The scenarios *)

Import Scenario.



Lemma three_peers_conn_A : conns (Scenario.after three_peers) !! 0%nat = Some (bound A).
Proof. vm_compute. reflexivity. Qed.


Lemma unrecognised_message_rejected_witness :
  on_message Scenario.verify 2%nat (m_hello "controller-token") 5 "u1"
    (Scenario.after three_peers)
  = (Scenario.after three_peers, [Send 2%nat (e_error "Unknown message")]).
Proof.
  exact (unrecognised_message_rejected Scenario.verify (Scenario.after three_peers) 2%nat
           (bound B2) B2 (S1 (Some "B1") [A; B1; B2]) 5 "u1" (m_hello "controller-token")
           three_peers_conn_B2 eq_refl eq_refl three_peers_sessions
           (S1_live _ _ 5 ltac:(lia)) I).
Defined.

Lemma peer_binding_is_stable_witness :
  ∃ c', conns (step Scenario.verify Scenario.ttl (Scenario.after three_peers)
                 (ws_closed 1%nat)).1 !! 2%nat = Some c' ∧
        conn_peer c' = Some B2 ∧ conn_sessionId c' = conn_sessionId (bound B2).
Proof.
  exact (peer_binding_is_stable Scenario.verify Scenario.ttl (Scenario.after three_peers)
           (ws_closed 1%nat) 2%nat (bound B2) B2 I three_peers_conn_B2 eq_refl
           ltac:(discriminate)).
Defined.

Lemma signal_fanout_witness :
  Send 1%nat (e_signal offer "sdp")
  ∈ (on_message Scenario.verify 0%nat (m_signal offer "sdp") 5 "u1"
       (Scenario.after three_peers)).2.
Proof.
  pose proof (signal_fanout Scenario.verify Scenario.ttl (Scenario.after three_peers) 0%nat
                (bound A) A (S1 (Some "B1") [A; B1; B2]) 5 "u1" offer "sdp"
                three_peers_reachable three_peers_conn_A eq_refl three_peers_sessions
                (S1_live _ _ 5 ltac:(lia))) as (_ & Hto & _).
  apply Hto. exists B1. split_and!.
  - vm_compute. set_solver.
  - split; [discriminate | intros H; by destruct H].
  - vm_compute. reflexivity.
  - reflexivity.
Defined.

Lemma frame_fanout_witness :
  Send 2%nat (e_frame png)
  ∈ (on_message Scenario.verify 0%nat (m_frame png) 5 "u1" (Scenario.after three_peers)).2.
Proof.
  pose proof (frame_fanout Scenario.verify Scenario.ttl (Scenario.after three_peers) 0%nat
                (bound A) A (S1 (Some "B1") [A; B1; B2]) 5 "u1" png
                three_peers_reachable three_peers_conn_A eq_refl eq_refl three_peers_sessions
                (S1_live _ _ 5 ltac:(lia)) eq_refl) as (_ & Hto & _).
  apply Hto. exists B2. split_and!.
  - vm_compute. set_solver.
  - discriminate.
  - vm_compute. reflexivity.
  - reflexivity.
Defined.

Lemma two_sessions_reachable :
  reachable ScenarioTwo.verify Scenario.ttl (ScenarioTwo.after ScenarioTwo.two_sessions).
Proof. apply run_reachable. apply (bool_decide_unpack _). vm_compute. exact I. Qed.

Lemma two_sessions_conn_B2 :
  conns (ScenarioTwo.after ScenarioTwo.two_sessions) !! 2%nat = Some (bound B2).
Proof. vm_compute. reflexivity. Qed.

Lemma other_sessions_untouched_witness :
  sessions (on_message ScenarioTwo.verify 2%nat (m_lock request) 6 "u1"
              (ScenarioTwo.after ScenarioTwo.two_sessions)).1 !! "S2"
  = sessions (ScenarioTwo.after ScenarioTwo.two_sessions) !! "S2" ∧
  sessions (ScenarioTwo.after ScenarioTwo.two_sessions) !! "S2" = Some ScenarioTwo.S2.
Proof.
  pose proof (other_sessions_untouched ScenarioTwo.verify Scenario.ttl
                (ScenarioTwo.after ScenarioTwo.two_sessions) 2%nat (bound B2) B2
                (m_lock request) 6 "u1"
                two_sessions_reachable two_sessions_conn_B2 eq_refl) as [Hsame _].
  split; [apply Hsame; discriminate | vm_compute; reflexivity].
Defined.

Lemma expired_session_is_closed_witness :
  Send 1%nat (e_error "Session expired")
    ∈ (findSession "S1" 3600001 (Scenario.after three_peers)).2 ∧
  Close 1%nat 4001 "Session expired"
    ∈ (findSession "S1" 3600001 (Scenario.after three_peers)).2 ∧
  readyState_of (conns (findSession "S1" 3600001 (Scenario.after three_peers)).1.2) 1%nat
    = CLOSING.
Proof.
  pose proof (expired_session_is_closed Scenario.verify Scenario.ttl
                (Scenario.after three_peers) "S1" (S1 (Some "B1") [A; B1; B2]) 3600001
                three_peers_reachable three_peers_sessions ltac:(simpl; lia))
    as (_ & _ & Hall).
  apply (Hall B1).
  - vm_compute. set_solver.
  - vm_compute. reflexivity.
Defined.

Lemma lock_release_outcome_witness :
  on_message Scenario.verify 1%nat (m_lock release) 5 "u1" (Scenario.after three_peers)
  = ({| sessions := <["S1" := S1 None [A; B1; B2]]> (sessions (Scenario.after three_peers));
        conns := conns (Scenario.after three_peers) |},
     broadcastSessionState (conns (Scenario.after three_peers)) (S1 None [A; B1; B2])).
Proof.
  pose proof (lock_release_outcome Scenario.verify (Scenario.after three_peers) 1%nat
                (bound B1) B1 (S1 (Some "B1") [A; B1; B2]) 5 "u1"
                three_peers_conn_B1 eq_refl three_peers_sessions
                (S1_live _ _ 5 ltac:(lia))) as [Howner _].
  apply Howner. reflexivity.
Defined.

Lemma request_then_release_restores_witness :
  (on_message Scenario.verify 0%nat (m_lock release) 6 "u2"
     (on_message Scenario.verify 0%nat (m_lock request) 5 "u1"
        (Scenario.after ScenarioTwo.viewer_only)).1).1
  = Scenario.after ScenarioTwo.viewer_only.
Proof.
  apply (request_then_release_restores Scenario.verify (Scenario.after ScenarioTwo.viewer_only)
           0%nat (bound ScenarioTwo.V) ScenarioTwo.V (S1 None [ScenarioTwo.V]) 5 6 "u1" "u2").
  - vm_compute. reflexivity.
  - reflexivity.
  - vm_compute. reflexivity.
  - simpl. lia.
  - simpl. lia.
  - reflexivity.
Defined.

End SignalingCoverage.

(** ** The agent: the executor and the handlers together *)
Module AgentCoverage.
Import Agent AgentProofs.

(** *** The executor *)

Lemma worker_loop_consistent ex : consistent (worker_loop ex).1.
Proof.
  unfold worker_loop, consistent.
  destruct (commandQueue ex); [destruct (pendingMove ex)|]; simpl; eauto.
Qed.

Lemma exec_step_consistent ex ev : consistent ex → consistent (exec_step ex ev).1.
Proof.
  intros Hc. destruct ev as [fn co|ok]; simpl.
  - unfold enqueue, processQueue.
    destruct co; simpl; destruct (workerRunning ex) eqn:Hw;
      try apply worker_loop_consistent; unfold consistent in *; simpl; by rewrite Hw in *.
  - unfold settle. destruct (inFlight ex); [|done]. apply worker_loop_consistent.
Qed.

Lemma exec_reachable_consistent ex : exec_reachable ex → consistent ex.
Proof.
  induction 1 as [|ex ev Hr IH Hf]; [done|]. by apply exec_step_consistent.
Qed.

Lemma consistent_busy ex cur : consistent ex → inFlight ex = Some cur → workerRunning ex = true.
Proof.
  unfold consistent. destruct (workerRunning ex); [done|]. by intros -> ?.
Qed.

Lemma consistent_free ex : consistent ex → inFlight ex = None → ex = idle.
Proof.
  unfold consistent. destruct (workerRunning ex); [|done].
  intros [? Hs] Hn. by rewrite Hn in Hs.
Qed.

(** Nothing is started while a call is in flight. *)
Lemma enqueue_busy ex cur fn co :
  consistent ex → inFlight ex = Some cur →
  enqueue fn co ex =
    ((if co
      then {| commandQueue := commandQueue ex; pendingMove := Some fn;
              workerRunning := workerRunning ex; inFlight := inFlight ex |}
      else {| commandQueue := commandQueue ex ++ [fn]; pendingMove := pendingMove ex;
              workerRunning := workerRunning ex; inFlight := inFlight ex |}), []).
Proof.
  intros Hc Hcur. pose proof (consistent_busy ex cur Hc Hcur) as Hw.
  unfold enqueue, processQueue. destruct co; simpl; by rewrite Hw.
Qed.

Lemma enqueue_idle fn co :
  enqueue fn co idle =
    ({| commandQueue := []; pendingMove := None; workerRunning := true; inFlight := Some fn |},
     [Call fn]).
Proof. by destruct co. Qed.

(** The awaited call settles: what is called next, and what keeps
    waiting. *)
Lemma settle_cases ex ok cur :
  distinct_fns ex → inFlight ex = Some cur →
  let r := settle ok ex in
  match commandQueue ex, pendingMove ex with
  | next :: rest, p =>
      calls r.2 = [next] ∧ commandQueue r.1 = rest ∧ pendingMove r.1 = p
      ∧ inFlight r.1 = Some next
  | [], Some p =>
      calls r.2 = [p] ∧ commandQueue r.1 = [] ∧ pendingMove r.1 = None
      ∧ inFlight r.1 = Some p
  | [], None => calls r.2 = [] ∧ r.1 = idle
  end.
Proof.
  intros Hd Hcur. cbv zeta. unfold settle. rewrite Hcur. unfold worker_loop. simpl.
  destruct (commandQueue ex) as [|next rest] eqn:Hq.
  - destruct (pendingMove ex); simpl; rewrite calls_app; by destruct ok.
  - simpl. rewrite calls_app. split_and!; [by destruct ok|done| |done].
    destruct (pendingMove ex) as [p|] eqn:Hp; [|done].
    specialize (Hd p Hp). rewrite Hq, fmap_cons in Hd.
    apply not_elem_of_cons in Hd as [Hne _].
    unfold same_fn. rewrite (bool_decide_eq_false_2 (fn_id p = fn_id next)) by done.
    by rewrite andb_false_r.
Qed.

(** The executor makes one device call at a time. While a call is in
    flight [enqueue] starts nothing and leaves that call in flight; on
    an idle executor it calls the new command at once; and when a call
    settles, at most one call is started, which is then the one in
    flight. *)
Theorem one_call_at_a_time ex :
  exec_reachable ex →
  (∀ cur fn coalesceMove, inFlight ex = Some cur →
     (enqueue fn coalesceMove ex).2 = [] ∧
     inFlight (enqueue fn coalesceMove ex).1 = Some cur) ∧
  (∀ fn coalesceMove, inFlight ex = None →
     (enqueue fn coalesceMove ex).2 = [Call fn] ∧
     inFlight (enqueue fn coalesceMove ex).1 = Some fn ∧
     waiting (enqueue fn coalesceMove ex).1 = []) ∧
  (∀ ok, calls (settle ok ex).2 = option_list (inFlight (settle ok ex).1)).
Proof.
  intros Hr. pose proof (exec_reachable_consistent ex Hr) as Hc.
  pose proof (exec_reachable_distinct ex Hr) as Hd.
  split_and!.
  - intros cur fn co Hcur. rewrite (enqueue_busy ex cur) by done. by destruct co.
  - intros fn co Hn. rewrite (consistent_free ex Hc Hn), enqueue_idle. done.
  - intros ok. destruct (inFlight ex) as [cur|] eqn:Hcur.
    + pose proof (settle_cases ex ok cur Hd Hcur) as H. cbv zeta in H.
      destruct (commandQueue ex); [destruct (pendingMove ex)|].
      * destruct H as (-> & _ & _ & ->). done.
      * destruct H as (-> & ->). done.
      * destruct H as (-> & _ & _ & ->). done.
    + unfold settle. rewrite Hcur. simpl. by rewrite Hcur.
Qed.

Lemma exec_run_app evs1 evs2 ex :
  exec_run (evs1 ++ evs2) ex =
    let r := exec_run evs1 ex in
    let r' := exec_run evs2 r.1 in (r'.1, r.2 ++ r'.2).
Proof.
  revert ex. induction evs1 as [|ev evs1 IH]; intros ex; simpl.
  - by destruct (exec_run evs2 ex).
  - rewrite IH. simpl. by rewrite app_assoc.
Qed.

(** Moves that arrive while a call is in flight only replace the
    pending move. *)
Lemma moves_while_busy ms : ∀ ex cur m,
  consistent ex → inFlight ex = Some cur →
  exec_run ((λ fn, ev_enqueue fn true) <$> (ms ++ [m])) ex =
    ({| commandQueue := commandQueue ex; pendingMove := Some m;
        workerRunning := workerRunning ex; inFlight := inFlight ex |}, []).
Proof.
  induction ms as [|m0 ms IH]; intros ex cur m Hc Hcur; simpl.
  - by rewrite (enqueue_busy ex cur).
  - rewrite (enqueue_busy ex cur) by done. simpl.
    rewrite (IH _ cur); [done| |done].
    pose proof (consistent_busy ex cur Hc Hcur) as Hw.
    unfold consistent. simpl. rewrite Hw, Hcur. eauto.
Qed.

(** A burst of moves collapses to its last one. Any number of moves
    enqueued while a call is in flight start no call and leave the
    ordered queue as it is; only the last of them is pending, and as
    the calls settle the device gets the queued commands and then that
    one move. *)
Theorem move_burst_collapses ex cur ms m ok outcomes :
  exec_reachable ex → inFlight ex = Some cur →
  fn_id m ∉ fn_id <$> commandQueue ex →
  length outcomes = S (length (commandQueue ex)) →
  let r := exec_run ((λ fn, ev_enqueue fn true) <$> (ms ++ [m])) ex in
  r.2 = [] ∧
  commandQueue r.1 = commandQueue ex ∧
  pendingMove r.1 = Some m ∧
  calls (drain (ok :: outcomes) r.1).2 = commandQueue ex ++ [m] ∧
  (drain (ok :: outcomes) r.1).1 = idle.
Proof.
  intros Hr Hcur Hfresh Hlen. cbv zeta.
  rewrite (moves_while_busy ms ex cur m) by eauto using exec_reachable_consistent.
  cbn [fst snd commandQueue pendingMove].
  set (ex' := {| commandQueue := commandQueue ex; pendingMove := Some m;
                 workerRunning := workerRunning ex; inFlight := inFlight ex |}).
  destruct (drain_all (commandQueue ex ++ [m]) ex' ok outcomes cur)
    as (Hidle & Hcalls & _).
  - intros p. simpl. intros ?. by simplify_eq.
  - done.
  - done.
  - rewrite length_app. simpl. lia.
  - done.
Qed.

(** A pending move is overtaken by what is enqueued after it. When a
    move is pending and a command is enqueued without [coalesceMove]
    while a call is in flight, the device gets that command before the
    move: the move is called last, after the whole ordered queue. *)
Theorem pending_move_is_overtaken ex cur mv fn ok outcomes :
  exec_reachable ex → inFlight ex = Some cur → pendingMove ex = Some mv →
  fn_id fn ≠ fn_id mv →
  length outcomes = S (S (length (commandQueue ex))) →
  let r := enqueue fn false ex in
  r.2 = [] ∧
  calls (drain (ok :: outcomes) r.1).2 = commandQueue ex ++ [fn; mv] ∧
  (drain (ok :: outcomes) r.1).1 = idle.
Proof.
  intros Hr Hcur Hmv Hfresh Hlen. cbv zeta.
  pose proof (exec_reachable_consistent ex Hr) as Hc.
  pose proof (exec_reachable_distinct ex Hr) as Hd.
  rewrite (enqueue_busy ex cur) by done. cbn [fst snd].
  set (ex' := {| commandQueue := commandQueue ex ++ [fn]; pendingMove := pendingMove ex;
                 workerRunning := workerRunning ex; inFlight := inFlight ex |}).
  destruct (drain_all (commandQueue ex ++ [fn; mv]) ex' ok outcomes cur)
    as (Hidle & Hcalls & _).
  - intros p. simpl. rewrite Hmv. intros ?. simplify_eq.
    rewrite fmap_app. apply not_elem_of_app. split; [by apply Hd|].
    simpl. rewrite list_elem_of_singleton. congruence.
  - done.
  - unfold waiting, ex'. simpl. rewrite Hmv. simpl. by rewrite <- app_assoc.
  - rewrite length_app. simpl. lia.
  - done.
Qed.

(** *** The handlers and the executor together *)

Lemma enqueued_app tr1 tr2 : enqueued (tr1 ++ tr2) = enqueued tr1 ++ enqueued tr2.
Proof. apply omap_app. Qed.

Lemma ordered_app tr1 tr2 : ordered (tr1 ++ tr2) = ordered tr1 ++ ordered tr2.
Proof. apply omap_app. Qed.

Lemma started_app tr1 tr2 : started (tr1 ++ tr2) = started tr1 ++ started tr2.
Proof. apply omap_app. Qed.

Lemma enqueued_Exec out : enqueued (Exec <$> out) = [].
Proof. by induction out. Qed.

Lemma ordered_Exec out : ordered (Exec <$> out) = [].
Proof. by induction out. Qed.

Lemma started_Exec out : started (Exec <$> out) = calls out.
Proof. induction out as [|[c|c] out IH]; simpl; [done| |done]. by rewrite <- IH. Qed.

Lemma ordered_enqueued tr c : c ∈ ordered tr → c ∈ enqueued tr.
Proof.
  unfold ordered, enqueued. rewrite !list_elem_of_omap.
  intros (o & Ho & Hc). exists o. split; [done|].
  destruct o as [fn [|]| |]; by simplify_eq.
Qed.

Lemma filter_ids_ext (ids1 ids2 : list nat) (l : list Command) :
  (∀ c, c ∈ l → fn_id c ∈ ids1 ↔ fn_id c ∈ ids2) →
  filter (λ c, fn_id c ∈ ids1) l = filter (λ c, fn_id c ∈ ids2) l.
Proof.
  induction l as [|c l IH]; intros Hext; [done|].
  rewrite !filter_cons. rewrite IH by (intros ? ?; apply Hext; by right).
  destruct (decide (fn_id c ∈ ids1)) as [H1|H1], (decide (fn_id c ∈ ids2)) as [H2|H2];
    try done; exfalso; apply (Hext c) in H1 || apply (Hext c) in H2; try done; by left.
Qed.

Lemma agent_inv_distinct st tr : agent_inv st tr → distinct_fns (executor st).
Proof.
  intros [_ _ _ _ Hnd _ _ _] p Hp.
  rewrite fmap_app in Hnd. apply NoDup_app in Hnd as (_ & _ & Hnd).
  unfold waiting in Hnd. rewrite Hp, fmap_app in Hnd.
  apply NoDup_app in Hnd as (_ & Hnd & _). intros Hin.
  apply (Hnd _ Hin). simpl. by left.
Qed.

Lemma inv_enqueue st tr fn co ps :
  agent_inv st tr → fn_id fn = created st →
  agent_inv {| pointerState := ps; executor := (enqueue fn co (executor st)).1;
               created := S (created st) |}
            (tr ++ Enqueued fn co :: (Exec <$> (enqueue fn co (executor st)).2)).
Proof.
  intros Hinv Hid. pose proof (agent_inv_distinct _ _ Hinv) as Hd.
  destruct Hinv as [Hc Hcr Hst Hw Hnd Hfifo Hp Hen].
  assert (∀ c, c ∈ enqueued tr → fn_id c ≠ fn_id fn) as Hfresh.
  { intros c Hin. apply Hcr in Hin. lia. }
  assert (∀ c, c ∈ started tr → fn_id c ∈ fn_id <$> ordered tr ++ [fn]
                                ↔ fn_id c ∈ fn_id <$> ordered tr) as Hext.
  { intros c Hin. rewrite fmap_app, elem_of_app. simpl. rewrite list_elem_of_singleton.
    split; [intros [?|Heq]; [done|]|by left]. by apply Hst, Hfresh in Hin. }
  assert (fn_id fn ∉ fn_id <$> ordered tr) as Hnew.
  { intros (c & Heq & Hin)%list_elem_of_fmap. by apply ordered_enqueued, Hfresh in Hin. }
  assert (fn_id fn ∉ fn_id <$> started tr ++ waiting (executor st)) as Hnew'.
  { intros (c & Heq & Hin)%list_elem_of_fmap.
    apply elem_of_app in Hin as [Hin|Hin]; [apply Hst in Hin|apply Hw in Hin];
      by apply Hfresh in Hin. }
  destruct (inFlight (executor st)) as [cur|] eqn:Hcur.
  - rewrite (enqueue_busy _ cur) by done. cbn [fst snd fmap list_fmap].
    split; cbn [executor created].
    + pose proof (consistent_busy _ _ Hc Hcur) as Hrun.
      unfold consistent in *. destruct co; simpl; by rewrite Hrun in *.
    + intros c. rewrite enqueued_app, elem_of_app. simpl. rewrite list_elem_of_singleton.
      intros [Hin| ->]; [apply Hcr in Hin|]; lia.
    + intros c. rewrite started_app, enqueued_app, app_nil_r, elem_of_app. auto.
    + intros c. rewrite enqueued_app, elem_of_app. simpl. rewrite list_elem_of_singleton.
      unfold waiting in *. destruct co; simpl; rewrite ?elem_of_app; simpl.
      * intros [Hin|Hin]; [left; apply Hw; apply elem_of_app; by left|].
        apply list_elem_of_singleton in Hin. by right.
      * rewrite list_elem_of_singleton.
        intros [[Hin| ->]|Hin]; [left|by right|left]; apply Hw; apply elem_of_app; auto.
    + rewrite started_app, app_nil_r. unfold waiting in *. destruct co; simpl.
      * assert (NoDup (fn_id <$> started tr ++ commandQueue (executor st))) as H0.
        { rewrite app_assoc, fmap_app in Hnd. by apply NoDup_app in Hnd as (? & _ & _). }
        rewrite app_assoc, fmap_app. apply NoDup_app. split_and!; [done| |apply NoDup_singleton].
        intros x Hx Hx'. apply list_elem_of_singleton in Hx' as ->.
        apply Hnew'. rewrite app_assoc, fmap_app. apply elem_of_app. by left.
      * apply (NoDup_cons_2 _ _ Hnew') in Hnd. revert Hnd.
        rewrite !fmap_app. simpl. intros Hnd.
        eapply NoDup_Permutation_proper; [|exact Hnd]. solve_Permutation.
    + rewrite started_app, app_nil_r, ordered_app. destruct co; simpl.
      * by rewrite app_nil_r.
      * rewrite (filter_ids_ext _ (fn_id <$> ordered tr)) by done.
        by rewrite app_assoc, Hfifo.
    + intros p. rewrite ordered_app. destruct co; simpl.
      * intros ?. simplify_eq. by rewrite app_nil_r.
      * intros Hpm. rewrite fmap_app, not_elem_of_app. split; [by apply Hp|].
        simpl. rewrite list_elem_of_singleton. apply Hfresh, Hw.
        unfold waiting. rewrite Hpm. apply elem_of_app. right. by left.
    + rewrite enqueued_app, fmap_app. apply NoDup_app.
      split_and!; [done| |apply NoDup_singleton].
      intros x (c & -> & Hin)%list_elem_of_fmap Hx'. apply list_elem_of_singleton in Hx'.
      by apply Hfresh in Hin.
  - rewrite (consistent_free _ Hc Hcur), enqueue_idle in *. cbn [fst snd fmap list_fmap].
    assert (started (tr ++ [Enqueued fn co; Exec (Call fn)]) = started tr ++ [fn]) as Hs.
    { by rewrite started_app. }
    assert (enqueued (tr ++ [Enqueued fn co; Exec (Call fn)]) = enqueued tr ++ [fn]) as He.
    { by rewrite enqueued_app. }
    assert (ordered (tr ++ [Enqueued fn co; Exec (Call fn)])
            = ordered tr ++ (if co then [] else [fn])) as Ho.
    { rewrite ordered_app. by destruct co. }
    simpl in Hfifo. rewrite app_nil_r in Hfifo. unfold waiting in Hnew', Hnd.
    simpl in Hnew', Hnd. rewrite app_nil_r in Hnew', Hnd.
    split; cbn [executor created]; rewrite ?Hs, ?He, ?Ho.
    + unfold consistent. simpl. eauto.
    + intros c. rewrite elem_of_app, list_elem_of_singleton.
      intros [Hin| ->]; [apply Hcr in Hin|]; lia.
    + intros c. rewrite !elem_of_app. intros [?|?]; auto.
    + intros c. unfold waiting. simpl. by intros ?%elem_of_nil.
    + unfold waiting. simpl. rewrite app_nil_r, fmap_app. apply NoDup_app.
      split_and!; [done| |apply NoDup_singleton].
      intros x Hx Hx'. apply list_elem_of_singleton in Hx' as ->. done.
    + simpl. rewrite app_nil_r, filter_app. destruct co.
      * rewrite app_nil_r, Hfifo. rewrite filter_cons_False by done. by rewrite app_nil_r.
      * rewrite (filter_ids_ext _ (fn_id <$> ordered tr)) by done. rewrite Hfifo.
        rewrite filter_cons_True; [done|].
        rewrite fmap_app. apply elem_of_app. right. by left.
    + by intros p.
    + rewrite fmap_app. apply NoDup_app. split_and!; [done| |apply NoDup_singleton].
      intros x (c & -> & Hin)%list_elem_of_fmap Hx'. apply list_elem_of_singleton in Hx'.
      by apply Hfresh in Hin.
Qed.

Lemma inv_settle st tr ok ps :
  agent_inv st tr →
  agent_inv {| pointerState := ps; executor := (settle ok (executor st)).1;
               created := created st |}
            (tr ++ (Exec <$> (settle ok (executor st)).2)).
Proof.
  intros Hinv. pose proof (agent_inv_distinct _ _ Hinv) as Hd.
  destruct Hinv as [Hc Hcr Hst Hw Hnd Hfifo Hp Hen].
  rewrite <- (app_nil_r (enqueued tr)), <- (enqueued_Exec (settle ok (executor st)).2),
    <- enqueued_app in Hcr, Hst, Hw, Hen.
  rewrite <- (app_nil_r (ordered tr)), <- (ordered_Exec (settle ok (executor st)).2),
    <- ordered_app in Hfifo, Hp.
  set (tr' := tr ++ (Exec <$> (settle ok (executor st)).2)) in *.
  assert (started tr' = started tr ++ calls (settle ok (executor st)).2) as Hs.
  { unfold tr'. by rewrite started_app, started_Exec. }
  destruct (inFlight (executor st)) as [cur|] eqn:Hcur.
  - pose proof (settle_cases (executor st) ok cur Hd Hcur) as H. cbv zeta in H.
    unfold waiting in *.
    destruct (commandQueue (executor st)) as [|next rest] eqn:Hq;
      [destruct (pendingMove (executor st)) as [p|] eqn:Hpm|].
    + destruct H as (Hcalls & Hq' & Hp' & Hin). rewrite Hcalls in Hs.
      split; cbn [executor created]; unfold waiting; rewrite ?Hs, ?Hq', ?Hp'; simpl in *.
      * apply (exec_step_consistent _ (ev_settle ok) Hc).
      * done.
      * intros c. rewrite elem_of_app, list_elem_of_singleton.
        intros [?| ->]; [auto|]. apply Hw. by left.
      * by intros c ?%elem_of_nil.
      * by rewrite app_nil_r.
      * rewrite app_nil_r, filter_app, filter_cons_False by (by apply Hp).
        rewrite app_nil_r in Hfifo. by rewrite app_nil_r.
      * by intros ?.
      * done.
    + destruct H as (Hcalls & ->). rewrite Hcalls, app_nil_r in Hs.
      split; cbn [executor created]; unfold waiting; rewrite ?Hs; simpl in *; try done.
    + destruct H as (Hcalls & Hq' & Hp' & Hin). rewrite Hcalls in Hs.
      split; cbn [executor created]; unfold waiting; rewrite ?Hs, ?Hq', ?Hp'; simpl in *.
      * apply (exec_step_consistent _ (ev_settle ok) Hc).
      * done.
      * intros c. rewrite elem_of_app, list_elem_of_singleton.
        intros [?| ->]; [auto|]. apply Hw. by left.
      * intros c Hin'. apply Hw. by right.
      * by rewrite <- app_assoc.
      * rewrite filter_app, filter_cons_True, <- app_assoc; [done|].
        rewrite <- Hfifo, fmap_app. apply elem_of_app. right. by left.
      * done.
      * done.
  - unfold settle in *. rewrite Hcur in *. simpl in *. rewrite app_nil_r in Hs.
    split; cbn [executor created]; rewrite ?Hs; done.
Qed.

Section MainProofs.

Variable Coord : Type.
Variable scale : Coord → Z → Z.
Variable min_interval min_delta max_buffered : Z.

Local Abbreviation on_control := (on_control Coord scale min_interval min_delta).
Local Abbreviation agent_step := (agent_step Coord scale min_interval min_delta max_buffered).
Local Abbreviation agent_run := (agent_run Coord scale min_interval min_delta max_buffered).

(** A control envelope makes the handler call [enqueue] at most once. *)
Lemma on_control_cases ev now st :
  (on_control ev now st).2 = [] ∨ ∃ c co, (on_control ev now st).2 = [(c, co)].
Proof.
  destruct ev as [p|k|a|]; simpl.
  - destruct (on_pointer_cases Coord scale min_interval min_delta p now st)
      as [->|(f & -> & _)]; [by left|right; by eexists _, _].
  - unfold on_key. destruct (key_action k); [|by left].
    destruct (key k) as [name|]; [destruct (decide (name = ""))|];
      try (right; by eexists _, _);
      destruct (keyCode k); simpl; (by left) || (right; by eexists _, _).
  - right. by eexists _, _.
  - by left.
Qed.

Lemma agent_inv_pointer st tr ps :
  agent_inv st tr →
  agent_inv {| pointerState := ps; executor := executor st; created := created st |} tr.
Proof. by intros []. Qed.

Lemma agent_step_inv st tr ev :
  agent_inv st tr → agent_inv (agent_step st ev).1 (tr ++ (agent_step st ev).2).
Proof.
  intros Hinv. destruct ev as [ev now| |len w h o b|ok]; cbn [Agent.agent_step fst snd].
  - destruct (on_control_cases ev now (pointerState st)) as [->|(c & co & ->)].
    + simpl. rewrite app_nil_r. by apply agent_inv_pointer.
    + simpl. by apply inv_enqueue.
  - rewrite app_nil_r. by destruct st.
  - apply agent_inv_pointer with (ps := (on_screenshot max_buffered len w h o b
                                          (pointerState st)).1) in Hinv.
    destruct Hinv as [Hc Hcr Hst Hw Hnd Hfifo Hp Hen].
    destruct ((on_screenshot max_buffered len w h o b (pointerState st)).2);
      [|by rewrite app_nil_r].
    split; unfold enqueued, ordered, started in *; rewrite ?omap_app; simpl;
      rewrite ?app_nil_r; done.
  - by apply inv_settle.
Qed.

Lemma agent_run_snoc evs ev st :
  agent_run (evs ++ [ev]) st =
    let r := agent_run evs st in
    let r' := agent_step r.1 ev in (r'.1, r.2 ++ r'.2).
Proof. unfold Agent.agent_run. by rewrite foldl_snoc. Qed.

Lemma agent_run_inv evs : agent_inv (agent_run evs agent_init).1 (agent_run evs agent_init).2.
Proof.
  induction evs as [|ev evs IH] using rev_ind.
  - split; simpl; try done; try (by intros ? ?%elem_of_nil); apply NoDup_nil_2.
  - rewrite agent_run_snoc. cbv zeta. cbn [fst snd]. by apply agent_step_inv.
Qed.

(** Every function the agent hands to [enqueue] is a new one: the
    executor of the agent is always in a state that [enqueue] and the
    settling of calls reach from the idle one with new functions only,
    and its worker runs exactly while a call is in flight. *)
Theorem agent_executor_reachable evs :
  exec_reachable (executor (agent_run evs agent_init).1) ∧
  (workerRunning (executor (agent_run evs agent_init).1) = true
     ↔ is_Some (inFlight (executor (agent_run evs agent_init).1))).
Proof.
  split.
  - induction evs as [|ev evs IH] using rev_ind; [constructor|].
    rewrite agent_run_snoc. cbv zeta. cbn [fst].
    pose proof (agent_run_inv evs) as Hinv.
    set (st := (agent_run evs agent_init).1) in *.
    destruct ev as [ev now| |len w h o b|ok]; cbn [Agent.agent_step fst snd executor].
    + destruct (on_control_cases ev now (pointerState st)) as [->|(c & co & ->)]; [done|].
      simpl.
      apply (exec_reachable_step (executor st)
               (ev_enqueue {| fn_id := created st; fn_call := c |} co)); [done|].
      simpl. split.
      * intros (c' & Heq & Hin)%list_elem_of_fmap.
        assert (c' ∈ waiting (executor st)) as Hw by (apply elem_of_app; by left).
        apply (inv_waiting _ _ Hinv), (inv_created _ _ Hinv) in Hw. lia.
      * destruct (pendingMove (executor st)) as [p|] eqn:Hp; [|done]. simpl.
        intros [= Heq].
        assert (p ∈ waiting (executor st)) as Hw.
        { unfold waiting. rewrite Hp. apply elem_of_app. right. by left. }
        apply (inv_waiting _ _ Hinv), (inv_created _ _ Hinv) in Hw. lia.
    + done.
    + done.
    + by apply (exec_reachable_step (executor st) (ev_settle ok)).
  - pose proof (inv_consistent _ _ (agent_run_inv evs)) as Hc. unfold consistent in Hc.
    destruct (workerRunning _); [done|]. rewrite Hc. simpl. split; [done|].
    by intros [? ?].
Qed.

(** The ordered commands reach the device in the order of their
    arrival, each once. In every run of the agent, the functions handed
    to [enqueue] without [coalesceMove] that were called so far,
    followed by the ordered queue, are those functions in the order in
    which they were handed over; no function is called twice; and the
    executor calls nothing but what was handed to [enqueue]. *)
Theorem ordered_commands_fifo evs :
  let r := agent_run evs agent_init in
  filter (λ c, fn_id c ∈ fn_id <$> ordered r.2) (started r.2) ++ commandQueue (executor r.1)
    = ordered r.2 ∧
  NoDup (fn_id <$> started r.2) ∧
  NoDup (fn_id <$> enqueued r.2) ∧
  (∀ c, c ∈ started r.2 → c ∈ enqueued r.2).
Proof.
  cbv zeta. pose proof (agent_run_inv evs) as [Hc Hcr Hst Hw Hnd Hfifo Hp Hen].
  split_and!; [done| | |done].
  - rewrite fmap_app in Hnd. by apply NoDup_app in Hnd as (? & _ & _).
  - done.
Qed.

End MainProofs.

(** *** The scenarios *)

Import AgentScenario.

Lemma down_sent_reachable : exec_reachable (exec_after down_sent).
Proof.
  apply exec_run_reachable; [constructor|]. simpl.
  repeat split; try discriminate; apply not_elem_of_nil.
Qed.

Lemma swipe_begun_reachable : exec_reachable (exec_after swipe_begun).
Proof.
  apply exec_run_reachable; [constructor|]. simpl.
  repeat split; try discriminate; apply not_elem_of_nil.
Qed.

Lemma one_call_at_a_time_witness :
  (enqueue (touch 3 60 100 0) false (exec_after swipe_begun)).2 = [] ∧
  (enqueue (touch 1 50 100 180) false idle).2 = [Call (touch 1 50 100 180)] ∧
  calls (settle true (exec_after swipe_begun)).2 = [touch 2 60 100 180].
Proof.
  pose proof (one_call_at_a_time _ swipe_begun_reachable) as (Hbusy & _ & Hsettle).
  pose proof (one_call_at_a_time _ exec_reachable_idle) as (_ & Hidle & _).
  split_and!.
  - exact (proj1 (Hbusy (touch 1 50 100 180) (touch 3 60 100 0) false eq_refl)).
  - exact (proj1 (Hidle (touch 1 50 100 180) false eq_refl)).
  - exact (Hsettle true).
Defined.

Lemma move_burst_collapses_witness :
  calls (drain [true; true]
           (exec_run [ev_enqueue (touch 2 60 100 180) true;
                      ev_enqueue (touch 3 70 100 180) true;
                      ev_enqueue (touch 4 80 100 180) true] (exec_after down_sent)).1).2
    = [touch 4 80 100 180].
Proof.
  pose proof (move_burst_collapses (exec_after down_sent) (touch 1 50 100 180)
                [touch 2 60 100 180; touch 3 70 100 180] (touch 4 80 100 180) true [true]
                down_sent_reachable eq_refl (not_elem_of_nil _) eq_refl)
    as (_ & _ & _ & Hcalls & _).
  exact Hcalls.
Defined.

(** The up of a gesture arrives while its down is in flight and a move
    is pending: the device gets the up, with pressure 0, and then the
    move, with pressure 180. *)
Lemma pending_move_is_overtaken_witness :
  calls (drain [true; true; true]
           (enqueue (touch 3 60 100 0) false (exec_after swipe_begun)).1).2
    = [touch 3 60 100 0; touch 2 60 100 180].
Proof.
  pose proof (pending_move_is_overtaken (exec_after swipe_begun) (touch 1 50 100 180)
                (touch 2 60 100 180) (touch 3 60 100 0) true [true; true]
                swipe_begun_reachable eq_refl eq_refl ltac:(discriminate) eq_refl)
    as (_ & Hcalls & _).
  exact Hcalls.
Defined.

End AgentCoverage.

(** ** The agent: the token of a running emulator *)
Module IniProofs.
Import Agent.

Section Ini.

Context {Char : Type} `{EqDecision Char}.
Variable is_space : Char → bool.
Variables cr lf eq_sign quote : Char.
Variables proto_key port_key token_key : list Char.
Context {Time : Type}.
Variable time_le : Time → Time → bool.

Local Abbreviation split_lines := (split_lines cr lf).
Local Abbreviation chomp := (chomp cr).
Local Abbreviation trimStart := (trimStart is_space).
Local Abbreviation trimEnd := (trimEnd is_space).
Local Abbreviation trim := (trim is_space).
Local Abbreviation unquote := (unquote quote).
Local Abbreviation assign := (assign proto_key).
Local Abbreviation parse_line := (parse_line is_space eq_sign quote proto_key).
Local Abbreviation parse_lines := (parse_lines is_space cr lf eq_sign quote proto_key).
Local Abbreviation parseIni := (parseIni is_space cr lf eq_sign quote proto_key).
Local Abbreviation insert_by_mtime := (insert_by_mtime (Char:=Char) time_le).
Local Abbreviation sort_by_mtime := (sort_by_mtime (Char:=Char) time_le).
Local Abbreviation newest_first := (newest_first (Char:=Char) time_le).
Local Abbreviation exact_match := (exact_match (Time:=Time) port_key token_key).
Local Abbreviation has_token := (has_token (Time:=Time) token_key).


Lemma split_lines_cons c text :
  split_lines (c :: text) =
    match text with
    | c' :: rest' =>
        if bool_decide (c = cr) && bool_decide (c' = lf) then [] :: split_lines rest'
        else if bool_decide (c = lf) then [] :: split_lines text
        else match split_lines text with
             | line :: lines => (c :: line) :: lines
             | [] => [[c]]
             end
    | [] => if bool_decide (c = lf) then [[]; []] else [[c]]
    end.
Proof. by destruct text. Qed.

Lemma split_lines_not_nil text : split_lines text ≠ [].
Proof.
  destruct text as [|c [|c' rest]]; simpl; [done|by case_match|].
  repeat case_match; done.
Qed.

Lemma list_pair_ind (P : list Char → Prop) :
  P [] → (∀ c, P [c]) → (∀ c c' l, P l → P (c' :: l) → P (c :: c' :: l)) → ∀ l, P l.
Proof.
  intros H0 H1 H2 l. cut (P l ∧ ∀ c, P (c :: l)); [by intros []|].
  induction l as [|c l [IH1 IH2]]; [by split|]. split; [done|]. intros c'. by apply H2.
Qed.

Lemma split_lines_no_lf text line : line ∈ split_lines text → lf ∉ line.
Proof.
  revert line. induction text as [|c|c c' l IH1 IH2] using list_pair_ind; intros line.
  - simpl. rewrite list_elem_of_singleton. intros ->. apply not_elem_of_nil.
  - simpl. case_bool_decide as Hc.
    + rewrite !elem_of_cons. intros [->|[->|?%elem_of_nil]]; try done; apply not_elem_of_nil.
    + rewrite list_elem_of_singleton. intros ->. rewrite list_elem_of_singleton. congruence.
  - rewrite split_lines_cons.
    destruct (bool_decide (c = cr) && bool_decide (c' = lf)).
    { rewrite elem_of_cons. intros [->|?]; [apply not_elem_of_nil|by apply IH1]. }
    case_bool_decide as Hc.
    { rewrite elem_of_cons. intros [->|?]; [apply not_elem_of_nil|by apply IH2]. }
    destruct (split_lines (c' :: l)) as [|l0 ls] eqn:Hs.
    { rewrite list_elem_of_singleton. intros ->. rewrite list_elem_of_singleton. congruence. }
    rewrite elem_of_cons. intros [->|Hin].
    + rewrite elem_of_cons. intros [?|Hin]; [congruence|]. revert Hin. apply IH2. by left.
    + apply IH2. by right.
Qed.

Lemma chomp_cons line lines : lines ≠ [] → chomp (line :: lines) = line :: chomp lines.
Proof. by destruct lines. Qed.

Lemma chomp_cons_first c line lines :
  c ≠ cr ∨ line ≠ [] ∨ lines ≠ [] →
  chomp ((c :: line) :: lines) = match chomp (line :: lines) with
                                 | l :: ls => (c :: l) :: ls
                                 | [] => []
                                 end.
Proof.
  intros Hc. destruct lines as [|l' lines]; [|done]. simpl.
  rewrite reverse_cons.
  destruct (reverse line) as [|x rest] eqn:Hr; simpl.
  - apply (f_equal reverse) in Hr. rewrite reverse_involutive in Hr. subst line.
    case_bool_decide; [|done]. naive_solver.
  - case_bool_decide; [|done]. by rewrite reverse_app, reverse_singleton.
Qed.

Lemma chomp_not_nil lines : lines ≠ [] → chomp lines ≠ [].
Proof.
  destruct lines as [|l0 [|l1 ls]]; [done| |done]. intros _. simpl. by repeat case_match.
Qed.

Hypothesis cr_lf : cr ≠ lf.

Lemma split_lines_app text more :
  split_lines (text ++ lf :: more) = chomp (split_lines text) ++ split_lines more.
Proof.
  assert (split_lines (lf :: more) = [] :: split_lines more) as Hlf.
  { rewrite split_lines_cons. destruct more as [|c' rest'].
    - by rewrite bool_decide_eq_true_2.
    - rewrite (bool_decide_eq_false_2 (lf = cr)) by done. simpl.
      by rewrite bool_decide_eq_true_2. }
  induction text as [|c|c c' l IH1 IH2] using list_pair_ind.
  - done.
  - change ([c] ++ lf :: more) with (c :: lf :: more). rewrite split_lines_cons.
    rewrite (bool_decide_eq_true_2 (lf = lf)) by done. rewrite andb_true_r, Hlf.
    cbn [split_lines]. case_bool_decide as Hcr.
    + rewrite (bool_decide_eq_false_2 (c = lf)) by congruence. simpl.
      by rewrite bool_decide_eq_true_2.
    + case_bool_decide as Hc; [done|]. simpl. by rewrite bool_decide_eq_false_2.
  - change ((c :: c' :: l) ++ lf :: more) with (c :: c' :: (l ++ lf :: more)).
    rewrite !(split_lines_cons c).
    destruct (bool_decide (c = cr) && bool_decide (c' = lf)) eqn:Hcrlf.
    { rewrite IH1, (chomp_cons [] (split_lines l)); [done|apply split_lines_not_nil]. }
    change (c' :: l ++ lf :: more) with ((c' :: l) ++ lf :: more). rewrite IH2.
    destruct (bool_decide (c = lf)) eqn:Hc.
    { rewrite (chomp_cons [] (split_lines (c' :: l))); [done|apply split_lines_not_nil]. }
    apply bool_decide_eq_false in Hc.
    destruct (split_lines (c' :: l)) as [|l0 ls] eqn:Hs; [by apply split_lines_not_nil in Hs|].
    rewrite chomp_cons_first.
    { destruct (chomp (l0 :: ls)) eqn:Hch; [by apply chomp_not_nil in Hch|done]. }
    destruct (decide (c = cr)) as [->|]; [|by left]. right.
    apply andb_false_iff in Hcrlf as [Hcrlf|Hcrlf]; apply bool_decide_eq_false in Hcrlf;
      [done|].
    rewrite split_lines_cons in Hs. rewrite (bool_decide_eq_false_2 (c' = lf)) in Hs by done.
    destruct l as [|c'' l]; [simplify_eq; by left|].
    destruct (bool_decide (c' = cr) && bool_decide (c'' = lf)) eqn:Hx.
    + simplify_eq. right. apply split_lines_not_nil.
    + destruct (split_lines (c'' :: l)); simplify_eq; by left.
Qed.

Lemma trimStart_suffix s : trimStart s `suffix_of` s.
Proof.
  induction s as [|c s IH]; simpl; [done|]. destruct (is_space c); [|done].
  by apply suffix_cons_r.
Qed.

Lemma trimEnd_prefix s : trimEnd s `prefix_of` s.
Proof.
  unfold Agent.trimEnd. pose proof (trimStart_suffix (reverse s)) as Hs.
  apply suffix_prefix_reverse in Hs. by rewrite reverse_involutive in Hs.
Qed.

Lemma trimStart_head s c : head (trimStart s) = Some c → is_space c = false.
Proof.
  induction s as [|x s IH]; simpl; [done|]. destruct (is_space x) eqn:Hx; [done|].
  simpl. by intros [= <-].
Qed.

Lemma trimEnd_last s c : last (trimEnd s) = Some c → is_space c = false.
Proof. unfold Agent.trimEnd. rewrite last_reverse. apply trimStart_head. Qed.

Lemma trim_elem_of s x : x ∈ trim s → x ∈ s.
Proof.
  unfold Agent.trim. intros Hx.
  destruct (trimEnd_prefix (trimStart s)) as [k1 Hk1].
  destruct (trimStart_suffix s) as [k2 Hk2].
  rewrite Hk2. apply elem_of_app. right. rewrite Hk1. apply elem_of_app. by left.
Qed.

Lemma trim_head s c : head (trim s) = Some c → is_space c = false.
Proof.
  unfold Agent.trim. intros Hc. apply (trimStart_head s).
  destruct (trimEnd_prefix (trimStart s)) as [k Hk]. rewrite Hk.
  destruct (trimEnd (trimStart s)); [done|]. done.
Qed.

Lemma trim_last s c : last (trim s) = Some c → is_space c = false.
Proof. apply trimEnd_last. Qed.

Lemma trimStart_id s : (∀ c, head s = Some c → is_space c = false) → trimStart s = s.
Proof. destruct s as [|c s]; [done|]. simpl. intros Hc. by rewrite Hc. Qed.

Lemma trimEnd_id s : (∀ c, last s = Some c → is_space c = false) → trimEnd s = s.
Proof.
  intros Hc. unfold Agent.trimEnd. rewrite trimStart_id, reverse_involutive; [done|].
  by rewrite head_reverse.
Qed.

Lemma trim_id s :
  (∀ c, head s = Some c → is_space c = false) →
  (∀ c, last s = Some c → is_space c = false) → trim s = s.
Proof. intros Hh Hl. unfold Agent.trim. by rewrite trimStart_id, trimEnd_id. Qed.

Lemma trimEnd_snoc s c : is_space c = true → trimEnd (s ++ [c]) = trimEnd s.
Proof. intros Hc. unfold Agent.trimEnd. rewrite reverse_snoc. simpl. by rewrite Hc. Qed.

Lemma trim_snoc s c : is_space c = true → trim (s ++ [c]) = trim s.
Proof.
  intros Hc. unfold Agent.trim. induction s as [|x s IH]; simpl.
  - by rewrite Hc.
  - destruct (is_space x); [done|].
    change (x :: s ++ [c]) with ((x :: s) ++ [c]). by apply trimEnd_snoc.
Qed.

Lemma indexOf_None (c : Char) s : indexOf c s = None ↔ c ∉ s.
Proof.
  induction s as [|x s IH]; simpl.
  - split; [intros _; apply not_elem_of_nil|done].
  - rewrite not_elem_of_cons. case_bool_decide as Hx.
    + split; [done|]. intros [? _]. congruence.
    + rewrite fmap_None, IH. split; [intros ?; split; [congruence|done]|by intros [_ ?]].
Qed.

Lemma indexOf_Some (c : Char) s i :
  indexOf c s = Some i → (c ∉ take i s) ∧ s !! i = Some c.
Proof.
  revert i. induction s as [|x s IH]; intros i; simpl; [done|].
  case_bool_decide as Hx.
  - intros [= <-]. simpl. split; [apply not_elem_of_nil|by subst].
  - intros (j & Hj & ->)%fmap_Some. destruct (IH j Hj) as [Hnot Hl]. simpl.
    split; [|done]. apply not_elem_of_cons. split; [congruence|done].
Qed.

Lemma indexOf_app (c : Char) k r : c ∉ k → indexOf c (k ++ c :: r) = Some (length k).
Proof.
  induction k as [|x k IH]; simpl.
  - intros _. by rewrite bool_decide_eq_true_2.
  - intros [Hx Hk]%not_elem_of_cons. rewrite bool_decide_eq_false_2 by congruence.
    by rewrite IH.
Qed.

Hypothesis cr_space : is_space cr = true.
Hypothesis cr_eq : cr ≠ eq_sign.

(** A "\r" at the end of a line makes no difference. *)
Lemma parse_line_chomp out line : parse_line out (line ++ [cr]) = parse_line out line.
Proof.
  unfold Agent.parse_line.
  destruct (indexOf eq_sign line) as [i|] eqn:Hi.
  - destruct (indexOf_Some _ _ _ Hi) as [Hnot Hl].
    apply lookup_lt_Some in Hl as Hlt.
    assert (line = take i line ++ eq_sign :: drop (S i) line) as Hsplit.
    { rewrite <- (take_drop_middle line i eq_sign) at 1 by done. done. }
    assert (indexOf eq_sign (line ++ [cr]) = Some i) as ->.
    { rewrite Hsplit at 1. rewrite <- app_assoc. simpl.
      rewrite indexOf_app by done. by rewrite length_take_le by lia. }
    destruct i as [|i]; [done|].
    rewrite take_app_le by lia. rewrite drop_app_le by lia.
    by rewrite trim_snoc.
  - assert (indexOf eq_sign (line ++ [cr]) = None) as ->; [|done].
    apply indexOf_None. apply indexOf_None in Hi.
    rewrite not_elem_of_app, list_elem_of_singleton. split; [done|congruence].
Qed.

Lemma foldl_parse_line_chomp lines : ∀ out,
  foldl parse_line out (chomp lines) = foldl parse_line out lines.
Proof.
  induction lines as [|l0 [|l1 ls] IH]; intros out; [done| |].
  - simpl. destruct (reverse l0) as [|c rest] eqn:Hr; [done|].
    case_bool_decide as Hc; [|done]. subst c. simpl.
    apply (f_equal reverse) in Hr. rewrite reverse_involutive, reverse_cons in Hr.
    by rewrite Hr, parse_line_chomp.
  - rewrite chomp_cons by done. simpl. apply (IH (parse_line out l0)).
Qed.

(** Parsing a text and a second one after a line break is parsing the
    first and going on with the second. *)
Lemma parse_lines_app out text more :
  parse_lines out (text ++ lf :: more) = parse_lines (parse_lines out text) more.
Proof.
  unfold Agent.parse_lines. by rewrite split_lines_app, foldl_app, foldl_parse_line_chomp.
Qed.

Lemma snoc_last_cons (line : list Char) lines c :
  lines ≠ [] → snoc_last (line :: lines) c = line :: snoc_last lines c.
Proof. by destruct lines. Qed.

Lemma snoc_last_cons_first (x : Char) line lines c :
  snoc_last ((x :: line) :: lines) c =
    match snoc_last (line :: lines) c with l :: ls => (x :: l) :: ls | [] => [] end.
Proof. by destruct lines. Qed.

Lemma split_lines_snoc text c :
  c ≠ lf → split_lines (text ++ [c]) = snoc_last (split_lines text) c.
Proof.
  intros Hc.
  assert (split_lines [c] = [[c]]) as H1 by (simpl; by rewrite bool_decide_eq_false_2).
  induction text as [|x|x x' l IH1 IH2] using list_pair_ind.
  - done.
  - change ([x] ++ [c]) with (x :: [c]). rewrite split_lines_cons, H1.
    rewrite (bool_decide_eq_false_2 (c = lf)) by done. rewrite andb_false_r.
    simpl. by case_bool_decide.
  - change ((x :: x' :: l) ++ [c]) with (x :: x' :: (l ++ [c])).
    rewrite !(split_lines_cons x).
    destruct (bool_decide (x = cr) && bool_decide (x' = lf)).
    { rewrite IH1, (snoc_last_cons [] (split_lines l)); [done|apply split_lines_not_nil]. }
    change (x' :: l ++ [c]) with ((x' :: l) ++ [c]). rewrite IH2.
    destruct (bool_decide (x = lf)).
    { rewrite (snoc_last_cons [] (split_lines (x' :: l))); [done|apply split_lines_not_nil]. }
    destruct (split_lines (x' :: l)) as [|l0 ls] eqn:Hs; [by apply split_lines_not_nil in Hs|].
    rewrite snoc_last_cons_first.
    destruct (snoc_last (l0 :: ls) c) eqn:Hsn; [|done].
    destruct ls; done.
Qed.

Lemma foldl_parse_line_snoc lines : ∀ out,
  foldl parse_line out (snoc_last lines cr) = foldl parse_line out lines.
Proof.
  induction lines as [|l0 [|l1 ls] IH]; intros out; [done| |].
  - simpl. by rewrite parse_line_chomp.
  - rewrite snoc_last_cons by done. simpl. apply (IH (parse_line out l0)).
Qed.

Lemma parse_lines_app_crlf out text more :
  parse_lines out (text ++ cr :: lf :: more) = parse_lines (parse_lines out text) more.
Proof.
  change (text ++ cr :: lf :: more) with (text ++ [cr] ++ lf :: more).
  rewrite app_assoc, parse_lines_app. f_equal.
  unfold Agent.parse_lines. by rewrite split_lines_snoc, foldl_parse_line_snoc.
Qed.

Lemma split_lines_one line : lf ∉ line → split_lines line = [line].
Proof.
  induction line as [|x|x x' l IH1 IH2] using list_pair_ind; intros Hlf.
  - done.
  - simpl. rewrite bool_decide_eq_false_2; [done|].
    intros ->. apply Hlf. by left.
  - rewrite split_lines_cons.
    apply not_elem_of_cons in Hlf as [Hx Hlf].
    rewrite IH2 by done. apply not_elem_of_cons in Hlf as [Hx' _].
    rewrite (bool_decide_eq_false_2 (x' = lf)) by done.
    rewrite (bool_decide_eq_false_2 (x = lf)) by done. by rewrite andb_false_r.
Qed.

Lemma get_assign out k v k' :
  k ≠ proto_key →
  get (assign k v out) k' = if decide (k = k') then Some v else get out k'.
Proof. intros Hk. unfold Agent.assign. by rewrite decide_False. Qed.

(** The line [key=raw] at the end of a text. *)
Lemma parse_lines_assignment out k raw :
  k ≠ [] → eq_sign ∉ k → lf ∉ k → lf ∉ raw → eq_sign ≠ lf →
  parse_lines out (k ++ eq_sign :: raw) = assign (trim k) (unquote (trim raw)) out.
Proof.
  intros Hk Heq Hlfk Hlfr Hne. unfold Agent.parse_lines.
  rewrite split_lines_one.
  2:{ rewrite not_elem_of_app, not_elem_of_cons. done. }
  simpl. unfold Agent.parse_line. rewrite indexOf_app by done.
  destruct k as [|x k]; [done|]. cbn [length].
  rewrite take_app_length'; [|done].
  rewrite (cons_middle eq_sign), app_assoc.
  rewrite drop_app_length'; [done|]. rewrite length_app. simpl. lia.
Qed.

Lemma get_elem_of (out : list (list Char * list Char)) k v :
  get out k = Some v → (k, v) ∈ out.
Proof.
  induction out as [|[k0 v0] out IH]; simpl; [done|].
  case_decide as Hk; [intros [= <-]; subst; by left|]. intros ?. right. auto.
Qed.

Lemma unquote_elem_of v x : x ∈ unquote v → x ∈ v.
Proof.
  unfold Agent.unquote. case_match; [|done]. intros Hx.
  by apply (subseteq_drop 1 v), (subseteq_take (length v - 2)).
Qed.

Lemma parse_line_keys (P : list Char * list Char → Prop) out line :
  (∀ i, indexOf eq_sign line = Some i →
     trim (take i line) ≠ proto_key →
     P (trim (take i line), unquote (trim (drop (i + 1) line)))) →
  Forall P out → Forall P (parse_line out line).
Proof.
  intros HP Hout. unfold Agent.parse_line.
  destruct (indexOf eq_sign line) as [[|i]|] eqn:Hi; [done| |done].
  unfold Agent.assign. case_decide; [done|]. constructor; [|done]. by apply HP.
Qed.

(** The keys of the result: no "=", no line break, no white space
    around them. *)
Lemma parseIni_keys_all text :
  Forall (λ kv, (eq_sign ∉ kv.1) ∧ (lf ∉ kv.1) ∧ (lf ∉ kv.2) ∧ kv.1 ≠ proto_key ∧
                (∀ c, head kv.1 = Some c → is_space c = false) ∧
                (∀ c, last kv.1 = Some c → is_space c = false))
         (parseIni text).
Proof.
  unfold Agent.parseIni, Agent.parse_lines.
  assert (∀ lines out P,
            (∀ line, line ∈ lines → lf ∉ line) →
            (∀ line i, line ∈ lines → indexOf eq_sign line = Some i →
               trim (take i line) ≠ proto_key →
               P (trim (take i line), unquote (trim (drop (i + 1) line)))) →
            Forall P out → Forall P (foldl parse_line out lines)) as Hfold.
  { induction lines as [|l0 ls IH]; intros out P Hlf HP Hout; simpl; [done|].
    apply IH.
    - intros line ?. apply Hlf. by right.
    - intros line i ?. apply HP. by right.
    - apply parse_line_keys; [|done]. intros i. apply HP. by left. }
  apply Hfold; [apply split_lines_no_lf| |done].
  intros line i Hline Hi Hproto. simpl.
  destruct (indexOf_Some _ _ _ Hi) as [Hnot _].
  pose proof (split_lines_no_lf _ _ Hline) as Hlf.
  split_and!; [| | |done|apply trim_head|apply trim_last].
  - intros ?%trim_elem_of. done.
  - intros ?%trim_elem_of%(subseteq_take i line). done.
  - intros ?%unquote_elem_of%trim_elem_of%(subseteq_drop (i + 1) line). done.
Qed.

Section order.

Hypothesis time_le_total : ∀ a b, time_le a b = true ∨ time_le b a = true.
Hypothesis time_le_trans : ∀ a b c, time_le a b = true → time_le b c = true → time_le a c = true.

Lemma insert_by_mtime_perm p l : insert_by_mtime p l ≡ₚ p :: l.
Proof.
  induction l as [|q l IH]; simpl; [done|]. case_match; [done|].
  rewrite IH. apply Permutation_swap.
Qed.

Lemma sort_by_mtime_perm l : sort_by_mtime l ≡ₚ l.
Proof.
  induction l as [|p l IH]; simpl; [done|]. by rewrite insert_by_mtime_perm, IH.
Qed.

Lemma insert_by_mtime_sorted p l : newest_first l → newest_first (insert_by_mtime p l).
Proof.
  induction l as [|q l IH]; simpl; [by split; [intros ? ?%elem_of_nil|]|].
  intros [Hq Hs]. destruct (time_le (mtimeMs q) (mtimeMs p)) eqn:Hle; simpl.
  - split; [|done]. intros r [->|Hr]%elem_of_cons; [done|]. eauto.
  - split; [|by apply IH]. intros r. rewrite insert_by_mtime_perm.
    intros [->|Hr]%elem_of_cons; [|by apply Hq].
    destruct (time_le_total (mtimeMs q) (mtimeMs p)); [congruence|done].
Qed.

Lemma sort_by_mtime_sorted l : newest_first (sort_by_mtime l).
Proof.
  induction l as [|p l IH]; simpl; [done|]. by apply insert_by_mtime_sorted.
Qed.

(** The first file of a sorted list that passes a test is the newest
    of those that pass it. *)
Lemma find_sorted (f : IniFile → bool) l :
  newest_first l →
  match List.find f l with
  | Some p =>
      p ∈ l ∧ f p = true ∧ ∀ q, q ∈ l → f q = true → time_le (mtimeMs q) (mtimeMs p) = true
  | None => ∀ q, q ∈ l → f q = false
  end.
Proof.
  induction l as [|p l IH]; simpl.
  - by intros _ q ?%elem_of_nil.
  - intros [Hp Hs]. destruct (f p) eqn:Hf.
    + split_and!; [by left|done|]. intros q [->|Hq]%elem_of_cons _.
      * by destruct (time_le_total (mtimeMs p) (mtimeMs p)).
      * by apply Hp.
    + specialize (IH Hs). destruct (List.find f l) as [p'|].
      * destruct IH as (Hin & Hfp & Hnew). split_and!; [by right|done|].
        intros q [->|Hq]%elem_of_cons Hfq; [congruence|by apply Hnew].
      * intros q [->|Hq]%elem_of_cons; [done|by apply IH].
Qed.

Section endpoint.

Variable colon : Char.
Variables scheme_mark http_prefix defaultPort : list Char.
Variable url_port : list Char → option (list Char).

Local Abbreviation or_default := (or_default defaultPort).
Local Abbreviation getEndpointPort :=
  (getEndpointPort colon scheme_mark http_prefix defaultPort url_port).
Local Abbreviation discoverGrpcToken :=
  (discoverGrpcToken is_space cr lf eq_sign quote proto_key port_key token_key time_le
     colon scheme_mark http_prefix defaultPort url_port).



(** The token that [discoverGrpcToken] gives is the one of the newest
    file whose port is the one [getEndpointPort] gives for the endpoint
    and that has a token; when no file is such, it is the one of the
    newest file that has a token; and only when no file has one it is
    empty. *)
Theorem newest_token_is_chosen la fs endpoint :
  la ≠ [] →
  let desiredPort := getEndpointPort endpoint in
  let parsed := (λ f, {| mtimeMs := f.1; values := parseIni f.2 |}) <$> fs in
  let token := discoverGrpcToken (Some la) (Some fs) endpoint in
  ((∀ p, p ∈ parsed → has_token p = false) → token = []) ∧
  (∀ p0, p0 ∈ parsed → has_token p0 = true →
     ∃ p, p ∈ parsed ∧ get (values p) token_key = Some token ∧ token ≠ [] ∧
       ((exact_match desiredPort p = true ∧
         ∀ q, q ∈ parsed → exact_match desiredPort q = true →
              time_le (mtimeMs q) (mtimeMs p) = true)
        ∨ ((∀ q, q ∈ parsed → exact_match desiredPort q = false) ∧
           ∀ q, q ∈ parsed → has_token q = true →
                time_le (mtimeMs q) (mtimeMs p) = true))).
Proof.
  intros Hla desiredPort parsed token.
  assert (token =
            match List.find (exact_match desiredPort) (sort_by_mtime parsed) with
            | Some exact => default [] (get (values exact) token_key)
            | None =>
                match List.find has_token (sort_by_mtime parsed) with
                | Some any => default [] (get (values any) token_key)
                | None => []
                end
            end) as Htoken.
  { unfold token, Agent.discoverGrpcToken. destruct la; [done|]. by destruct fs. }
  clearbody token parsed desiredPort. subst token.
  pose proof (find_sorted (exact_match desiredPort) _ (sort_by_mtime_sorted parsed)) as Hex.
  pose proof (find_sorted has_token _ (sort_by_mtime_sorted parsed)) as Hany.
  assert (∀ p, p ∈ sort_by_mtime parsed ↔ p ∈ parsed) as Hperm.
  { intros p. by rewrite sort_by_mtime_perm. }
  assert (∀ p, has_token p = true →
               ∃ t, get (values p) token_key = Some t ∧ t ≠ []) as Htok.
  { intros p. unfold Agent.has_token, nonempty.
    destruct (get (values p) token_key) as [[|c t]|]; [done| |done]. eauto. }
  split.
  - intros Hnone.
    destruct (List.find (exact_match desiredPort) (sort_by_mtime parsed)) as [p|].
    { destruct Hex as (Hin & Hf & _). apply Hperm, Hnone in Hin.
      unfold Agent.exact_match in Hf. apply andb_true_iff in Hf as [_ Hf].
      unfold Agent.has_token in Hin. congruence. }
    destruct (List.find has_token (sort_by_mtime parsed)) as [p|]; [|done].
    destruct Hany as (Hin & Hf & _). apply Hperm, Hnone in Hin. congruence.
  - intros p0 Hp0 Hhas.
    destruct (List.find (exact_match desiredPort) (sort_by_mtime parsed)) as [p|].
    { destruct Hex as (Hin & Hf & Hnew). exists p.
      assert (has_token p = true) as Hp.
      { unfold Agent.exact_match in Hf. by apply andb_true_iff in Hf as [_ Hf]. }
      destruct (Htok p Hp) as (t & Ht & Hne). rewrite Ht. simpl.
      split_and!; [by apply Hperm|done|done|]. left. split; [done|].
      intros q Hq. apply Hnew. by apply Hperm. }
    destruct (List.find has_token (sort_by_mtime parsed)) as [p|].
    { destruct Hany as (Hin & Hf & Hnew). exists p.
      destruct (Htok p Hf) as (t & Ht & Hne). rewrite Ht. simpl.
      split_and!; [by apply Hperm|done|done|]. right. split.
      - intros q Hq. apply Hex. by apply Hperm.
      - intros q Hq. apply Hnew. by apply Hperm. }
    apply Hperm, Hany in Hp0. congruence.
Qed.

End endpoint.

End order.

(** Every key that [parseIni] gives has no "=" and no line break in
    it, no white space at its ends, and is not "__proto__"; its value
    has no line break in it. *)
Theorem parseIni_keys text k v :
  get (parseIni text) k = Some v →
  (eq_sign ∉ k) ∧ (lf ∉ k) ∧ (lf ∉ v) ∧ k ≠ proto_key ∧
  (∀ c, head k = Some c → is_space c = false) ∧
  (∀ c, last k = Some c → is_space c = false).
Proof.
  intros Hget%get_elem_of.
  pose proof (parseIni_keys_all text) as Hall. rewrite Forall_forall in Hall.
  apply (Hall _ Hget).
Qed.

Hypothesis lf_eq : lf ≠ eq_sign.

(** The last line of a file wins. When a text is followed by a line
    break, "\n" or "\r\n", and a line [key=raw], the key without the
    white space around it is bound to [raw] without the white space
    around it and without the double quotes around that, whatever the
    text bound it to; every other key is bound as in the text. *)
Theorem parseIni_last_line text eol k raw :
  eol = [lf] ∨ eol = [cr; lf] →
  k ≠ [] → eq_sign ∉ k → lf ∉ k → lf ∉ raw → trim k ≠ proto_key →
  let out := parseIni (text ++ eol ++ k ++ eq_sign :: raw) in
  get out (trim k) = Some (unquote (trim raw)) ∧
  (∀ k', k' ≠ trim k → get out k' = get (parseIni text) k').
Proof.
  intros Heol Hk Heq Hlfk Hlfr Hproto out.
  assert (out = assign (trim k) (unquote (trim raw)) (parseIni text)) as ->.
  { unfold out, Agent.parseIni.
    destruct Heol as [-> | ->]; simpl;
      rewrite ?parse_lines_app, ?parse_lines_app_crlf;
      by apply parse_lines_assignment. }
  split.
  - rewrite get_assign by done. by rewrite decide_True.
  - intros k' Hk'. rewrite get_assign by done. by rewrite decide_False.
Qed.


End Ini.

(** *** The scenarios *)

Import IniScenario.

Lemma Z_leb_total (a b : Z) : (a <=? b) = true ∨ (b <=? a) = true.
Proof. lia. Qed.

Lemma Z_leb_trans (a b c : Z) : (a <=? b) = true → (b <=? c) = true → (a <=? c) = true.
Proof. lia. Qed.

Ltac by_computation := apply (bool_decide_unpack _); vm_compute; exact I.

Lemma parseIni_keys_witness :
  (eq_sign ∉ str "grpc.token") ∧ (lf ∉ str "grpc.token") ∧ (lf ∉ str "new").
Proof.
  pose proof (parseIni_keys is_space cr lf eq_sign quote (str "__proto__")
                (pid_ini "8554" "new") (str "grpc.token") (str "new") eq_refl)
    as (Heq & Hk & Hv & _).
  exact (conj Heq (conj Hk Hv)).
Defined.

Lemma parseIni_last_line_witness :
  get (parse (pid_ini "8554" "old" ++ [lf] ++ str "grpc.token " ++ eq_sign :: str " new "))
      (str "grpc.token") = Some (str "new") ∧
  get (parse (pid_ini "8554" "old" ++ [lf] ++ str "grpc.token " ++ eq_sign :: str " new "))
      (str "grpc.port") = Some (str "8554").
Proof.
  destruct (parseIni_last_line is_space cr lf eq_sign quote (str "__proto__"))
    with (text := pid_ini "8554" "old") (eol := [lf])
         (k := str "grpc.token ") (raw := str " new ") as [Hkey Hrest];
    [by_computation | reflexivity | by_computation | by_computation
    | left; reflexivity | by_computation | by_computation | by_computation
    | by_computation | by_computation | ].
  split; [exact Hkey|].
  apply (Hrest (str "grpc.port")). by_computation.
Defined.


Lemma newest_token_is_chosen_witness :
  ∃ p, p ∈ parsed_running ∧
       exact_match (str "grpc.port") (str "grpc.token") (str "8554") p = true ∧
       get (values p) (str "grpc.token") = Some (str "new") ∧
       discover (Some (str "C:/Users/dev/AppData/Local")) (Some running)
         (str "127.0.0.1:8554") = str "new".
Proof.
  destruct (newest_token_is_chosen is_space cr lf eq_sign quote
              (str "__proto__") (str "grpc.port") (str "grpc.token") Z.leb
              Z_leb_total Z_leb_trans
              (Ascii.ascii_of_nat 58) (str "://") (str "http://") (str "8554") url_port
              (str "C:/Users/dev/AppData/Local") running (str "127.0.0.1:8554"))
    as [_ Hsome]; [by_computation|].
  destruct (Hsome {| mtimeMs := 100; values := parse (pid_ini "8554" "old") |})
    as (p & Hin & Hget & _ & [[Hexact _]|[Hnone _]]);
    [apply list_elem_of_here | reflexivity | |].
  - exists p. split_and!; [exact Hin|exact Hexact|exact Hget|reflexivity].
  - exfalso.
    pose proof (Hnone {| mtimeMs := 100; values := parse (pid_ini "8554" "old") |}) as Hf.
    discriminate Hf. apply list_elem_of_here.
Defined.

End IniProofs.
